(** * PlayCanvas exporter for Blender: a shallow embedding of [export.py]

    The development follows the exporter leaf first: the geometry splitter
    ([separate_mesh_by_material]), the attribute flattener ([MeshParser]),
    and the hierarchy exporter ([HeirachyExporter]) with its node, instance,
    mapping and material lists.

    Conventions of the embedding.
    - A Python float is represented by its exact rational value ([Q]).  The
      code only compares, copies and stores coordinates; the accumulators of
      the bounding box, which start at [float('inf')], live in [efloat].
    - Blender objects compared by identity ([BMVert], [BMFace]) carry their
      [index], which plays the role of the identity.
    - A Python [dict] whose iteration order is observable is an association
      list in insertion order.
    - A Python exception is a value of [exn] in the [result] monad.  The
      exceptions followed are those of the exporter's own indexing and
      lookups.  The file system takes every write and copy, every texture
      slot has its texture and image, and every material slot is filled:
      what is said of an export is said of one that these let through. *)

From Stdlib Require Import List Bool Arith ZArith QArith Lia Permutation.
From Stdlib Require Import Strings.String Strings.Ascii.
Import ListNotations.

Local Open Scope nat_scope.
Local Open Scope list_scope.

Set Implicit Arguments.

(** ** Python runtime: exceptions, sequences *)

Inductive exn : Type :=
| IndexError
| ValueError
| KeyError
| UnboundLocalError.

Inductive result (A : Type) : Type :=
| Ok (a : A)
| Raise (e : exn).
Arguments Ok {A} a.
Arguments Raise {A} e.

Definition bind {A B : Type} (c : result A) (k : A -> result B) : result B :=
  match c with
  | Ok a => k a
  | Raise e => Raise e
  end.

Notation "x <- c ;; k" := (bind c (fun x => k))
  (at level 61, c at next level, right associativity).

(** [for x in xs: acc = body(acc, x)] where the body may raise. *)
Fixpoint for_each {A S : Type} (body : S -> A -> result S) (xs : list A) (s : S)
  : result S :=
  match xs with
  | [] => Ok s
  | x :: xs' => s' <- body s x ;; for_each body xs' s'
  end.

(** [[f(x) for x in xs]] where [f] may raise. *)
Fixpoint map_result {A B : Type} (f : A -> result B) (xs : list A)
  : result (list B) :=
  match xs with
  | [] => Ok []
  | x :: xs' => b <- f x ;; bs <- map_result f xs' ;; Ok (b :: bs)
  end.

(** [enumerate(xs)], counting from [start]. *)
Fixpoint enumerate_from {A : Type} (start : nat) (xs : list A) : list (nat * A) :=
  match xs with
  | [] => []
  | x :: xs' => (start, x) :: enumerate_from (S start) xs'
  end.

Definition enumerate {A : Type} (xs : list A) : list (nat * A) :=
  enumerate_from 0 xs.

(** [xs[i] = v]: raises [IndexError] out of range. *)
Fixpoint list_set {A : Type} (xs : list A) (i : nat) (v : A) : result (list A) :=
  match xs, i with
  | [], _ => Raise IndexError
  | _ :: xs', O => Ok (v :: xs')
  | x :: xs', S i' => ys <- list_set xs' i' v ;; Ok (x :: ys)
  end.

(** [xs[i]]: raises [IndexError] out of range. *)
Definition list_get {A : Type} (xs : list A) (i : nat) : result A :=
  match nth_error xs i with
  | Some a => Ok a
  | None => Raise IndexError
  end.

(** [xs.index(s)] on a list of strings: first position, [ValueError] if absent. *)
Fixpoint index_from (start : nat) (s : string) (xs : list string) : result nat :=
  match xs with
  | [] => Raise ValueError
  | x :: xs' => if String.eqb x s then Ok start else index_from (S start) s xs'
  end.

Definition list_index (xs : list string) (s : string) : result nat :=
  index_from 0 s xs.

(** [s in xs] on a list of strings. *)
Definition str_in (s : string) (xs : list string) : bool :=
  existsb (String.eqb s) xs.

Definition sum_list (ns : list nat) : nat := fold_right Nat.add 0 ns.

(** ** Blender data: vectors, materials, meshes *)

Definition float := Q.
Bind Scope Q_scope with float.

Record Vector : Type := mkVector { vx : float; vy : float; vz : float }.

Record Color : Type := mkColor { col_r : float; col_g : float; col_b : float }.

(** A texture slot of a material, with the fields the exporter reads:
    [tex.name], [tex.texture.type], [bpy.path.abspath(tex.texture.image.filepath)],
    [tex.uv_layer] and the channel flags. *)
Record TextureSlot : Type := mkTextureSlot {
  tex_name : string;
  texture_type : string;
  image_filepath : string;
  uv_layer : string;
  use_map_color_diffuse : bool;
  use_map_emission : bool;
  use_map_color_spec : bool;
  use_map_alpha : bool;
  use_rgb_to_intensity : bool;
  use_map_normal : bool;
  normal_factor : float
}.

Record Material : Type := mkMaterial {
  mat_name : string;
  diffuse_color : Color;
  specular_color : Color;
  specular_intensity : float;
  emit : float;
  alpha : float;
  alpha_blend : string;
  use_backface_culling : bool;
  use_vertex_color_paint : bool;
  use_vertex_color_light : bool;
  texture_slots : list (option TextureSlot);
  use_textures : list bool
}.

Record BMVert : Type := mkBMVert {
  vert_index : nat;
  co : Vector
}.

(** A loop is a corner of a face: its vertex, its split normal, its
    coordinate in every UV layer and its colour in the active colour layer. *)
Record BMLoop : Type := mkBMLoop {
  vert : BMVert;
  normal : Vector;
  loop_uv : string -> float * float;
  loop_color : Color
}.

Record BMFace : Type := mkBMFace {
  face_index : nat;
  material_index : nat;
  loops : list BMLoop
}.

Record BMesh : Type := mkBMesh {
  verts : list BMVert;
  faces : list BMFace;
  uv_layers : list string;
  (** [vertex_colors.active_index]; [-1] when the mesh has no colour layer *)
  vertex_colors_active_index : Z
}.

Record Mesh : Type := mkMesh {
  mesh_name : string;
  materials : list Material;
  mesh_geometry : BMesh
}.

(** [bm.from_mesh(mesh)] *)
Definition from_mesh (mesh : Mesh) : BMesh := mesh_geometry mesh.

(** [face.verts] *)
Definition face_verts (f : BMFace) : list BMVert := map vert (loops f).

(** [vert in seq], membership by identity. *)
Definition vert_in (v : BMVert) (vs : list BMVert) : bool :=
  existsb (fun w => vert_index w =? vert_index v) vs.

(** [seq.remove(vert)] on a Python list: drops the first occurrence. *)
Fixpoint list_remove_vert (v : BMVert) (vs : list BMVert) : list BMVert :=
  match vs with
  | [] => []
  | w :: vs' => if vert_index w =? vert_index v then vs'
                else w :: list_remove_vert v vs'
  end.

(** [bm.faces.remove(face)]: the face goes, its vertices stay. *)
Definition faces_remove (bm : BMesh) (f : BMFace) : BMesh :=
  mkBMesh (verts bm)
          (filter (fun g => negb (face_index g =? face_index f)) (faces bm))
          (uv_layers bm) (vertex_colors_active_index bm).

(** [bm.verts.remove(vert)]: the vertex goes, and with it every face that
    uses it. *)
Definition verts_remove (bm : BMesh) (v : BMVert) : BMesh :=
  mkBMesh (filter (fun w => negb (vert_index w =? vert_index v)) (verts bm))
          (filter (fun f => negb (vert_in v (face_verts f))) (faces bm))
          (uv_layers bm) (vertex_colors_active_index bm).

(** Structural invariant of a BMesh: faces and vertices have distinct
    indices, every face has a corner, every corner's vertex is a vertex of
    the mesh. *)
Fixpoint distinct (ns : list nat) : bool :=
  match ns with
  | [] => true
  | n :: ns' => negb (existsb (Nat.eqb n) ns') && distinct ns'
  end.

Definition face_ok (bm : BMesh) (f : BMFace) : bool :=
  match loops f with
  | [] => false
  | _ => forallb (fun v => vert_in v (verts bm)) (face_verts f)
  end.

Definition wf_bmesh (bm : BMesh) : bool :=
  distinct (map face_index (faces bm))
  && distinct (map vert_index (verts bm))
  && forallb (face_ok bm) (faces bm).

(** ** Geometry splitter: [separate_mesh_by_material] *)

Section Splitter.

(** [bmesh.ops.triangulate], Blender's own operator. *)
Variable triangulate : BMesh -> BMesh.

(** The type of the instance list handed through untouched. *)
Variable Inst : Type.

Definition SubMesh : Type := (string * BMesh * Inst)%type.

Definition sub_name (s : SubMesh) : string := fst (fst s).
Definition sub_bmesh (s : SubMesh) : BMesh := snd (fst s).
Definition sub_instances (s : SubMesh) : Inst := snd s.

(** The list of isolated vertices, built as the source builds it: every
    vertex is appended, then removed again at the first face using it. *)
Definition isolated_verts (new_mesh : BMesh) : list BMVert :=
  fold_left
    (fun vert_remove_list v =>
       fold_left
         (fun l face =>
            if vert_in v (face_verts face) && vert_in v l
            then list_remove_vert v l else l)
         (faces new_mesh) (vert_remove_list ++ [v]))
    (verts new_mesh) [].

(** The body of the loop over [enumerate(mesh.materials)]: the copy of
    [old_mesh] loses the faces of the other materials, then its isolated
    vertices, and is kept when a vertex is left.  ([index_update] renumbers
    the vertices; it does not change which vertex is which.) *)
Definition split_material (mesh : Mesh) (old_mesh : BMesh) (obj : Inst)
           (mat_id : nat) (mat : Material) : list SubMesh :=
  let new_mesh := old_mesh in
  let face_remove_list :=
    filter (fun face => negb (material_index face =? mat_id)) (faces new_mesh) in
  let new_mesh := fold_left faces_remove face_remove_list new_mesh in
  let vert_remove_list := isolated_verts new_mesh in
  let new_mesh := fold_left verts_remove vert_remove_list new_mesh in
  let name :=
    if List.length (materials mesh) =? 1 then mesh_name mesh
    else (mesh_name mesh ++ "." ++ mat_name mat)%string in
  match verts new_mesh with
  | [] => []
  | _ :: _ => [(name, new_mesh, obj)]
  end.

Definition separate_mesh_by_material (mesh : Mesh) (obj : Inst) : list SubMesh :=
  let old_mesh := triangulate (from_mesh mesh) in
  match materials mesh with
  | _ :: _ =>
      flat_map (fun '(mat_id, mat) => split_material mesh old_mesh obj mat_id mat)
               (enumerate (materials mesh))
  | [] => [(mesh_name mesh, old_mesh, obj)]
  end.

End Splitter.

(** ** Attribute flattener: [MeshParser] *)

(** A float accumulator that may still hold [float('inf')]. *)
Inductive efloat : Type :=
| Finite (q : float)
| Inf.

(** [a < b] on floats. *)
Definition float_lt (a b : efloat) : bool :=
  match a, b with
  | Inf, _ => false
  | Finite _, Inf => true
  | Finite p, Finite q => negb (Qle_bool q p)
  end.

(** Python's [min(a, b)] and [max(a, b)]: the first argument wins ties. *)
Definition py_min (a b : efloat) : efloat := if float_lt b a then b else a.
Definition py_max (a b : efloat) : efloat := if float_lt a b then b else a.

Record BoundingBox : Type := mkBoundingBox {
  bb_min : list efloat;
  bb_max : list efloat
}.

(** The two accumulators, [minpos] and [maxpos], each a list of three. *)
Record Extents : Type := mkExtents {
  minpos0 : efloat; minpos1 : efloat; minpos2 : efloat;
  maxpos0 : efloat; maxpos1 : efloat; maxpos2 : efloat
}.

(** The body of the loop over [face.loops] in [calculate_bounding_box].
    The assignments run in order, so [maxpos] reads the [minpos] that was
    just updated. *)
Definition extend_extents (e : Extents) (loop : BMLoop) : Extents :=
  let v := vert loop in
  let m0 := py_min (Finite (vx (co v))) (minpos0 e) in
  let m1 := py_min (Finite (vy (co v))) (minpos1 e) in
  let m2 := py_min (Finite (vz (co v))) (minpos2 e) in
  let M0 := py_max (Finite (vx (co v))) m0 in
  let M1 := py_max (Finite (vy (co v))) m1 in
  let M2 := py_max (Finite (vz (co v))) m2 in
  mkExtents m0 m1 m2 M0 M1 M2.

Definition calculate_bounding_box (mesh : BMesh) : BoundingBox :=
  let start := mkExtents Inf Inf Inf Inf Inf Inf in
  match faces mesh with
  | _ :: _ =>
      let e := fold_left (fun e face => fold_left extend_extents (loops face) e)
                         (faces mesh) start in
      mkBoundingBox [minpos0 e; minpos1 e; minpos2 e]
                    [maxpos0 e; maxpos1 e; maxpos2 e]
  | [] =>
      mkBoundingBox [Finite 0%Q; Finite 0%Q; Finite 0%Q]
                    [Finite 0%Q; Finite 0%Q; Finite 0%Q]
  end.

(** A slot of a flattened array: still [None], a float, or an integer. *)
Inductive scalar : Type :=
| SNone
| SFloat (f : float)
| SInt (n : Z).

(** The keys of [vert_data]; [TexCoord n] is ['texCoord{}'.format(n)]. *)
Inductive attr_key : Type :=
| Position
| Normal
| ColorAttr
| TexCoord (n : nat).

Definition attr_key_eqb (a b : attr_key) : bool :=
  match a, b with
  | Position, Position => true
  | Normal, Normal => true
  | ColorAttr, ColorAttr => true
  | TexCoord n, TexCoord m => n =? m
  | _, _ => false
  end.

Record Attribute : Type := mkAttribute {
  attr_type : string;
  components : nat;
  data : list scalar
}.

(** Insertion-ordered dictionaries. *)
Section Dict.

Variables K V : Type.
Variable eqb : K -> K -> bool.

(** [d[k] = v] *)
Fixpoint dict_set (d : list (K * V)) (k : K) (v : V) : list (K * V) :=
  match d with
  | [] => [(k, v)]
  | (k', v') :: d' => if eqb k' k then (k, v) :: d' else (k', v') :: dict_set d' k v
  end.

(** [d.get(k)] *)
Fixpoint dict_get (d : list (K * V)) (k : K) : option V :=
  match d with
  | [] => None
  | (k', v') :: d' => if eqb k' k then Some v' else dict_get d' k
  end.

Definition dict_keys (d : list (K * V)) : list K := map fst d.
Definition dict_values (d : list (K * V)) : list V := map snd d.

End Dict.

(** [mesh.loops] of the temporary mesh made by [to_mesh]: the corners of all
    faces in face order, each with its [index] in that array.  The loop's
    own data ([mesh.vertices[loop.vertex_index]], [loop.normal],
    [uv_layers[name].data[loop.index]], the colour data) is the corner's. *)
Definition mesh_loops (bm : BMesh) : list (nat * BMLoop) :=
  enumerate (flat_map loops (faces bm)).

(** [int(x)]: truncation towards zero. *)
Definition int_of_float (x : float) : Z := Z.quot (Qnum x) (Zpos (Qden x)).

Record FlatArrays : Type := mkFlatArrays {
  fa_indices : list nat;
  vertposlist : list scalar;
  vertnormallist : list scalar;
  uvdata : list (string * list scalar);
  vertcollist : option (list scalar)
}.

(** The inner loop over [uv_layers.keys()]. *)
Definition write_uvs (index : nat) (loop : BMLoop) (keys : list string)
           (uvdata : list (string * list scalar))
  : result (list (string * list scalar)) :=
  for_each
    (fun uvdata uv_lay =>
       let uv_coords := loop_uv loop uv_lay in
       match dict_get String.eqb uvdata uv_lay with
       | None => Raise KeyError
       | Some arr =>
           arr <- list_set arr (2 * index) (SFloat (fst uv_coords)) ;;
           arr <- list_set arr (2 * index + 1) (SFloat (snd uv_coords)) ;;
           Ok (dict_set String.eqb uvdata uv_lay arr)
       end)
    keys uvdata.

(** The body of the second loop over [mesh.loops]. *)
Definition flatten_loop (keys : list string) (st : FlatArrays)
           (il : nat * BMLoop) : result FlatArrays :=
  let '(index, loop) := il in
  let v := vert loop in
  let indices := fa_indices st ++ [index] in
  uvd <- write_uvs index loop keys (uvdata st) ;;
  let pos := co v in
  p <- list_set (vertposlist st) (3 * index) (SFloat (vx pos)) ;;
  p <- list_set p (3 * index + 1) (SFloat (vy pos)) ;;
  p <- list_set p (3 * index + 2) (SFloat (vz pos)) ;;
  let nrm := normal loop in
  n <- list_set (vertnormallist st) (3 * index) (SFloat (vx nrm)) ;;
  n <- list_set n (3 * index + 1) (SFloat (vy nrm)) ;;
  n <- list_set n (3 * index + 2) (SFloat (vz nrm)) ;;
  c <- match vertcollist st with
       | None => Ok None
       | Some c =>
           let col := loop_color loop in
           c <- list_set c (4 * index) (SInt (int_of_float (col_r col * 255)%Q)) ;;
           c <- list_set c (4 * index + 1) (SInt (int_of_float (col_g col * 255)%Q)) ;;
           c <- list_set c (4 * index + 2) (SInt (int_of_float (col_b col * 255)%Q)) ;;
           c <- list_set c (4 * index + 3) (SInt 255%Z) ;;
           Ok (Some c)
       end ;;
  Ok (mkFlatArrays indices p n uvd c).

Definition vert_data_t : Type := list (attr_key * Attribute).

Record MeshParser : Type := mkMeshParser {
  mp_vertices : nat;
  indices : list nat;
  aabb : BoundingBox;
  mp_type : string;
  base : nat;
  count : nat;
  vert_data : vert_data_t
}.

(** [update_mesh_data]: the flattened arrays, then the [vert_data] dict. *)
Definition flatten_arrays (mesh : BMesh) : result FlatArrays :=
  let mloops := mesh_loops mesh in
  let numloops := List.length mloops in
  let numverts := numloops in
  let keys := uv_layers mesh in
  let uvdata0 :=
    fold_left (fun d i => dict_set String.eqb d i (repeat SNone (numverts * 2)))
              keys [] in
  let col_layer := vertex_colors_active_index mesh in
  let vertcollist0 :=
    if Z.eqb col_layer (-1) then None else Some (repeat SNone (numverts * 4)) in
  for_each (flatten_loop keys) mloops
           (mkFlatArrays [] (repeat SNone (numverts * 3))
                         (repeat SNone (numverts * 3)) uvdata0 vertcollist0).

(** The last loop of [update_mesh_data], [for uv_name in uvdata], which
    files the UV arrays under their [texCoord] keys. *)
Definition file_uvs (uv_list : list string) (entries : list (string * list scalar))
           (vd : vert_data_t) : result vert_data_t :=
  for_each
    (fun vd (entry : string * list scalar) =>
       let '(uv_name, arr) := entry in
       uv_index <- list_index uv_list uv_name ;;
       Ok (dict_set attr_key_eqb vd (TexCoord uv_index)
                    (mkAttribute "float32" 2 arr)))
    entries vd.

Definition update_mesh_data (mesh : BMesh) (uv_list : list string)
  : result (list nat * vert_data_t * nat) :=
  fa <- flatten_arrays mesh ;;
  let vd :=
    [(Position, mkAttribute "float32" 3 (vertposlist fa));
     (Normal, mkAttribute "float32" 3 (vertnormallist fa))] in
  let vd :=
    match vertcollist fa with
    | Some c => dict_set attr_key_eqb vd ColorAttr (mkAttribute "uint8" 4 c)
    | None => vd
    end in
  vd <- file_uvs uv_list (uvdata fa) vd ;;
  Ok (fa_indices fa, vd, List.length (fa_indices fa)).

Definition MeshParser_init (mesh : BMesh) (id_num : nat) (uv_list : list string)
  : result MeshParser :=
  let box := calculate_bounding_box mesh in
  r <- update_mesh_data mesh uv_list ;;
  let '(idx, vd, cnt) := r in
  Ok (mkMeshParser id_num idx box "triangles" 0 cnt vd).

(** ** Scene objects and hierarchies *)

(** [obj.matrix_local] through the three decompositions the exporter takes:
    [translation], [Vector(to_euler()) * 180 / math.pi] and [to_scale()]. *)
Record Matrix : Type := mkMatrix {
  translation : Vector;
  to_euler_degrees : Vector;
  to_scale : Vector
}.

(** [obj.data]: [None] for an empty, a mesh when [obj.type == 'MESH'], and
    some other datablock (curve, lamp, camera, ...) that may or may not have
    a [materials] attribute. *)
Inductive ObData : Type :=
| DataNone
| DataMesh (m : Mesh)
| DataOther (other_name : string) (other_materials : option (list Material)).

#[warnings="-register-all"]
Inductive Object : Type := mkObject {
  obj_name : string;
  obj_data : ObData;
  parent : option Object;
  matrix_local : Matrix;
  scale : Vector
}.

Record ObjectHeirachy : Type := mkObjectHeirachy {
  heirachy_name : string;
  objects : list Object
}.

Record PathData : Type := mkPathData {
  path_mesh : string;
  path_mat : string;
  path_img : string;
  path_name : string
}.

(** What the exporter takes from Blender and the operating system. *)
Record Blender : Type := mkBlender {
  (** [bmesh.ops.triangulate] *)
  triangulate : BMesh -> BMesh;
  (** [bpy.data.meshes[name]] as it is when the export starts *)
  bpy_data_meshes : string -> Mesh;
  (** the name Blender gives to [bpy.data.meshes.new("EmptyMesh")] *)
  new_mesh_name : string;
  (** [os.path.relpath(path, start)] *)
  os_path_relpath : string -> string -> string
}.

(** [os.path.join(a, b)] on POSIX paths. *)
Definition starts_with_slash (s : string) : bool :=
  match s with
  | String c _ => Ascii.eqb c "/"%char
  | EmptyString => false
  end.

Fixpoint ends_with_slash (s : string) : bool :=
  match s with
  | EmptyString => false
  | String c EmptyString => Ascii.eqb c "/"%char
  | String _ s' => ends_with_slash s'
  end.

Definition os_path_join (a b : string) : string :=
  if starts_with_slash b then b
  else if String.eqb a "" || ends_with_slash a then (a ++ b)%string
  else (a ++ "/" ++ b)%string.

(** [s.split(sep)[-1]]: what follows the last separator. *)
Fixpoint last_segment_from (sep : ascii) (s acc : string) : string :=
  match s with
  | EmptyString => acc
  | String c s' =>
      if Ascii.eqb c sep then last_segment_from sep s' s'
      else last_segment_from sep s' acc
  end.

Definition last_segment (sep : ascii) (s : string) : string :=
  last_segment_from sep s s.

(** JSON values of the material descriptor. *)
Inductive json : Type :=
| JString (s : string)
| JFloat (f : float)
| JInt (n : Z)
| JBool (b : bool)
| JFloats (fs : list float).

Record NodeRecord : Type := mkNodeRecord {
  node_name : string;
  position : list float;
  rotation : list float;
  node_scale : list float
}.

Record InstanceRecord : Type := mkInstanceRecord {
  inst_node : nat;
  inst_mesh : nat
}.

Record Model : Type := mkModel {
  version : nat;
  nodes : list NodeRecord;
  parents : list Z;
  skins : list unit;
  vertices : list vert_data_t;
  meshes : list MeshParser;
  meshInstances : list InstanceRecord
}.

Inductive FileContent : Type :=
| MainDocument (m : Model)
| MappingDocument (paths : list string)
| MaterialDocument (d : list (string * json)).

(** The file system as the list of what was done to it, oldest first. *)
Inductive fs_event : Type :=
| FileWrite (path : string) (content : FileContent)
| FileCopy (src dst : string).

Definition vec_list (v : Vector) : list float := [vx v; vy v; vz v].
Definition color_list (c : Color) : list float := [col_r c; col_g c; col_b c].
Definition color_scale (c : Color) (k : float) : Color :=
  mkColor (col_r c * k)%Q (col_g c * k)%Q (col_b c * k)%Q.

(** ** Material serializer: [MaterialExporter] *)

Definition jdict : Type := list (string * json).

Definition jset (d : jdict) (k : string) (v : json) : jdict :=
  dict_set String.eqb d k v.

(** [_parse_basic_properties] *)
Definition parse_basic_properties (mat : Material) (self : jdict) : jdict :=
  let spec_color := color_scale (specular_color mat) (specular_intensity mat) in
  let emit_color := color_scale (diffuse_color mat) (emit mat) in
  let self := jset self "diffuse" (JFloats (color_list (diffuse_color mat))) in
  let self := jset self "specular" (JFloats (color_list spec_color)) in
  let self := jset self "emissive" (JFloats (color_list emit_color)) in
  let self := if String.eqb (alpha_blend mat) "ADD"
              then jset self "blendType" (JInt 1) else self in
  let self := if use_vertex_color_paint mat
              then jset self "diffuseMapVertexColor" (JBool true) else self in
  let self := if use_vertex_color_light mat
              then jset self "emissiveMapVertexColor" (JBool true) else self in
  let self := if Qeq_bool (alpha mat) 1
              then self else jset self "opacity" (JFloat (alpha mat)) in
  if use_backface_culling mat then self else jset self "cull" (JInt 0).

(** [copy_image]: the new path and the copy it makes. *)
Definition copy_image (tex : TextureSlot) (img_path : string)
  : string * fs_event :=
  let old_path := image_filepath tex in
  let image_name := (tex_name tex ++ "." ++ last_segment "."%char old_path)%string in
  let image_path := os_path_join img_path image_name in
  (image_path, FileCopy old_path image_path).

(** The body of the loop over [enumerate(material.texture_slots)]. *)
Definition parse_image (mat : Material) (uv_list : list string)
           (path_data : PathData) (path_to_image_dir : string)
           (st : jdict * list fs_event) (slot : nat * option TextureSlot)
  : result (jdict * list fs_event) :=
  let '(self, fs) := st in
  let '(tex_id, otex) := slot in
  match otex with
  | None => Ok st
  | Some tex =>
      if negb (String.eqb (texture_type tex) "IMAGE") then Ok st
      else
        used <- list_get (use_textures mat) tex_id ;;
        if negb used then Ok st
        else
          let '(image_path, copied) := copy_image tex (path_img path_data) in
          let image_path := last_segment "/"%char image_path in
          let image_path := os_path_join path_to_image_dir image_path in
          uv_layer <- (if String.eqb (uv_layer tex) "" then Ok 0
                       else list_index uv_list (uv_layer tex)) ;;
          let uv := JInt (Z.of_nat uv_layer) in
          let self :=
            if use_map_color_diffuse tex
            then jset (jset self "diffuseMap" (JString image_path)) "diffuseMapUv" uv
            else self in
          let self :=
            if use_map_emission tex
            then jset (jset self "emissiveMap" (JString image_path)) "emissiveMapUv" uv
            else self in
          let self :=
            if use_map_color_spec tex
            then jset (jset self "specularMap" (JString image_path)) "specularMapUv" uv
            else self in
          let self :=
            if use_map_alpha tex
            then
              let self := if use_rgb_to_intensity tex
                          then jset self "opacityMapChannel" (JString "rgb")
                          else self in
              jset (jset self "opacityMap" (JString image_path)) "opacityMapUv" uv
            else self in
          let self :=
            if use_map_normal tex
            then jset (jset (jset self "normalMap" (JString image_path))
                            "bumpMapFactor" (JFloat (normal_factor tex)))
                      "normalMapUv" uv
            else self in
          Ok (self, fs ++ [copied])
  end.

(** [MaterialExporter(material, uv_list, path_data)]: the descriptor is
    built, the textures are copied and the descriptor is written. *)
Definition MaterialExporter (env : Blender) (material : Material)
           (uv_list : list string) (path_data : PathData) (fs : list fs_event)
  : result (list fs_event) :=
  let self := jset [] "mapping_format" (JString "path") in
  let self := jset self "name" (JString (mat_name material)) in
  let self := parse_basic_properties material self in
  let path_to_image_dir :=
    os_path_relpath env (path_img path_data) (path_mat path_data) in
  st <- for_each (parse_image material uv_list path_data path_to_image_dir)
                 (enumerate (texture_slots material)) (self, fs) ;;
  let '(self, fs) := st in
  let mat_file_name := (mat_name material ++ ".json")%string in
  let file_path := os_path_join (path_mat path_data) mat_file_name in
  Ok (fs ++ [FileWrite file_path (MaterialDocument self)]).

(** ** Hierarchy exporter: [HeirachyExporter] *)

Definition InstSubMesh : Type := SubMesh (list Object).

(** [generate_uv_list] *)
Definition generate_uv_list (heirachy : ObjectHeirachy) : list string :=
  flat_map (fun obj =>
              match obj_data obj with
              | DataMesh m => uv_layers (mesh_geometry m)
              | _ => []
              end)
           (objects heirachy).

Definition origin : Vector := mkVector 0 0 0.

(** The placeholder built at the head of [generate_mesh_list]: three
    vertices at the origin and one face over them. *)
Definition EMPTY_MESH (env : Blender) : Mesh :=
  let v1 := mkBMVert 0 origin in
  let v2 := mkBMVert 1 origin in
  let v3 := mkBMVert 2 origin in
  let corner v := mkBMLoop v origin (fun _ => (0%Q, 0%Q)) (mkColor 0 0 0) in
  mkMesh (new_mesh_name env) []
         (mkBMesh [v1; v2; v3] [mkBMFace 0 0 [corner v1; corner v2; corner v3]]
                  [] (-1)).

(** [bpy.data.meshes[name]] once the placeholder has been added. *)
Definition lookup_mesh (env : Blender) (name : string) : Mesh :=
  if String.eqb name (new_mesh_name env) then EMPTY_MESH env
  else bpy_data_meshes env name.

(** The body of the loop that fills [raw_meshes]. *)
Definition group_object (env : Blender) (raw_meshes : list (string * list Object))
           (obj : Object) : list (string * list Object) :=
  let data := match obj_data obj with
              | DataMesh m => m
              | _ => EMPTY_MESH env
              end in
  match dict_get String.eqb raw_meshes (mesh_name data) with
  | None => dict_set String.eqb raw_meshes (mesh_name data) [obj]
  | Some l => dict_set String.eqb raw_meshes (mesh_name data) (l ++ [obj])
  end.

Definition generate_mesh_list (env : Blender) (heirachy : ObjectHeirachy)
  : list InstSubMesh :=
  let raw_meshes := fold_left (group_object env) (objects heirachy) [] in
  flat_map (fun '(mesh_name, instances) =>
              separate_mesh_by_material (triangulate env)
                                        (lookup_mesh env mesh_name) instances)
           raw_meshes.

(** The pairs (mesh, instance) in the order of every nested loop
    [for mesh in self.mesh_list: for instance in mesh[2]]. *)
Definition mesh_instances (mesh_list : list InstSubMesh)
  : list (InstSubMesh * Object) :=
  flat_map (fun mesh => map (fun instance => (mesh, instance)) (sub_instances mesh))
           mesh_list.

(** The body of the first loop of [generate_node_data].  The local [scale]
    is computed in both branches; the record takes [instance.scale]. *)
Definition node_dict (instance : Object) : NodeRecord :=
  let '(position, corrected_rotation, scale_) :=
    match parent instance with
    | Some _ =>
        let transform := matrix_local instance in
        (vec_list (translation transform),
         vec_list (to_euler_degrees transform),
         vec_list (to_scale transform))
    | None => ([0; 0; 0]%Q, [0; 0; 0]%Q, [1; 1; 1]%Q)
    end in
  mkNodeRecord (obj_name instance) position corrected_rotation
               (vec_list (scale instance)).

(** The body of the second loop of [generate_node_data]. *)
Definition parent_id (node_name_list : list string) (instance : Object)
  : result nat :=
  match parent instance with
  | Some p =>
      if str_in (obj_name p) node_name_list
      then i <- list_index node_name_list (obj_name p) ;; Ok (i + 1)
      else Ok 0
  | None => Ok 0
  end.

Definition generate_node_data (mesh_list : list InstSubMesh)
  : result (list NodeRecord * list nat) :=
  let node_data := map (fun mi => node_dict (snd mi)) (mesh_instances mesh_list) in
  let node_name_list := map node_name node_data in
  parent_list <- map_result (fun mi => parent_id node_name_list (snd mi))
                            (mesh_instances mesh_list) ;;
  Ok (node_data, parent_list).

(** The body of the inner loop of [generate_instance_data]; the state is
    [(instance_data, node_id)]. *)
Definition add_instance (mesh_id : nat) (st : list InstanceRecord * nat)
           (_instance : Object) : list InstanceRecord * nat :=
  let '(instance_data, node_id) := st in
  let ob_num := node_id in
  (instance_data ++ [mkInstanceRecord ob_num mesh_id], node_id + 1).

(** [generate_instance_data]; [node_id] starts at 1, the root has no mesh. *)
Definition generate_instance_data (mesh_list : list InstSubMesh)
  : list InstanceRecord :=
  fst (fold_left
         (fun st (im : nat * InstSubMesh) =>
            fold_left (add_instance (fst im)) (sub_instances (snd im)) st)
         (enumerate mesh_list) ([], 1)).

(** [export_dummy_material] *)
Definition export_dummy_material (name : string) (path_data : PathData)
           (fs : list fs_event) : list fs_event :=
  let new_mat_path := os_path_join (path_mat path_data) (name ++ ".json")%string in
  fs ++ [FileWrite new_mat_path (MaterialDocument [("mapping_format"%string, JString "path")])].

(** [hasattr(data, 'materials') and data.materials], as the list that is
    then indexed (empty when the test fails). *)
Definition data_materials (data : ObData) : list Material :=
  match data with
  | DataNone => []
  | DataMesh m => materials m
  | DataOther _ (Some ms) => ms
  | DataOther _ None => []
  end.

Record MappingState : Type := mkMappingState {
  (** the local [mat_id], unbound until a face has been seen *)
  ms_mat_id : option nat;
  ms_materials : list (string * Material);
  ms_mapping : list string;
  ms_fs : list fs_event
}.

(** The body of the loop over [mapping_list] in [export_mappings]. *)
Definition map_mesh (path_data : PathData) (mesh_to_material_path : string)
           (st : MappingState) (mesh_map : InstSubMesh) : result MappingState :=
  let mat_id := match faces (sub_bmesh mesh_map) with
                | face :: _ => Some (material_index face)
                | [] => ms_mat_id st
                end in
  data <- match sub_instances mesh_map with
          | first :: _ => Ok (obj_data first)
          | [] => Raise IndexError
          end ;;
  match data_materials data with
  | _ :: _ =>
      i <- match mat_id with
           | Some i => Ok i
           | None => Raise UnboundLocalError
           end ;;
      mat <- list_get (data_materials data) i ;;
      let new_mat_path :=
        os_path_join mesh_to_material_path (mat_name mat ++ ".json")%string in
      Ok (mkMappingState mat_id
                         (dict_set String.eqb (ms_materials st) (mat_name mat) mat)
                         (ms_mapping st ++ [new_mat_path]) (ms_fs st))
  | [] =>
      let mat_name := "None"%string in
      let new_mat_path :=
        os_path_join mesh_to_material_path (mat_name ++ ".json")%string in
      Ok (mkMappingState mat_id (ms_materials st)
                         (ms_mapping st ++ [new_mat_path])
                         (export_dummy_material mat_name path_data (ms_fs st)))
  end.

(** [export_mappings]: the materials in use, the mapping and the files. *)
Definition export_mappings (env : Blender) (heirachy : ObjectHeirachy)
           (mesh_list : list InstSubMesh) (path_data : PathData)
           (fs : list fs_event)
  : result (list Material * list string * list fs_event) :=
  let mapping_list := map fst (mesh_instances mesh_list) in
  let mesh_to_material_path :=
    os_path_relpath env (path_mat path_data) (path_mesh path_data) in
  st <- for_each (map_mesh path_data mesh_to_material_path) mapping_list
                 (mkMappingState None [] [] fs) ;;
  let file_name :=
    os_path_join (path_mesh path_data) (heirachy_name heirachy ++ ".mapping.json")%string in
  Ok (dict_values (ms_materials st), ms_mapping st,
      ms_fs st ++ [FileWrite file_name (MappingDocument (ms_mapping st))]).

Definition root_node : NodeRecord :=
  mkNodeRecord "RootNode" [0; 0; 0]%Q [0; 0; 0]%Q [1; 1; 1]%Q.

(** [HeirachyExporter(heirachy, path_data)]: the main document and the file
    system afterwards. *)
Definition HeirachyExporter (env : Blender) (heirachy : ObjectHeirachy)
           (path_data : PathData) (fs : list fs_event)
  : result (Model * list fs_event) :=
  let uv_list := generate_uv_list heirachy in
  let mesh_list := generate_mesh_list env heirachy in
  mesh_data_list <-
    map_result (fun im : nat * InstSubMesh =>
                  MeshParser_init (sub_bmesh (snd im)) (fst im) uv_list)
               (enumerate mesh_list) ;;
  nd <- generate_node_data mesh_list ;;
  let '(node_data, parent_list) := nd in
  em <- export_mappings env heirachy mesh_list path_data fs ;;
  let '(material_list, _, fs) := em in
  fs <- for_each (fun fs mat => MaterialExporter env mat uv_list path_data fs)
                 material_list fs ;;
  let output :=
    mkModel 2 (root_node :: node_data)
            ((-1)%Z :: map Z.of_nat parent_list)
            []
            (map vert_data mesh_data_list)
            mesh_data_list
            (generate_instance_data mesh_list) in
  let new_mesh_path :=
    os_path_join (path_mesh path_data) (heirachy_name heirachy ++ ".json")%string in
  Ok (output, fs ++ [FileWrite new_mesh_path (MainDocument output)]).

(** ** Scene exporter: [children_recursive], [ObjectHeirachy], [SceneExporter] *)

(** An object of the scene together with [obj.children].  The hierarchy
    exporter reads the fields of [Object]; only the traversal reads the
    children. *)
#[warnings="-register-all"]
Inductive SceneObject : Type :=
| mkSceneObject (ob : Object) (cs : list SceneObject).

Definition so_object (o : SceneObject) : Object :=
  match o with
  | mkSceneObject ob _ => ob
  end.

Definition children (o : SceneObject) : list SceneObject :=
  match o with
  | mkSceneObject _ cs => cs
  end.

(** [children_recursive] *)
Fixpoint children_recursive (root_node : SceneObject) : list SceneObject :=
  match root_node with
  | mkSceneObject _ cs =>
      fold_left (fun child_list child =>
                   (child_list ++ children_recursive child) ++ [child])
                cs []
  end.

(** [ObjectHeirachy(name, root_obj)] *)
Definition ObjectHeirachy_init (name : string) (root_obj : option SceneObject)
  : ObjectHeirachy :=
  match root_obj with
  | Some root =>
      mkObjectHeirachy name (map so_object (children_recursive root ++ [root]))
  | None => mkObjectHeirachy name []
  end.

(** [self.obj_list] of [SceneExporter]: one hierarchy with the objects as
    they are listed, or one hierarchy per object without parent. *)
Definition SceneExporter_obj_list (obj_list : list SceneObject)
           (path_data : PathData) (separate_objects : bool)
  : list ObjectHeirachy :=
  if negb separate_objects then
    let obj := ObjectHeirachy_init (path_name path_data) None in
    [mkObjectHeirachy (heirachy_name obj) (map so_object obj_list)]
  else
    flat_map (fun obj =>
                match parent (so_object obj) with
                | None => [ObjectHeirachy_init (obj_name (so_object obj)) (Some obj)]
                | Some _ => []
                end)
             obj_list.

(** [SceneExporter(context, path_data, separate_objects)].  [context] is
    [None] or holds [context.selected_objects]; [envs counter] is Blender as
    the hierarchy numbered [counter] finds it (every hierarchy export adds
    its own placeholder mesh to [bpy.data.meshes]). *)
Definition SceneExporter (envs : nat -> Blender)
           (context : option (list SceneObject))
           (bpy_data_objects : list SceneObject) (path_data : PathData)
           (separate_objects : bool) (fs : list fs_event)
  : result (list fs_event) :=
  let obj_list := match context with
                  | Some selected_objects => selected_objects
                  | None => bpy_data_objects
                  end in
  for_each (fun fs (ch : nat * ObjectHeirachy) =>
              r <- HeirachyExporter (envs (fst ch)) (snd ch) path_data fs ;;
              Ok (snd r))
           (enumerate (SceneExporter_obj_list obj_list path_data separate_objects))
           fs.

(** ** Export operator: the paths of [ExportPlaycanvas.execute] *)

(** [s.rstrip('/')] *)
Fixpoint rstrip_slash (s : string) : string :=
  match s with
  | EmptyString => EmptyString
  | String c s' =>
      let r := rstrip_slash s' in
      if String.eqb r "" && Ascii.eqb c "/"%char then EmptyString
      else String c r
  end.

(** [s == '/' * len(s)] *)
Fixpoint all_slashes (s : string) : bool :=
  match s with
  | EmptyString => true
  | String c s' => Ascii.eqb c "/"%char && all_slashes s'
  end.

(** [os.path.split(p)] on POSIX paths. *)
Definition os_path_split (p : string) : string * string :=
  let tail := last_segment "/"%char p in
  let head := substring 0 (String.length p - String.length tail) p in
  (if negb (String.eqb head "") && negb (all_slashes head)
   then rstrip_slash head else head,
   tail).

(** [s.split(sep)[0]]: what precedes the first separator. *)
Fixpoint first_segment (sep : ascii) (s : string) : string :=
  match s with
  | EmptyString => EmptyString
  | String c s' =>
      if Ascii.eqb c sep then EmptyString else String c (first_segment sep s')
  end.

(** The properties of the operator that [execute] reads. *)
Record ExportPlaycanvas : Type := mkExportPlaycanvas {
  filepath : string;
  mesh_path : string;
  mat_path : string;
  image_path : string
}.

(** The [path_data] that [execute] hands to [do_export]. *)
Definition execute_path_data (self : ExportPlaycanvas) : PathData :=
  let base := fst (os_path_split (filepath self)) in
  let filename := first_segment "."%char (snd (os_path_split (filepath self))) in
  mkPathData (os_path_join base (mesh_path self))
             (os_path_join base (mat_path self))
             (os_path_join base (image_path self))
             filename.

(** ** Specification vocabulary *)

(** *** Geometry splitter *)

(** In no face: the test that decides whether a vertex is pruned. *)
Definition in_no_face (bm : BMesh) (v : BMVert) : bool :=
  negb (existsb (fun f => vert_in v (face_verts f)) (faces bm)).

(** The mesh that [split_material] builds for [mat_id], before the test on
    its vertices. *)
Definition pruned (old_mesh : BMesh) (mat_id : nat) : BMesh :=
  let face_remove_list :=
    filter (fun face => negb (material_index face =? mat_id)) (faces old_mesh) in
  let new_mesh := fold_left faces_remove face_remove_list old_mesh in
  fold_left verts_remove (isolated_verts new_mesh) new_mesh.

(** The face lists of a list of sub-meshes. *)
Definition sub_faces {Inst : Type} (subs : list (SubMesh Inst)) : list (list BMFace) :=
  map (fun s => faces (sub_bmesh s)) subs.

(** The triangulation of a mesh that has a face has a face. *)
Definition keeps_faces (tri : BMesh -> BMesh) : Prop :=
  forall bm, faces bm <> [] -> faces (tri bm) <> [].

(** Kept when it has an element. *)
Definition nonempty {A : Type} (l : list A) : bool :=
  match l with
  | [] => false
  | _ :: _ => true
  end.

(** The faces of [fs] that carry the material index [k]. *)
Definition material_bucket (fs : list BMFace) (k : nat) : list BMFace :=
  filter (fun f => material_index f =? k) fs.

(** *** Attribute flattener *)

(** The number of scalars per corner that each attribute must hold. *)
Definition scalars_per_corner (k : attr_key) : nat :=
  match k with
  | Position => 3
  | Normal => 3
  | ColorAttr => 4
  | TexCoord _ => 2
  end.

(** A float, an integer: what a slot of an attribute array must hold. *)
Definition is_float (x : scalar) : Prop :=
  match x with
  | SFloat _ => True
  | _ => False
  end.

Definition is_int (x : scalar) : Prop :=
  match x with
  | SInt _ => True
  | _ => False
  end.

Definition scalar_of (k : attr_key) : scalar -> Prop :=
  match k with
  | ColorAttr => is_int
  | _ => is_float
  end.

(** The state of the flattening loop is sized for [n] corners. *)
Definition sized (keys : list string) (n : nat) (st : FlatArrays) : Prop :=
  List.length (vertposlist st) = n * 3
  /\ List.length (vertnormallist st) = n * 3
  /\ (forall u arr, In (u, arr) (uvdata st) -> In u keys /\ List.length arr = n * 2)
  /\ (forall u, In u keys -> dict_get String.eqb (uvdata st) u <> None)
  /\ (forall c, vertcollist st = Some c -> List.length c = n * 4).

(** The first [k] slots of [arr] have been written with a [P]. *)
Definition filled (P : scalar -> Prop) (k : nat) (arr : list scalar) : Prop :=
  forall j, j < k -> exists x, nth_error arr j = Some x /\ P x.

(** The state of the flattening loop after [s] corners. *)
Definition written (keys : list string) (s : nat) (st : FlatArrays) : Prop :=
  filled is_float (s * 3) (vertposlist st)
  /\ filled is_float (s * 3) (vertnormallist st)
  /\ NoDup (dict_keys (uvdata st))
  /\ (forall u, In u (dict_keys (uvdata st)) -> In u keys)
  /\ (forall u arr, In (u, arr) (uvdata st) -> filled is_float (s * 2) arr)
  /\ (forall c, vertcollist st = Some c -> filled is_int (s * 4) c).

(** Every attribute of [vd] holds [n] groups of the right size and kind. *)
Definition well_sized (n : nat) (vd : vert_data_t) : Prop :=
  forall k a, In (k, a) vd ->
              components a = scalars_per_corner k
              /\ List.length (data a) = n * components a
              /\ Forall (scalar_of k) (data a).

(** [a <= b] on floats, as the negation of [b < a]. *)
Definition float_le (a b : efloat) : Prop := float_lt b a = false.

(** The running minimum of one coordinate, as the loop computes it. *)
Definition running_min (c : BMLoop -> float) (ls : list BMLoop) (m : efloat) : efloat :=
  fold_left (fun m l => py_min (Finite (c l)) m) ls m.

(** The scalars that one corner contributes to each array. *)
Definition corner_position (l : BMLoop) : list scalar :=
  [SFloat (vx (co (vert l))); SFloat (vy (co (vert l))); SFloat (vz (co (vert l)))].

Definition corner_normal (l : BMLoop) : list scalar :=
  [SFloat (vx (normal l)); SFloat (vy (normal l)); SFloat (vz (normal l))].

Definition corner_color (l : BMLoop) : list scalar :=
  [SInt (int_of_float (col_r (loop_color l) * 255)%Q);
   SInt (int_of_float (col_g (loop_color l) * 255)%Q);
   SInt (int_of_float (col_b (loop_color l) * 255)%Q);
   SInt 255%Z].

Definition corner_uv (uv_lay : string) (l : BMLoop) : list scalar :=
  [SFloat (fst (loop_uv l uv_lay)); SFloat (snd (loop_uv l uv_lay))].

(** For each of the first [s] corners of [L], the group of [comp] slots of
    the corner in [arr] holds what [g] says of the corner. *)
Definition corners (comp : nat) (g : BMLoop -> list scalar) (L : list BMLoop)
           (s : nat) (arr : list scalar) : Prop :=
  forall i l j x,
    i < s -> nth_error L i = Some l -> nth_error (g l) j = Some x ->
    nth_error arr (comp * i + j) = Some x.

(** The state of the flattening loop after the first [s] corners of [L]. *)
Definition flattened (keys : list string) (L : list BMLoop) (s : nat)
           (st : FlatArrays) : Prop :=
  corners 3 corner_position L s (vertposlist st)
  /\ corners 3 corner_normal L s (vertnormallist st)
  /\ NoDup (dict_keys (uvdata st))
  /\ (forall u, In u (dict_keys (uvdata st)) -> In u keys)
  /\ (forall u arr, In (u, arr) (uvdata st) -> corners 2 (corner_uv u) L s arr)
  /\ (forall c, vertcollist st = Some c -> corners 4 corner_color L s c).

(** *** Hierarchy exporter *)

(** The mesh id of every (mesh, instance) pair, in enumeration order. *)
Definition instance_mesh_ids_from (s : nat) (mesh_list : list InstSubMesh) : list nat :=
  flat_map (fun im : nat * InstSubMesh =>
              map (fun _ => fst im) (sub_instances (snd im)))
           (enumerate_from s mesh_list).

(** The datablock under whose name [generate_mesh_list] groups an object. *)
Definition grouping_mesh (env : Blender) (obj : Object) : Mesh :=
  match obj_data obj with
  | DataMesh m => m
  | _ => EMPTY_MESH env
  end.

Definition is_mesh_object (obj : Object) : bool :=
  match obj_data obj with
  | DataMesh _ => true
  | _ => false
  end.

(** The UV layers an object contributes to the registry. *)
Definition object_uv_layers (obj : Object) : list string :=
  match obj_data obj with
  | DataMesh m => uv_layers (mesh_geometry m)
  | _ => []
  end.

(** Every mesh object's data is the datablock that Blender has under its
    name. *)
Definition db_consistent (env : Blender) (heirachy : ObjectHeirachy) : Prop :=
  forall obj m, In obj (objects heirachy) -> obj_data obj = DataMesh m ->
                lookup_mesh env (mesh_name m) = m.

(** The data of the first instance of a sub-mesh has materials:
    [mesh_map[2][0].data] passes the test of [export_mappings]. *)
Definition has_materials (sub : InstSubMesh) : bool :=
  match sub_instances sub with
  | first :: _ =>
      match data_materials (obj_data first) with
      | [] => false
      | _ :: _ => true
      end
  | [] => false
  end.

(** The material used by the first face of a sub-mesh. *)
Definition first_face_material (sub : InstSubMesh) : option Material :=
  match sub_instances sub, faces (sub_bmesh sub) with
  | first :: _, face :: _ =>
      nth_error (data_materials (obj_data first)) (material_index face)
  | _, _ => None
  end.

(** [path] is the path, relative to the mesh directory, of the material
    file of the sub-mesh: the dummy when there are no materials, and else,
    for a sub-mesh that has a face, that of its first face's material. *)
Definition mapping_path_ok (rel : string) (sub : InstSubMesh) (path : string) : Prop :=
  (has_materials sub = false /\ path = os_path_join rel "None.json")
  \/ (has_materials sub = true
      /\ (faces (sub_bmesh sub) <> [] ->
          exists mat, first_face_material sub = Some mat
                      /\ path = os_path_join rel (mat_name mat ++ ".json")%string)).

(** A sub-mesh that [export_mappings] can read: it has an instance, and a
    face when its material is looked up. *)
Definition readable (sub : InstSubMesh) : Prop :=
  sub_instances sub <> []
  /\ (has_materials sub = true -> faces (sub_bmesh sub) <> []).

(** The materials that the sub-meshes use, in order. *)
Definition used_materials (subs : list InstSubMesh) : list Material :=
  flat_map (fun sub =>
              if has_materials sub
              then match first_face_material sub with
                   | Some mat => [mat]
                   | None => []
                   end
              else [])
           subs.

(** The descriptor carries the name [n]. *)
Definition named (n : string) (d : jdict) : Prop :=
  dict_get String.eqb d "name"%string = Some (JString n).

(** The names of the material descriptors written, oldest first.  The dummy
    descriptor has no name. *)
Definition document_name (c : FileContent) : list string :=
  match c with
  | MaterialDocument d =>
      match dict_get String.eqb d "name"%string with
      | Some (JString n) => [n]
      | _ => []
      end
  | _ => []
  end.

Definition written_material_names (fs : list fs_event) : list string :=
  flat_map (fun e => match e with
                     | FileWrite _ c => document_name c
                     | FileCopy _ _ => []
                     end) fs.

(** The document and the file system of a run that returned. *)
Definition run_document (r : result (Model * list fs_event)) : Model :=
  match r with
  | Ok (doc, _) => doc
  | Raise _ => mkModel 0 [] [] [] [] [] []
  end.

Definition run_events (r : result (Model * list fs_event)) : list fs_event :=
  match r with
  | Ok (_, fs) => fs
  | Raise _ => []
  end.

(** The first face of a sub-mesh indexes a material of the data that
    [export_mappings] reads. *)
Definition indexable (sub : InstSubMesh) : Prop :=
  forall first rest f fs,
    sub_instances sub = first :: rest ->
    faces (sub_bmesh sub) = f :: fs ->
    data_materials (obj_data first) <> [] ->
    material_index f < List.length (data_materials (obj_data first)).

(** What is assumed of Blender's triangulation when a whole export is
    followed: it keeps the UV layers, a triangle has the material index of a
    face of the mesh, and a mesh with a face keeps one. *)
Definition triangulation_ok (tri : BMesh -> BMesh) : Prop :=
  (forall bm, uv_layers (tri bm) = uv_layers bm)
  /\ (forall bm f, In f (faces (tri bm)) ->
                   exists g, In g (faces bm) /\ material_index f = material_index g)
  /\ keeps_faces tri.

(** A material that [MaterialExporter] can write: every image texture has
    its [use_textures] flag and, when in use, names no UV layer or one of
    the registry. *)
Definition exportable (uv_list : list string) (mat : Material) : Prop :=
  forall tex_id tex,
    nth_error (texture_slots mat) tex_id = Some (Some tex) ->
    texture_type tex = "IMAGE"%string ->
    exists used,
      nth_error (use_textures mat) tex_id = Some used
      /\ (used = true -> uv_layer tex = ""%string \/ In (uv_layer tex) uv_list).

(** *** Scene exporter and the files written *)

(** The objects of the tree under [o], [o] first. *)
Fixpoint subtree (o : SceneObject) : list SceneObject :=
  match o with
  | mkSceneObject _ cs => o :: flat_map subtree cs
  end.

(** [obj.parent is None] *)
Definition parentless (o : SceneObject) : bool :=
  match parent (so_object o) with
  | None => true
  | Some _ => false
  end.

(** The paths of the main documents written, oldest first. *)
Definition main_document_paths (fs : list fs_event) : list string :=
  flat_map (fun e => match e with
                     | FileWrite p (MainDocument _) => [p]
                     | _ => []
                     end) fs.

(** What [export_dummy_material("None", path_data)] writes. *)
Definition dummy_material_write (path_data : PathData) : fs_event :=
  FileWrite (os_path_join (path_mat path_data) "None.json")
            (MaterialDocument [("mapping_format"%string, JString "path")]).

(** An image copied or a material descriptor written. *)
Definition material_event (e : fs_event) : Prop :=
  match e with
  | FileCopy _ _ => True
  | FileWrite _ (MaterialDocument _) => True
  | FileWrite _ _ => False
  end.

(** The slot holds an image texture that is switched on: the slots that
    [_parse_images] does not skip. *)
Definition enabled_image (mat : Material) (slot : nat * option TextureSlot)
  : list TextureSlot :=
  match snd slot with
  | Some tex =>
      if String.eqb (texture_type tex) "IMAGE"
      then match nth_error (use_textures mat) (fst slot) with
           | Some true => [tex]
           | _ => []
           end
      else []
  | None => []
  end.

Definition enabled_images (mat : Material) : list TextureSlot :=
  flat_map (enabled_image mat) (enumerate (texture_slots mat)).

(** The keys of the descriptor that [_parse_images] assigns. *)
Definition image_keys : list string :=
  ["diffuseMap"; "diffuseMapUv"; "emissiveMap"; "emissiveMapUv";
   "specularMap"; "specularMapUv"; "opacityMapChannel"; "opacityMap";
   "opacityMapUv"; "normalMap"; "bumpMapFactor"; "normalMapUv"]%string.

(** The file system of a material or scene export that returned. *)
Definition run_files (r : result (list fs_event)) : list fs_event :=
  match r with
  | Ok fs => fs
  | Raise _ => []
  end.

(** No character of [s] is [sep]. *)
Fixpoint free_of (sep : ascii) (s : string) : Prop :=
  match s with
  | EmptyString => True
  | String c s' => c <> sep /\ free_of sep s'
  end.

(** The files of one material, as [MaterialExporter] leaves them: the
    copies of its enabled images, then its descriptor, which carries its
    name. *)
Definition material_block (path_data : PathData) (mat : Material)
           (block : list fs_event) : Prop :=
  exists d,
    block = map (fun tex => snd (copy_image tex (path_img path_data)))
                (enabled_images mat)
            ++ [FileWrite (os_path_join (path_mat path_data)
                                        (mat_name mat ++ ".json")%string)
                          (MaterialDocument d)]
    /\ named (mat_name mat) d.

(** The materials that one hierarchy export writes: [names] holds, once
    each, the names of the materials that [export_mappings] selects for the
    sub-meshes of the hierarchy. *)
Definition hierarchy_materials (envs : nat -> Blender) (ch : nat * ObjectHeirachy)
           (names : list string) : Prop :=
  NoDup names
  /\ forall n,
      In n names <->
      exists sub mat,
        In sub (generate_mesh_list (envs (fst ch)) (snd ch))
        /\ has_materials sub = true
        /\ first_face_material sub = Some mat
        /\ mat_name mat = n.

(** ** Sample scenes *)

Definition sample_material (name : string) : Material :=
  mkMaterial name (mkColor 1 1 1) (mkColor 1 1 1) (1 # 2) 0 1 "OPAQUE"
             true false false [] [].

Definition Red : Material := sample_material "Red".
Definition Blue : Material := sample_material "Blue".

Definition corner (v : BMVert) : BMLoop :=
  mkBMLoop v (mkVector 0 0 1) (fun _ => (0, 0)%Q) (mkColor 1 1 1).

Definition triangle (index mat : nat) (a b c : BMVert) : BMFace :=
  mkBMFace index mat [corner a; corner b; corner c].

Definition vert_a : BMVert := mkBMVert 0 (mkVector 1 0 0).
Definition vert_b : BMVert := mkBMVert 1 (mkVector 0 0 0).
Definition vert_c : BMVert := mkBMVert 2 (mkVector 0 0 0).
Definition vert_d : BMVert := mkBMVert 3 (mkVector 0 1 0).

(** A square of two triangles with the given material indices. *)
Definition square (mat0 mat1 : nat) (uvs : list string) : BMesh :=
  mkBMesh [vert_a; vert_b; vert_c; vert_d]
          [triangle 0 mat0 vert_a vert_b vert_c; triangle 1 mat1 vert_a vert_c vert_d]
          uvs (-1).

(** Two materials, both in use. *)
Definition Cube : Mesh := mkMesh "Cube" [Red; Blue] (square 0 1 ["UVMap"%string]).
(** Two materials, only the first in use. *)
Definition Plane : Mesh := mkMesh "Plane" [Red; Blue] (square 0 0 ["UVMap"%string]).
(** No material. *)
Definition Bare : Mesh := mkMesh "Bare" [] (square 0 0 []).

Definition identity_matrix : Matrix :=
  mkMatrix origin origin (mkVector 1 1 1).

Definition sample_env : Blender :=
  mkBlender (fun bm => bm)
            (fun name => if String.eqb name "Cube" then Cube
                         else if String.eqb name "Plane" then Plane
                         else Bare)
            "EmptyMesh"
            (fun _ _ => "../Materials"%string).

Definition sample_paths : PathData :=
  mkPathData "out/Meshes" "out/Materials" "out/Images" "scene".

(** An empty at the top, scaled by two, and a mesh object parented to it;
    the child comes first, as [children_recursive] lists it. *)
Definition Root : Object :=
  mkObject "Root" DataNone None identity_matrix (mkVector 2 2 2).
Definition Child : Object :=
  mkObject "Child" (DataMesh Bare) (Some Root) identity_matrix (mkVector 1 1 1).
Definition child_first : ObjectHeirachy := mkObjectHeirachy "Root" [Child; Root].

(** Two mesh objects whose meshes both have a layer called [UVMap]. *)
Definition CubeObject : Object :=
  mkObject "CubeObject" (DataMesh Cube) None identity_matrix (mkVector 1 1 1).
Definition PlaneObject : Object :=
  mkObject "PlaneObject" (DataMesh Plane) None identity_matrix (mkVector 1 1 1).
Definition two_meshes : ObjectHeirachy :=
  mkObjectHeirachy "scene" [CubeObject; PlaneObject].

(** One object whose mesh lists a material that no face uses. *)
Definition plane_only : ObjectHeirachy := mkObjectHeirachy "scene" [PlaneObject].

(** One triangle whose first corner, at [x = 1], is the farthest. *)
Definition one_triangle : BMesh :=
  mkBMesh [vert_a; vert_b; vert_c] [triangle 0 0 vert_a vert_b vert_c] [] (-1).

(** The three sample exports. *)
Definition child_first_run : result (Model * list fs_event) :=
  HeirachyExporter sample_env child_first sample_paths [].
Definition two_meshes_run : result (Model * list fs_event) :=
  HeirachyExporter sample_env two_meshes sample_paths [].
Definition plane_only_run : result (Model * list fs_event) :=
  HeirachyExporter sample_env plane_only sample_paths [].

(** The empty [Root] and its child as objects of a scene, and a selection
    that holds them both. *)
Definition ChildTree : SceneObject := mkSceneObject Child [].
Definition RootTree : SceneObject := mkSceneObject Root [ChildTree].
Definition sample_selection : list SceneObject := [ChildTree; RootTree].

(** A material with one enabled image texture, which names the UV layer
    [Detail], and one empty slot. *)
Definition wood_texture : TextureSlot :=
  mkTextureSlot "Wood" "IMAGE" "/home/user/textures/wood.png" "Detail"
                true false false false false false 1.
Definition Textured : Material :=
  mkMaterial "Textured" (mkColor 1 1 1) (mkColor 1 1 1) (1 # 2) 0 (1 # 2) "OPAQUE"
             false false false [Some wood_texture; None] [true; true].

(** A mesh that lists a material and has vertices but no face, and an
    environment that knows it. *)
Definition Loose : Mesh :=
  mkMesh "Loose" [Red] (mkBMesh [vert_a; vert_b] [] [] (-1)).
Definition LooseObject : Object :=
  mkObject "LooseObject" (DataMesh Loose) None identity_matrix (mkVector 1 1 1).
Definition loose_env : Blender :=
  mkBlender (fun bm => bm) (fun _ => Loose) "EmptyMesh"
            (fun _ _ => "../Materials"%string).
Definition loose_only : ObjectHeirachy := mkObjectHeirachy "scene" [LooseObject].

(** The child alone, as when only the child is selected. *)
Definition child_only : ObjectHeirachy := mkObjectHeirachy "scene" [Child].
Definition child_only_run : result (Model * list fs_event) :=
  HeirachyExporter sample_env child_only sample_paths [].

(** The operator as the file selector leaves it. *)
Definition sample_operator : ExportPlaycanvas :=
  mkExportPlaycanvas "/home/user/export/scene.v2.json"
                     "./Meshes" "./Materials" "./Images".

(** Two objects that share the mesh [Cube]. *)
Definition CubeTwin : Object :=
  mkObject "CubeTwin" (DataMesh Cube) None identity_matrix (mkVector 1 1 1).
Definition two_cubes : ObjectHeirachy :=
  mkObjectHeirachy "scene" [CubeObject; CubeTwin].

(** A curve that carries the material [Green] and an empty: two objects
    without mesh data, which share the placeholder mesh. *)
Definition Green : Material := sample_material "Green".
Definition CurveObject : Object :=
  mkObject "Curve" (DataOther "Curve" (Some [Green])) None identity_matrix
           (mkVector 1 1 1).
Definition EmptyObject : Object :=
  mkObject "Empty" DataNone None identity_matrix (mkVector 1 1 1).
Definition curve_and_empty : ObjectHeirachy :=
  mkObjectHeirachy "scene" [CurveObject; EmptyObject].
Definition curve_and_empty_run : result (Model * list fs_event) :=
  HeirachyExporter sample_env curve_and_empty sample_paths [].

(** The two mesh objects as objects of a scene, both without parent. *)
Definition CubeTree : SceneObject := mkSceneObject CubeObject [].
Definition PlaneTree : SceneObject := mkSceneObject PlaneObject [].
Definition two_roots : list SceneObject := [CubeTree; PlaneTree].
Definition two_roots_run : result (list fs_event) :=
  SceneExporter (fun _ => sample_env) (Some two_roots) [] sample_paths true [].

(** * Properties *)

(** ** Sequences and the [result] monad *)

Lemma distinct_NoDup (ns : list nat) : distinct ns = true -> NoDup ns.
Proof.
  induction ns as [|n ns IH]; simpl; intros H.
  - constructor.
  - apply andb_true_iff in H as [Hn Hd].
    constructor; [|now apply IH].
    intros Hin. apply negb_true_iff in Hn.
    assert (existsb (Nat.eqb n) ns = true) as E; [|congruence].
    apply existsb_exists. exists n. split; [assumption|apply Nat.eqb_refl].
Qed.

Lemma NoDup_map_eq {A : Type} (f : A -> nat) (l : list A) (a b : A) :
  NoDup (map f l) -> In a l -> In b l -> f a = f b -> a = b.
Proof.
  induction l as [|c l IH]; simpl; intros Hnd Ha Hb Hab; [contradiction|].
  inversion Hnd as [|? ? Hnotin Hnd']; subst.
  destruct Ha as [->|Ha], Hb as [->|Hb]; auto.
  - exfalso. apply Hnotin. rewrite Hab. now apply in_map.
  - exfalso. apply Hnotin. rewrite <- Hab. now apply in_map.
Qed.

Lemma sum_list_app (xs ys : list nat) :
  sum_list (xs ++ ys) = sum_list xs + sum_list ys.
Proof.
  induction xs as [|x xs IH]; simpl; [reflexivity|]. rewrite IH. lia.
Qed.

Lemma length_concat_sum {A : Type} (ls : list (list A)) :
  List.length (List.concat ls) = sum_list (map (@List.length A) ls).
Proof.
  induction ls as [|l ls IH]; simpl; [reflexivity|].
  now rewrite length_app, IH.
Qed.

Lemma enumerate_from_length {A : Type} (xs : list A) (s : nat) :
  List.length (enumerate_from s xs) = List.length xs.
Proof.
  revert s. induction xs as [|x xs IH]; intros s; simpl; [reflexivity|].
  now rewrite IH.
Qed.

Lemma enumerate_from_fst {A : Type} (xs : list A) (s : nat) :
  map fst (enumerate_from s xs) = seq s (List.length xs).
Proof.
  revert s. induction xs as [|x xs IH]; intros s; simpl; [reflexivity|].
  now rewrite IH.
Qed.

Lemma enumerate_from_snd {A : Type} (xs : list A) (s : nat) :
  map snd (enumerate_from s xs) = xs.
Proof.
  revert s. induction xs as [|x xs IH]; intros s; simpl; [reflexivity|].
  now rewrite IH.
Qed.

Lemma enumerate_from_app {A : Type} (xs ys : list A) (s : nat) :
  enumerate_from s (xs ++ ys)
  = enumerate_from s xs ++ enumerate_from (s + List.length xs) ys.
Proof.
  revert s. induction xs as [|x xs IH]; intros s; simpl.
  - now rewrite Nat.add_0_r.
  - rewrite IH. do 3 f_equal. lia.
Qed.

(** ** Geometry splitter *)

Section SplitterFacts.

Variable triangulate : BMesh -> BMesh.
Variable Inst : Type.

Lemma vert_in_index (v w : BMVert) (vs : list BMVert) :
  vert_index v = vert_index w -> vert_in v vs = vert_in w vs.
Proof. intros E. unfold vert_in. now rewrite E. Qed.

Lemma vert_in_app (v : BMVert) (l1 l2 : list BMVert) :
  vert_in v (l1 ++ l2) = vert_in v l1 || vert_in v l2.
Proof. unfold vert_in. apply existsb_app. Qed.

Lemma list_remove_vert_last (v : BMVert) (l : list BMVert) :
  vert_in v l = false -> list_remove_vert v (l ++ [v]) = l.
Proof.
  induction l as [|w l IH]; simpl; intros H.
  - now rewrite Nat.eqb_refl.
  - apply orb_false_iff in H as [Hw Hl]. rewrite Hw. now rewrite IH.
Qed.

(** The inner loop of the pruning pass, for one vertex [v] appended to a
    list [l] that does not hold it. *)
Lemma isolated_inner (v : BMVert) (fs : list BMFace) (l : list BMVert) :
  vert_in v l = false ->
  fold_left (fun l face =>
               if vert_in v (face_verts face) && vert_in v l
               then list_remove_vert v l else l) fs (l ++ [v])
  = if existsb (fun f => vert_in v (face_verts f)) fs then l else l ++ [v].
Proof.
  intros Hl.
  assert (forall fs, fold_left (fun l face =>
               if vert_in v (face_verts face) && vert_in v l
               then list_remove_vert v l else l) fs l = l) as Hstable.
  { intros fs'. induction fs' as [|f fs' IH]; simpl; [reflexivity|].
    rewrite Hl, andb_false_r. exact IH. }
  induction fs as [|f fs IH]; simpl; [reflexivity|].
  destruct (vert_in v (face_verts f)) eqn:Ef; simpl.
  - rewrite vert_in_app, Hl. simpl. unfold vert_in at 1. simpl.
    rewrite Nat.eqb_refl. simpl.
    rewrite list_remove_vert_last by assumption. apply Hstable.
  - exact IH.
Qed.

Lemma in_no_face_index (bm : BMesh) (v w : BMVert) :
  vert_index v = vert_index w -> in_no_face bm v = in_no_face bm w.
Proof.
  intros E. unfold in_no_face. f_equal.
  induction (faces bm) as [|f fs IH]; simpl; [reflexivity|].
  now rewrite IH, (vert_in_index _ _ _ E).
Qed.

Lemma isolated_verts_filter (bm : BMesh) :
  isolated_verts bm = filter (in_no_face bm) (verts bm).
Proof.
  unfold isolated_verts.
  assert (forall vs acc,
            (forall w, In w acc -> in_no_face bm w = true) ->
            fold_left
              (fun vert_remove_list v =>
                 fold_left
                   (fun l face =>
                      if vert_in v (face_verts face) && vert_in v l
                      then list_remove_vert v l else l)
                   (faces bm) (vert_remove_list ++ [v])) vs acc
            = acc ++ filter (in_no_face bm) vs) as H.
  { induction vs as [|v vs IH]; intros acc Hacc; simpl.
    - now rewrite app_nil_r.
    - destruct (existsb (fun f => vert_in v (face_verts f)) (faces bm)) eqn:Ev.
      + assert (vert_in v acc = false) as Hv.
        { destruct (vert_in v acc) eqn:E; [|reflexivity].
          apply existsb_exists in E as (w & Hw & Ewv).
          apply Nat.eqb_eq in Ewv. specialize (Hacc w Hw).
          rewrite (in_no_face_index bm _ _ Ewv) in Hacc.
          unfold in_no_face in Hacc. rewrite Ev in Hacc. discriminate. }
        rewrite isolated_inner by assumption. rewrite Ev.
        assert (in_no_face bm v = false) as ->
            by (unfold in_no_face; now rewrite Ev).
        now apply IH.
      + destruct (vert_in v acc) eqn:Hv.
        * (* [v] already listed: the faces never match, nothing is removed *)
          assert (forall fs l,
                     (forall f, In f fs -> vert_in v (face_verts f) = false) ->
                     fold_left (fun l face =>
                                  if vert_in v (face_verts face) && vert_in v l
                                  then list_remove_vert v l else l) fs l = l) as Hno.
          { induction fs as [|f fs IHf]; intros l Hfs; simpl; [reflexivity|].
            rewrite (Hfs f (or_introl eq_refl)). simpl.
            apply IHf. intros g Hg. apply Hfs. now right. }
          rewrite Hno.
          2:{ intros f Hf. destruct (vert_in v (face_verts f)) eqn:E; [|reflexivity].
              assert (existsb (fun f => vert_in v (face_verts f)) (faces bm) = true)
                as C by (apply existsb_exists; eauto).
              congruence. }
          assert (in_no_face bm v = true) as Hiso
              by (unfold in_no_face; now rewrite Ev).
          rewrite Hiso. rewrite IH.
          -- now rewrite <- app_assoc.
          -- intros w Hw. apply in_app_or in Hw as [Hw|[<-|[]]]; [now apply Hacc|].
             exact Hiso.
        * rewrite isolated_inner by assumption. rewrite Ev.
          assert (in_no_face bm v = true) as Hiso
              by (unfold in_no_face; now rewrite Ev).
          rewrite Hiso. rewrite IH.
          -- now rewrite <- app_assoc.
          -- intros w Hw. apply in_app_or in Hw as [Hw|[<-|[]]]; [now apply Hacc|].
             exact Hiso. }
  rewrite H; [reflexivity|]. intros w [].
Qed.

Lemma filter_filter {A : Type} (p q : A -> bool) (l : list A) :
  filter p (filter q l) = filter (fun a => q a && p a) l.
Proof.
  induction l as [|a l IH]; simpl; [reflexivity|].
  destruct (q a); simpl; [destruct (p a)|]; now rewrite IH.
Qed.

Lemma filter_all {A : Type} (p : A -> bool) (l : list A) :
  (forall a, In a l -> p a = true) -> filter p l = l.
Proof.
  induction l as [|a l IH]; simpl; intros H; [reflexivity|].
  rewrite (H a (or_introl eq_refl)). f_equal. apply IH. intros b Hb. apply H. now right.
Qed.

Lemma fold_faces_remove (rl : list BMFace) (bm : BMesh) :
  fold_left faces_remove rl bm
  = mkBMesh (verts bm)
            (filter (fun g => negb (existsb (fun f => face_index g =? face_index f) rl))
                    (faces bm))
            (uv_layers bm) (vertex_colors_active_index bm).
Proof.
  revert bm. induction rl as [|f rl IH]; intros bm; simpl.
  - rewrite filter_all by reflexivity. now destruct bm.
  - rewrite IH. simpl. rewrite filter_filter. f_equal.
    apply filter_ext. intros g. now rewrite negb_orb.
Qed.

Lemma fold_verts_remove (rl : list BMVert) (bm : BMesh) :
  fold_left verts_remove rl bm
  = mkBMesh (filter (fun w => negb (existsb (fun v => vert_index w =? vert_index v) rl))
                    (verts bm))
            (filter (fun f => negb (existsb (fun v => vert_in v (face_verts f)) rl))
                    (faces bm))
            (uv_layers bm) (vertex_colors_active_index bm).
Proof.
  revert bm. induction rl as [|v rl IH]; intros bm; simpl.
  - rewrite !filter_all by reflexivity. now destruct bm.
  - rewrite IH. simpl. rewrite !filter_filter. f_equal.
    + apply filter_ext. intros w. now rewrite negb_orb.
    + apply filter_ext. intros f. now rewrite negb_orb.
Qed.

(** Removing the faces of the other materials leaves those of [mat_id]. *)
Lemma faces_of_material (fs : list BMFace) (mat_id : nat) :
  NoDup (map face_index fs) ->
  filter (fun g =>
            negb (existsb (fun f => face_index g =? face_index f)
                          (filter (fun face => negb (material_index face =? mat_id)) fs)))
         fs
  = filter (fun f => material_index f =? mat_id) fs.
Proof.
  intros Hnd. apply filter_ext_in. intros g Hg.
  destruct (material_index g =? mat_id) eqn:E.
  - apply negb_true_iff.
    destruct (existsb _ _) eqn:Ex; [|reflexivity].
    apply existsb_exists in Ex as (f & Hf & Efg).
    apply filter_In in Hf as [Hf Hm]. apply Nat.eqb_eq in Efg.
    assert (g = f) as -> by (eapply NoDup_map_eq; eauto).
    rewrite E in Hm. discriminate.
  - apply negb_false_iff. apply existsb_exists. exists g. split.
    + apply filter_In. split; [assumption|]. now rewrite E.
    + apply Nat.eqb_refl.
Qed.

Lemma split_material_pruned (mesh : Mesh) (old_mesh : BMesh) (obj : Inst)
      (mat_id : nat) (mat : Material) :
  split_material mesh old_mesh obj mat_id mat
  = match verts (pruned old_mesh mat_id) with
    | [] => []
    | _ :: _ =>
        [(if List.length (materials mesh) =? 1 then mesh_name mesh
          else (mesh_name mesh ++ "." ++ mat_name mat)%string,
          pruned old_mesh mat_id, obj)]
    end.
Proof. reflexivity. Qed.

Lemma pruned_faces (old_mesh : BMesh) (mat_id : nat) :
  wf_bmesh old_mesh = true ->
  faces (pruned old_mesh mat_id)
  = filter (fun f => material_index f =? mat_id) (faces old_mesh).
Proof.
  intros Hwf. unfold wf_bmesh in Hwf.
  apply andb_true_iff in Hwf as [Hwf _]. apply andb_true_iff in Hwf as [Hd _].
  apply distinct_NoDup in Hd.
  unfold pruned. rewrite fold_verts_remove. simpl.
  rewrite isolated_verts_filter.
  rewrite fold_faces_remove. simpl.
  rewrite faces_of_material by assumption.
  apply filter_all. intros f Hf.
  apply negb_true_iff. destruct (existsb _ _) eqn:Ex; [|reflexivity].
  apply existsb_exists in Ex as (v & Hv & Hin).
  apply filter_In in Hv as [_ Hiso].
  unfold in_no_face in Hiso. simpl in Hiso. apply negb_true_iff in Hiso.
  assert (existsb (fun f0 => vert_in v (face_verts f0))
                  (filter (fun f0 => material_index f0 =? mat_id) (faces old_mesh))
          = true) as C by (apply existsb_exists; eauto).
  congruence.
Qed.

Lemma pruned_verts (old_mesh : BMesh) (mat_id : nat) :
  verts (pruned old_mesh mat_id)
  = filter (fun w => negb (in_no_face
                             (fold_left faces_remove
                                (filter (fun face => negb (material_index face =? mat_id))
                                        (faces old_mesh)) old_mesh) w))
           (verts old_mesh).
Proof.
  unfold pruned. rewrite fold_verts_remove. simpl.
  rewrite isolated_verts_filter.
  set (nm := fold_left faces_remove _ old_mesh).
  assert (verts nm = verts old_mesh) as Ev.
  { unfold nm. now rewrite fold_faces_remove. }
  rewrite Ev. apply filter_ext_in. intros w Hw. f_equal.
  destruct (in_no_face nm w) eqn:Eiso.
  - apply existsb_exists. exists w. split; [|apply Nat.eqb_refl].
    apply filter_In. split; assumption.
  - destruct (existsb _ _) eqn:Ex; [|reflexivity].
    apply existsb_exists in Ex as (v & Hv & Ewv).
    apply filter_In in Hv as [_ Hiso]. apply Nat.eqb_eq in Ewv.
    rewrite (in_no_face_index nm _ _ Ewv) in Eiso. congruence.
Qed.

(** A sub-mesh that has a face has a vertex, so it is not discarded. *)
Lemma pruned_faces_verts (old_mesh : BMesh) (mat_id : nat) :
  wf_bmesh old_mesh = true ->
  verts (pruned old_mesh mat_id) = [] ->
  filter (fun f => material_index f =? mat_id) (faces old_mesh) = [].
Proof.
  intros Hwf Hv.
  destruct (filter _ (faces old_mesh)) as [|f fs] eqn:EF; [reflexivity|exfalso].
  assert (In f (filter (fun f => material_index f =? mat_id) (faces old_mesh))) as Hf
      by (rewrite EF; now left).
  pose proof Hwf as Hwf'. unfold wf_bmesh in Hwf'.
  apply andb_true_iff in Hwf' as [Hwf' Hok]. apply andb_true_iff in Hwf' as [Hd _].
  apply distinct_NoDup in Hd.
  pose proof Hf as Hf0. apply filter_In in Hf0 as [Hf0 _].
  rewrite forallb_forall in Hok. specialize (Hok f Hf0).
  unfold face_ok in Hok. unfold face_verts in Hok.
  destruct (loops f) as [|l ls] eqn:El; [discriminate|].
  simpl in Hok. apply andb_true_iff in Hok as [Hl _].
  apply existsb_exists in Hl as (w & Hw & Ew). apply Nat.eqb_eq in Ew.
  rewrite pruned_verts in Hv.
  assert (In w (filter (fun w => negb (in_no_face
            (fold_left faces_remove
               (filter (fun face => negb (material_index face =? mat_id))
                       (faces old_mesh)) old_mesh) w)) (verts old_mesh))) as C.
  { apply filter_In. split; [assumption|]. apply negb_true_iff.
    unfold in_no_face. apply negb_false_iff. apply existsb_exists.
    exists f. split.
    - rewrite fold_faces_remove. simpl. now rewrite faces_of_material.
    - unfold face_verts. rewrite El. simpl. unfold vert_in. simpl.
      rewrite <- Ew, Nat.eqb_refl. reflexivity. }
  rewrite Hv in C. exact C.
Qed.

Lemma split_material_faces (mesh : Mesh) (old_mesh : BMesh) (obj : Inst)
      (mat_id : nat) (mat : Material) :
  wf_bmesh old_mesh = true ->
  List.concat (sub_faces (split_material mesh old_mesh obj mat_id mat))
  = filter (fun f => material_index f =? mat_id) (faces old_mesh).
Proof.
  intros Hwf. rewrite split_material_pruned.
  destruct (verts (pruned old_mesh mat_id)) eqn:Ev; simpl.
  - symmetry. now apply pruned_faces_verts.
  - rewrite app_nil_r. now apply pruned_faces.
Qed.

End SplitterFacts.

Lemma filter_disjoint_perm {A : Type} (p q : A -> bool) (l : list A) :
  (forall a, p a = true -> q a = false) ->
  Permutation (filter p l ++ filter q l) (filter (fun a => p a || q a) l).
Proof.
  intros Hpq. induction l as [|a l IH]; simpl; [constructor|].
  destruct (p a) eqn:Ep; simpl.
  - rewrite (Hpq a Ep). now constructor.
  - destruct (q a); [|exact IH].
    apply Permutation_sym, Permutation_cons_app, Permutation_sym, IH.
Qed.

(** The buckets [0 .. n-1] hold, between them, the faces whose material
    index is below [n]. *)
Lemma buckets_perm (fs : list BMFace) (n : nat) :
  Permutation
    (flat_map (fun k => filter (fun f => material_index f =? k) fs) (seq 0 n))
    (filter (fun f => material_index f <? n) fs).
Proof.
  induction n as [|n IH].
  - simpl. induction fs as [|f fs IHf]; simpl; [constructor|exact IHf].
  - rewrite seq_S, flat_map_app. simpl. rewrite app_nil_r.
    eapply Permutation_trans; [apply Permutation_app_tail, IH|].
    eapply Permutation_trans; [apply filter_disjoint_perm|].
    + intros f Hf. apply Nat.ltb_lt in Hf. apply Nat.eqb_neq. lia.
    + erewrite filter_ext; [apply Permutation_refl|].
      intros f. simpl.
      destruct (material_index f <? n) eqn:E1, (material_index f =? n) eqn:E2,
               (material_index f <? S n) eqn:E3; try reflexivity; exfalso;
        repeat match goal with
               | H : (_ <? _) = true |- _ => apply Nat.ltb_lt in H
               | H : (_ <? _) = false |- _ => apply Nat.ltb_ge in H
               | H : (_ =? _) = true |- _ => apply Nat.eqb_eq in H
               | H : (_ =? _) = false |- _ => apply Nat.eqb_neq in H
               end; lia.
Qed.

Lemma concat_flat_map {A B C : Type} (g : B -> list C) (h : A -> list B)
      (l : list A) :
  List.concat (map g (flat_map h l)) = flat_map (fun a => List.concat (map g (h a))) l.
Proof.
  induction l as [|a l IH]; simpl; [reflexivity|].
  now rewrite map_app, concat_app, IH.
Qed.

Lemma flat_map_enumerate {A B : Type} (g : nat -> list B) (xs : list A) (s : nat) :
  flat_map (fun p : nat * A => g (fst p)) (enumerate_from s xs)
  = flat_map g (seq s (List.length xs)).
Proof.
  revert s. induction xs as [|x xs IH]; intros s; simpl; [reflexivity|].
  now rewrite IH.
Qed.

Lemma NoDup_app_apart {A : Type} (l1 l2 : list A) (x : A) :
  NoDup (l1 ++ l2) -> In x l1 -> In x l2 -> False.
Proof.
  induction l1 as [|c l1 IH]; simpl; intros Hnd H1 H2; [contradiction|].
  inversion Hnd as [|? ? Hnotin Hnd']; subst.
  destruct H1 as [->|H1].
  - apply Hnotin, in_or_app. now right.
  - now apply IH.
Qed.

Lemma NoDup_concat_parts {A : Type} (f : A -> nat) (ls : list (list A))
      (i j : nat) (a b : list A) (x y : A) :
  NoDup (map f (List.concat ls)) ->
  nth_error ls i = Some a -> nth_error ls j = Some b ->
  In x a -> In y b -> f x = f y -> i = j.
Proof.
  revert i j. induction ls as [|l ls IH]; intros i j Hnd Hi Hj Hx Hy E.
  - destruct i; discriminate.
  - simpl in Hnd. rewrite map_app in Hnd.
    assert (forall u v, In u l -> In v (List.concat ls) -> f u <> f v) as Hsep.
    { intros u v Hu Hv Euv.
      apply (NoDup_app_apart _ _ (f u) Hnd); [now apply in_map|].
      rewrite Euv. now apply in_map. }
    destruct i as [|i], j as [|j]; simpl in Hi, Hj.
    + reflexivity.
    + exfalso. inversion Hi; subst. apply (Hsep x y Hx); [|assumption].
      apply in_concat. exists b. split; [|assumption]. eapply nth_error_In; eauto.
    + exfalso. inversion Hj; subst. apply (Hsep y x Hy); [|congruence].
      apply in_concat. exists a. split; [|assumption]. eapply nth_error_In; eauto.
    + f_equal. apply NoDup_app_remove_l in Hnd. eapply IH; eauto.
Qed.

Section Partition.

Variable triangulate : BMesh -> BMesh.
Variable Inst : Type.

(** What is assumed of Blender's triangulation: it keeps a mesh well formed,
    and a triangle has the material index of a face it was cut from. *)
Hypothesis triangulate_wf :
  forall bm, wf_bmesh bm = true -> wf_bmesh (triangulate bm) = true.
Hypothesis triangulate_material_index :
  forall bm f, In f (faces (triangulate bm)) ->
               exists g, In g (faces bm) /\ material_index f = material_index g.

Lemma separate_faces_buckets (mesh : Mesh) (obj : Inst) :
  wf_bmesh (from_mesh mesh) = true ->
  materials mesh <> [] ->
  List.concat (sub_faces (separate_mesh_by_material triangulate mesh obj))
  = flat_map (fun k => filter (fun f => material_index f =? k)
                              (faces (triangulate (from_mesh mesh))))
             (seq 0 (List.length (materials mesh))).
Proof.
  intros Hwf Hne. unfold separate_mesh_by_material.
  destruct (materials mesh) as [|m ms] eqn:Em; [congruence|].
  rewrite <- Em. unfold sub_faces. rewrite concat_flat_map.
  unfold enumerate. rewrite <- flat_map_enumerate with (xs := materials mesh).
  apply flat_map_ext. intros [k mat]. simpl.
  apply split_material_faces. now apply triangulate_wf.
Qed.

(** C1: for a raw mesh all of whose faces carry an in-range material index,
    the sub-meshes of [separate_mesh_by_material] partition the triangulated
    face set: their triangle counts add up to the number of triangles, their
    faces taken together are the triangulated faces up to order, and no
    triangle lies in two sub-meshes. *)
Theorem separate_mesh_by_material_partition (mesh : Mesh) (obj : Inst) :
  wf_bmesh (from_mesh mesh) = true ->
  (forall f, In f (faces (from_mesh mesh)) ->
             material_index f < List.length (materials mesh)) ->
  let old_mesh := triangulate (from_mesh mesh) in
  let parts := sub_faces (separate_mesh_by_material triangulate mesh obj) in
  sum_list (map (@List.length BMFace) parts) = List.length (faces old_mesh)
  /\ Permutation (List.concat parts) (faces old_mesh)
  /\ (forall i j a b f g,
         nth_error parts i = Some a -> nth_error parts j = Some b ->
         In f a -> In g b -> face_index f = face_index g -> i = j).
Proof.
  intros Hwf Hrange old_mesh parts.
  assert (Permutation (List.concat parts) (faces old_mesh)) as Hperm.
  { destruct (materials mesh) as [|m ms] eqn:Em.
    - unfold parts, separate_mesh_by_material. rewrite Em. simpl.
      rewrite app_nil_r. apply Permutation_refl.
    - unfold parts. rewrite separate_faces_buckets by (assumption || congruence).
      eapply Permutation_trans; [apply buckets_perm|].
      rewrite filter_all; [apply Permutation_refl|].
      intros f Hf. apply Nat.ltb_lt.
      destruct (triangulate_material_index _ _ Hf) as (g & Hg & ->).
      rewrite Em. now apply Hrange. }
  split; [|split].
  - rewrite <- length_concat_sum. now apply Permutation_length.
  - exact Hperm.
  - intros i j a b f g Hi Hj Hf Hg E.
    apply NoDup_concat_parts
      with (f := face_index) (ls := parts) (a := a) (b := b) (x := f) (y := g);
      try assumption.
    apply (Permutation_NoDup (l := map face_index (faces old_mesh))).
    + apply Permutation_map, Permutation_sym, Hperm.
    + specialize (triangulate_wf _ Hwf). unfold wf_bmesh in triangulate_wf.
      apply andb_true_iff in triangulate_wf as [H _].
      apply andb_true_iff in H as [H _]. now apply distinct_NoDup.
Qed.

(** C10: a mesh with no material gives exactly one sub-mesh, named as the
    mesh, holding the whole triangulated mesh: every face and every vertex,
    with nothing pruned and nothing discarded, even without vertices or
    faces. *)
Theorem separate_mesh_by_material_no_materials (mesh : Mesh) (obj : Inst) :
  materials mesh = [] ->
  exists sub,
    separate_mesh_by_material triangulate mesh obj = [sub]
    /\ sub_name sub = mesh_name mesh
    /\ faces (sub_bmesh sub) = faces (triangulate (from_mesh mesh))
    /\ verts (sub_bmesh sub) = verts (triangulate (from_mesh mesh))
    /\ sub_instances sub = obj.
Proof.
  intros Hm. unfold separate_mesh_by_material. rewrite Hm.
  eexists. split; [reflexivity|]. repeat split.
Qed.

End Partition.

(** ** Attribute flattener *)

Lemma list_set_ok {A : Type} (xs : list A) (i : nat) (v : A) :
  i < List.length xs ->
  exists ys, list_set xs i v = Ok ys /\ List.length ys = List.length xs.
Proof.
  revert i. induction xs as [|x xs IH]; intros i Hi; simpl in *; [lia|].
  destruct i as [|i].
  - eexists. split; reflexivity.
  - destruct (IH i) as (ys & E & L); [lia|].
    rewrite E. simpl. eexists. split; [reflexivity|]. simpl. now rewrite L.
Qed.

(** One in-range assignment [xs[i] = v] at the head of the goal. *)
Ltac step_list_set :=
  match goal with
  | |- context [list_set ?xs ?i ?v] =>
      let ys := fresh "ys" in
      let E := fresh "E" in
      let L := fresh "L" in
      destruct (@list_set_ok _ xs i v) as (ys & E & L); [lia|];
      rewrite E; cbn [bind]
  end.

Lemma dict_set_In {K V : Type} (eqb : K -> K -> bool) (d : list (K * V))
      (k u : K) (v a : V) :
  In (u, a) (dict_set eqb d k v) -> (u, a) = (k, v) \/ In (u, a) d.
Proof.
  induction d as [|[k' v'] d IH]; simpl.
  - intros [H|[]]; auto.
  - destruct (eqb k' k); simpl.
    + intros [H|H]; auto.
    + intros [H|H]; auto. destruct (IH H); auto.
Qed.

Lemma dict_get_set_str {V : Type} (d : list (string * V)) (k u : string) (v : V) :
  dict_get String.eqb (dict_set String.eqb d k v) u
  = if String.eqb k u then Some v else dict_get String.eqb d u.
Proof.
  induction d as [|[k' v'] d IH]; simpl.
  - reflexivity.
  - destruct (String.eqb k' k) eqn:E; simpl.
    + apply String.eqb_eq in E. subst k'. now destruct (String.eqb k u).
    + destruct (String.eqb k' u) eqn:E'.
      * apply String.eqb_eq in E'. subst k'. rewrite String.eqb_sym in E.
        now rewrite E.
      * exact IH.
Qed.

Lemma dict_get_In {K V : Type} (eqb : K -> K -> bool) (d : list (K * V))
      (k : K) (v : V) :
  dict_get eqb d k = Some v -> exists k', In (k', v) d /\ eqb k' k = true.
Proof.
  induction d as [|[k' v'] d IH]; simpl; [discriminate|].
  destruct (eqb k' k) eqn:E.
  - intros [= ->]. eauto.
  - intros H. destruct (IH H) as (k'' & Hin & Ek). eauto.
Qed.

Lemma dict_set_keys {V : Type} (d : list (string * V)) (k k' : string) (v : V) :
  In k' (dict_keys (dict_set String.eqb d k v)) <-> k' = k \/ In k' (dict_keys d).
Proof.
  unfold dict_keys. induction d as [|[k0 v0] d IH]; simpl.
  - split; [intros [<-|[]]; now left|intros [->|[]]; now left].
  - destruct (String.eqb k0 k) eqn:E; simpl.
    + apply String.eqb_eq in E. subst k0. split.
      * intros [<-|H]; [now left|right; now right].
      * intros [->|[->|H]]; [now left|now left|now right].
    + rewrite IH. tauto.
Qed.

Lemma dict_set_NoDup {V : Type} (d : list (string * V)) (k : string) (v : V) :
  NoDup (dict_keys d) -> NoDup (dict_keys (dict_set String.eqb d k v)).
Proof.
  unfold dict_keys. induction d as [|[k0 v0] d IH]; simpl; intros H.
  - constructor; [intros []|constructor].
  - inversion H as [|? ? Hnotin Hnd]; subst.
    destruct (String.eqb k0 k) eqn:E; simpl.
    + apply String.eqb_eq in E. subst k0. now constructor.
    + constructor; [|now apply IH].
      intros Hin. apply (dict_set_keys d k k0 v) in Hin as [->|Hin]; [|contradiction].
      rewrite String.eqb_refl in E. discriminate.
Qed.

Lemma sized_uvdata0 (keys : list string) (n : nat) :
  let uvdata0 :=
    fold_left (fun d i => dict_set String.eqb d i (repeat SNone (n * 2))) keys [] in
  (forall u arr, In (u, arr) uvdata0 -> In u keys /\ List.length arr = n * 2)
  /\ (forall u, In u keys -> dict_get String.eqb uvdata0 u <> None).
Proof.
  assert (forall ks d,
             (forall u arr, In (u, arr) d -> List.length arr = n * 2) ->
             let r := fold_left (fun d i => dict_set String.eqb d i (repeat SNone (n * 2)))
                                ks d in
             (forall u arr, In (u, arr) r ->
                            (In u ks \/ In (u, arr) d) /\ List.length arr = n * 2)
             /\ (forall u, In u ks \/ dict_get String.eqb d u <> None ->
                           dict_get String.eqb r u <> None)) as H.
  { induction ks as [|k ks IH]; intros d Hd; simpl.
    - split.
      + intros u arr Hin. split; [now right|]. eapply Hd; eauto.
      + intros u [[]|H]. exact H.
    - destruct (IH (dict_set String.eqb d k (repeat SNone (n * 2)))) as [I1 I2].
      { intros u arr Hin. apply dict_set_In in Hin as [[= -> ->]|Hin].
        - apply repeat_length.
        - eapply Hd; eauto. }
      split.
      + intros u arr Hin. destruct (I1 u arr Hin) as [[Hu|Hu] L]; split; auto.
        apply dict_set_In in Hu as [[= -> ->]|Hu]; auto.
      + intros u Hu. apply I2. rewrite dict_get_set_str.
        destruct (String.eqb k u) eqn:E.
        * right. discriminate.
        * destruct Hu as [[->|Hu]|Hu]; auto.
          rewrite String.eqb_refl in E. discriminate. }
  intros uvdata0. destruct (H keys []) as [I1 I2]; [intros ? ? []|].
  split.
  - intros u arr Hin. destruct (I1 u arr Hin) as [[Hu|[]] L]. now split.
  - intros u Hu. apply I2. now left.
Qed.

Lemma write_uvs_sized (keys all : list string) (n index : nat) (loop : BMLoop)
      (uvd : list (string * list scalar)) :
  index < n ->
  (forall u, In u keys -> In u all) ->
  (forall u arr, In (u, arr) uvd -> In u all /\ List.length arr = n * 2) ->
  (forall u, In u all -> dict_get String.eqb uvd u <> None) ->
  exists uvd',
    write_uvs index loop keys uvd = Ok uvd'
    /\ (forall u arr, In (u, arr) uvd' -> In u all /\ List.length arr = n * 2)
    /\ (forall u, In u all -> dict_get String.eqb uvd' u <> None).
Proof.
  intros Hi. revert uvd. unfold write_uvs.
  induction keys as [|k keys IH]; intros uvd Hsub H1 H2; cbn [for_each bind].
  - eauto.
  - assert (In k all) as Hk by (apply Hsub; now left).
    destruct (dict_get String.eqb uvd k) as [arr|] eqn:Eg; [|now apply H2 in Hk].
    pose proof Eg as Eg'. apply dict_get_In in Eg' as (k' & Hin & _).
    destruct (H1 _ _ Hin) as [_ L].
    do 2 step_list_set.
    apply IH.
    + intros u Hu. apply Hsub. now right.
    + intros u a Hua. apply dict_set_In in Hua as [[= -> ->]|Hua].
      * split; [assumption|lia].
      * now apply H1.
    + intros u Hu. rewrite dict_get_set_str.
      destruct (String.eqb k u); [discriminate|now apply H2].
Qed.

Lemma flatten_loop_sized (keys : list string) (n index : nat) (loop : BMLoop)
      (st : FlatArrays) :
  index < n -> sized keys n st ->
  exists st',
    flatten_loop keys st (index, loop) = Ok st'
    /\ sized keys n st'
    /\ fa_indices st' = fa_indices st ++ [index]
    /\ (vertcollist st' = None <-> vertcollist st = None).
Proof.
  intros Hi (Hp & Hn & Hu1 & Hu2 & Hc). unfold flatten_loop.
  destruct (@write_uvs_sized keys keys n index loop (uvdata st) Hi)
    as (uvd & Eu & U1 & U2); auto.
  rewrite Eu. cbn [bind].
  repeat step_list_set.
  destruct (vertcollist st) as [c|] eqn:Ec; cbn [bind].
  - specialize (Hc c eq_refl).
    repeat step_list_set.
    eexists. split; [reflexivity|]. split; [|split; [reflexivity|]].
    + unfold sized. simpl.
      split; [lia|]. split; [lia|]. split; [exact U1|]. split; [exact U2|].
      intros c' [= <-]. lia.
    + simpl. split; discriminate.
  - eexists. split; [reflexivity|]. split; [|split; [reflexivity|]].
    + unfold sized. simpl.
      split; [lia|]. split; [lia|]. split; [exact U1|]. split; [exact U2|].
      discriminate.
    + simpl. split; reflexivity.
Qed.

Lemma for_each_flatten_loop (keys : list string) (n : nat) (L : list BMLoop) :
  forall (s : nat) (st : FlatArrays),
    s + List.length L <= n -> sized keys n st ->
    exists st',
      for_each (flatten_loop keys) (enumerate_from s L) st = Ok st'
      /\ sized keys n st'
      /\ fa_indices st' = fa_indices st ++ seq s (List.length L)
      /\ (vertcollist st' = None <-> vertcollist st = None).
Proof.
  induction L as [|l L IH]; intros s st Hs Hst; cbn [enumerate_from for_each].
  - exists st. rewrite app_nil_r.
    split; [reflexivity|]. split; [assumption|]. split; [reflexivity|tauto].
  - simpl in Hs.
    destruct (@flatten_loop_sized keys n s l st) as (st1 & E1 & S1 & I1 & C1);
      [lia|assumption|].
    rewrite E1. cbn [bind].
    destruct (IH (S s) st1) as (st2 & E2 & S2 & I2 & C2); [lia|assumption|].
    exists st2. split; [assumption|]. split; [assumption|]. split.
    + rewrite I2, I1, <- app_assoc. reflexivity.
    + now rewrite C2.
Qed.

Lemma flatten_arrays_ok (mesh : BMesh) :
  let n := List.length (flat_map loops (faces mesh)) in
  exists fa,
    flatten_arrays mesh = Ok fa
    /\ sized (uv_layers mesh) n fa
    /\ fa_indices fa = seq 0 n
    /\ (vertcollist fa = None <-> vertex_colors_active_index mesh = (-1)%Z).
Proof.
  intros n. unfold flatten_arrays, mesh_loops, enumerate.
  rewrite enumerate_from_length. fold n.
  destruct (sized_uvdata0 (uv_layers mesh) n) as [U1 U2].
  match goal with
  | |- context [for_each _ _ ?st0] =>
      destruct (@for_each_flatten_loop (uv_layers mesh) n
                  (flat_map loops (faces mesh)) 0 st0) as (fa & E & S & I & C)
  end.
  - fold n. lia.
  - unfold sized. simpl. rewrite !repeat_length.
    split; [reflexivity|]. split; [reflexivity|]. split; [exact U1|].
    split; [exact U2|].
    intros c. destruct (Z.eqb _ _); [discriminate|].
    intros [= <-]. apply repeat_length.
  - exists fa. split; [exact E|]. split; [exact S|]. split; [exact I|].
    rewrite C. simpl. destruct (Z.eqb_spec (vertex_colors_active_index mesh) (-1)).
    + split; auto.
    + split; [discriminate|contradiction].
Qed.

Lemma triangles_loops (fs : list BMFace) :
  (forall f, In f fs -> List.length (loops f) = 3) ->
  List.length (flat_map loops fs) = 3 * List.length fs.
Proof.
  induction fs as [|f fs IH]; intros H; simpl; [reflexivity|].
  rewrite length_app, IH by (intros g Hg; apply H; now right).
  rewrite (H f) by now left. lia.
Qed.

Lemma index_from_ok (u : string) (xs : list string) (s : nat) :
  In u xs -> exists i, index_from s u xs = Ok i.
Proof.
  revert s. induction xs as [|x xs IH]; intros s Hin; simpl; [contradiction|].
  destruct (String.eqb x u) eqn:E; [eauto|].
  destruct Hin as [->|Hin]; [|now apply IH].
  rewrite String.eqb_refl in E. discriminate.
Qed.

(** [xs.index(u)] is the first position of [u]. *)
Lemma index_from_first (u : string) (xs : list string) (s i : nat) :
  index_from s u xs = Ok i ->
  s <= i /\ nth_error xs (i - s) = Some u
  /\ forall j, j < i - s -> nth_error xs j <> Some u.
Proof.
  revert s. induction xs as [|x xs IH]; intros s; simpl; [discriminate|].
  destruct (String.eqb x u) eqn:E.
  - intros [= <-]. apply String.eqb_eq in E. subst x.
    rewrite Nat.sub_diag. repeat split; [lia|]. intros j Hj. lia.
  - intros H. destruct (IH _ H) as (Hs & Hn & Hf).
    split; [lia|]. replace (i - s) with (S (i - S s)) by lia. simpl.
    split; [assumption|]. intros [|j] Hj; simpl.
    + intros [= ->]. rewrite String.eqb_refl in E. discriminate.
    + apply Hf. lia.
Qed.

Lemma attr_key_eqb_eq (a b : attr_key) : attr_key_eqb a b = true -> a = b.
Proof.
  destruct a, b; simpl; try discriminate; try reflexivity.
  intros H. apply Nat.eqb_eq in H. now subst.
Qed.

Lemma dict_set_has_key {V : Type} (d : list (attr_key * V)) (k k' : attr_key)
      (v : V) :
  (exists a, In (k', a) d) \/ k' = k ->
  exists a, In (k', a) (dict_set attr_key_eqb d k v).
Proof.
  induction d as [|[k0 v0] d IH]; simpl.
  - intros [[a []]| ->]. exists v. now left.
  - destruct (attr_key_eqb k0 k) eqn:E.
    + apply attr_key_eqb_eq in E. subst k0.
      intros [[a [[= -> ->]|Hin]]| ->].
      * exists v. now left.
      * exists a. now right.
      * exists v. now left.
    + intros [[a [[= -> ->]|Hin]]| ->].
      * exists a. now left.
      * destruct IH as [a' Ha']; [left; eauto|]. exists a'. now right.
      * destruct IH as [a' Ha']; [now right|]. exists a'. now right.
Qed.

Lemma dict_set_key_from {V : Type} (d : list (attr_key * V)) (k k' : attr_key)
      (v a : V) :
  In (k', a) (dict_set attr_key_eqb d k v) -> k' = k \/ exists a', In (k', a') d.
Proof.
  intros H. apply dict_set_In in H as [[= -> ->]|H]; [now left|right; eauto].
Qed.

Lemma list_set_nth_error {A : Type} (xs ys : list A) (i : nat) (v : A) :
  list_set xs i v = Ok ys ->
  forall j, nth_error ys j = if j =? i then Some v else nth_error xs j.
Proof.
  revert ys i. induction xs as [|x xs IH]; intros ys i; simpl; [discriminate|].
  destruct i as [|i].
  - intros [= <-] [|j]; reflexivity.
  - destruct (list_set xs i v) as [zs|e] eqn:E; [|discriminate].
    simpl. intros [= <-] [|j]; simpl; [reflexivity|]. now apply IH.
Qed.

Lemma filled_set (P : scalar -> Prop) (k i : nat) (xs ys : list scalar) (v : scalar) :
  filled P k xs -> P v -> list_set xs i v = Ok ys ->
  filled P k ys /\ (i = k -> filled P (S k) ys).
Proof.
  intros Hf Hv Hs. pose proof (list_set_nth_error _ _ _ Hs) as Hn.
  split.
  - intros j Hj. rewrite Hn. destruct (j =? i); [eauto|now apply Hf].
  - intros -> j Hj. rewrite Hn. destruct (Nat.eqb_spec j k); [eauto|].
    apply Hf. lia.
Qed.

Lemma filled_weaken (P : scalar -> Prop) (k k' : nat) (xs : list scalar) :
  k' <= k -> filled P k xs -> filled P k' xs.
Proof. intros Hk Hf j Hj. apply Hf. lia. Qed.

(** With distinct keys, an assignment leaves the other entries alone. *)
Lemma dict_set_In_other {V : Type} (d : list (string * V)) (k u : string) (v a : V) :
  NoDup (dict_keys d) ->
  In (u, a) (dict_set String.eqb d k v) ->
  (u, a) = (k, v) \/ (In (u, a) d /\ u <> k).
Proof.
  unfold dict_keys. induction d as [|[k0 v0] d IH]; simpl; intros Hnd.
  - intros [H|[]]. now left.
  - inversion Hnd as [|? ? Hnotin Hnd']; subst.
    destruct (String.eqb k0 k) eqn:E; simpl.
    + apply String.eqb_eq in E. subst k0. intros [H|H]; [now left|].
      right. split; [now right|]. intros Huk. apply Hnotin. rewrite <- Huk.
      change u with (fst (u, a)). now apply in_map.
    + intros [[= <- <-]|H].
      * right. split; [now left|]. intros ->.
        rewrite String.eqb_refl in E. discriminate.
      * destruct (IH Hnd' H) as [Heq|[Hin Hne]]; [now left|].
        right. split; [now right|exact Hne].
Qed.

(** The assignments of one corner, read off a successful [bind] chain. *)
Ltac invert_list_set H :=
  match type of H with
  | context [list_set ?xs ?i ?v] =>
      let ys := fresh "ys" in
      let E := fresh "E" in
      destruct (list_set xs i v) as [ys|] eqn:E; [|discriminate H];
      cbn [bind] in H
  end.

Lemma write_uvs_written (keys : list string) (s : nat) (loop : BMLoop) :
  forall (done : list string) (uvd uvd' : list (string * list scalar)),
    NoDup (dict_keys uvd) ->
    (forall u arr, In (u, arr) uvd ->
                   filled is_float (s * 2) arr
                   /\ (In u done -> filled is_float (S s * 2) arr)) ->
    write_uvs s loop keys uvd = Ok uvd' ->
    NoDup (dict_keys uvd')
    /\ (forall u, In u (dict_keys uvd') -> In u (dict_keys uvd) \/ In u keys)
    /\ forall u arr, In (u, arr) uvd' ->
                     filled is_float (s * 2) arr
                     /\ (In u (done ++ keys) -> filled is_float (S s * 2) arr).
Proof.
  unfold write_uvs.
  induction keys as [|k keys IH]; intros done uvd uvd' Hnd Hf; cbn [for_each].
  - intros [= <-]. rewrite app_nil_r. split; [exact Hnd|]. split; [auto|exact Hf].
  - destruct (dict_get String.eqb uvd k) as [arr|] eqn:Eg; [|discriminate].
    intros H. cbn [bind] in H.
    do 2 invert_list_set H.
    apply dict_get_In in Eg as (k' & Hin & Ek). apply String.eqb_eq in Ek. subst k'.
    destruct (Hf _ _ Hin) as [Harr _].
    destruct (@filled_set is_float (s * 2) (2 * s) arr ys (SFloat (fst (loop_uv loop k)))
                         Harr I E) as [_ F1].
    specialize (F1 ltac:(lia)).
    destruct (@filled_set is_float (S (s * 2)) (2 * s + 1) ys ys0
                         (SFloat (snd (loop_uv loop k))) F1 I E0) as [_ F2].
    specialize (F2 ltac:(lia)).
    replace (done ++ k :: keys) with ((done ++ [k]) ++ keys)
      by (rewrite <- app_assoc; reflexivity).
    assert (forall u a,
               In (u, a) (dict_set String.eqb uvd k ys0) ->
               filled is_float (s * 2) a
               /\ (In u (done ++ [k]) -> filled is_float (S s * 2) a)) as Hf'.
    { intros u a Hua.
      apply dict_set_In_other in Hua; [|exact Hnd].
      destruct Hua as [[= -> ->]|[Hua Hne]].
      - split; [|intros _; exact F2]. eapply filled_weaken; [|exact F2]. simpl. lia.
      - destruct (Hf _ _ Hua) as [Ha Hd]. split; [exact Ha|].
        intros Hu. apply in_app_or in Hu as [Hu|[->|[]]]; [now apply Hd|congruence]. }
    destruct (IH (done ++ [k]) _ _ (dict_set_NoDup uvd k ys0 Hnd) Hf' H)
      as (R1 & R2 & R3).
    split; [exact R1|]. split; [|exact R3].
    intros u Hu. destruct (R2 u Hu) as [Hu'|Hu']; [|right; now right].
    apply dict_set_keys in Hu' as [->|Hu']; [right; now left|now left].
Qed.

Lemma flatten_loop_written (keys : list string) (s : nat) (loop : BMLoop)
      (st st' : FlatArrays) :
  written keys s st ->
  flatten_loop keys st (s, loop) = Ok st' ->
  written keys (S s) st'.
Proof.
  intros (Hp & Hn & Hnd & Hk & Hu & Hc). unfold flatten_loop.
  destruct (write_uvs s loop keys (uvdata st)) as [uvd|] eqn:Eu; [|discriminate].
  cbn [bind]. intros H. do 6 invert_list_set H.
  apply (@write_uvs_written keys s loop [] (uvdata st) uvd Hnd) in Eu.
  2:{ intros u arr Hin. split; [now apply (Hu u)|intros []]. }
  destruct Eu as (Und & Ukeys & Uf).
  assert (forall (P : scalar -> Prop) k a0 a1 a2 a3 v0 v1 v2,
             filled P (s * 3) a0 -> P v0 -> P v1 -> P v2 ->
             list_set a0 (3 * s) v0 = Ok a1 ->
             list_set a1 (3 * s + 1) v1 = Ok a2 ->
             list_set a2 (3 * s + 2) v2 = Ok a3 ->
             k = S s * 3 -> filled P k a3) as three.
  { intros P k a0 a1 a2 a3 v0 v1 v2 F p0 p1 p2 S0 S1 S2 ->.
    destruct (@filled_set P _ _ _ _ _ F p0 S0) as [_ F1]. specialize (F1 ltac:(lia)).
    destruct (@filled_set P _ _ _ _ _ F1 p1 S1) as [_ F2]. specialize (F2 ltac:(lia)).
    destruct (@filled_set P _ _ _ _ _ F2 p2 S2) as [_ F3]. specialize (F3 ltac:(lia)).
    exact F3. }
  destruct (vertcollist st) as [c|] eqn:Ec.
  - do 4 invert_list_set H. injection H as <-.
    unfold written. cbn [vertposlist vertnormallist uvdata vertcollist].
    split; [exact (three is_float _ _ _ _ _ (SFloat _) (SFloat _) (SFloat _)
                         Hp I I I E E0 E1 eq_refl)|].
    split; [exact (three is_float _ _ _ _ _ (SFloat _) (SFloat _) (SFloat _)
                         Hn I I I E2 E3 E4 eq_refl)|].
    split; [exact Und|]. split.
    { intros u Hin. destruct (Ukeys u Hin); auto. }
    split.
    { intros u arr Hin. apply (Uf u arr Hin). simpl.
      assert (In u (dict_keys uvd)) as Hu'
          by (change u with (fst (u, arr)); now apply in_map).
      destruct (Ukeys u Hu'); auto. }
    intros c' [= <-]. specialize (Hc c eq_refl).
    destruct (@filled_set is_int _ _ _ _ (SInt _) Hc I E5) as [_ F1]. specialize (F1 ltac:(lia)).
    destruct (@filled_set is_int _ _ _ _ (SInt _) F1 I E6) as [_ F2]. specialize (F2 ltac:(lia)).
    destruct (@filled_set is_int _ _ _ _ (SInt _) F2 I E7) as [_ F3]. specialize (F3 ltac:(lia)).
    destruct (@filled_set is_int _ _ _ _ (SInt _) F3 I E8) as [_ F4]. specialize (F4 ltac:(lia)).
    exact F4.
  - injection H as <-.
    unfold written. cbn [vertposlist vertnormallist uvdata vertcollist].
    split; [exact (three is_float _ _ _ _ _ (SFloat _) (SFloat _) (SFloat _)
                         Hp I I I E E0 E1 eq_refl)|].
    split; [exact (three is_float _ _ _ _ _ (SFloat _) (SFloat _) (SFloat _)
                         Hn I I I E2 E3 E4 eq_refl)|].
    split; [exact Und|]. split.
    { intros u Hin. destruct (Ukeys u Hin); auto. }
    split; [|discriminate].
    intros u arr Hin. apply (Uf u arr Hin). simpl.
    assert (In u (dict_keys uvd)) as Hu'
        by (change u with (fst (u, arr)); now apply in_map).
    destruct (Ukeys u Hu'); auto.
Qed.

Lemma for_each_flatten_written (keys : list string) (L : list BMLoop) :
  forall (s : nat) (st st' : FlatArrays),
    written keys s st ->
    for_each (flatten_loop keys) (enumerate_from s L) st = Ok st' ->
    written keys (s + List.length L) st'.
Proof.
  induction L as [|l L IH]; intros s st st' Hw; cbn [enumerate_from for_each].
  - intros [= <-]. now rewrite Nat.add_0_r.
  - destruct (flatten_loop keys st (s, l)) as [st1|] eqn:E; [|discriminate].
    cbn [bind]. intros H.
    apply flatten_loop_written in E; [|exact Hw].
    apply IH in H; [|exact E].
    simpl. now rewrite <- Nat.add_succ_comm.
Qed.

Lemma filled_all (P : scalar -> Prop) (k : nat) (arr : list scalar) :
  List.length arr = k -> filled P k arr -> Forall P arr.
Proof.
  intros L F. apply Forall_forall. intros x Hx.
  apply In_nth_error in Hx as [j Hj].
  assert (j < k) as Hlt by (rewrite <- L; apply nth_error_Some; congruence).
  destruct (F j Hlt) as (y & Hy & Py). congruence.
Qed.

(** Every slot of every array has been written when the loop ends. *)
Lemma flatten_arrays_written (mesh : BMesh) (fa : FlatArrays) :
  flatten_arrays mesh = Ok fa ->
  written (uv_layers mesh) (List.length (flat_map loops (faces mesh))) fa.
Proof.
  unfold flatten_arrays, mesh_loops, enumerate. rewrite enumerate_from_length.
  intros H. apply for_each_flatten_written in H; [exact H|].
  unfold written. cbn [vertposlist vertnormallist uvdata vertcollist].
  split; [intros j Hj; lia|]. split; [intros j Hj; lia|].
  set (n := List.length (flat_map loops (faces mesh))).
  assert (forall ks (d : list (string * list scalar)),
             NoDup (dict_keys d) ->
             let r := fold_left (fun d i => dict_set String.eqb d i (repeat SNone (n * 2)))
                                ks d in
             NoDup (dict_keys r)
             /\ forall u, In u (dict_keys r) -> In u (dict_keys d) \/ In u ks) as Hfold.
  { induction ks as [|k ks IHk]; intros d Hd; simpl; [auto|].
    destruct (IHk _ (dict_set_NoDup d k (repeat SNone (n * 2)) Hd)) as [N1 N2].
    split; [exact N1|]. intros u Hu. destruct (N2 u Hu) as [Hu'|Hu']; [|auto].
    apply dict_set_keys in Hu' as [->|Hu']; auto. }
  destruct (Hfold (uv_layers mesh) []) as [N1 N2]; [constructor|].
  split; [exact N1|]. split.
  { intros u Hu. destruct (N2 u Hu) as [[]|Hu']. exact Hu'. }
  split; [intros u arr _ j Hj; lia|intros c _ j Hj; lia].
Qed.

Lemma file_uvs_spec (uv_list : list string) (n : nat)
      (entries : list (string * list scalar)) :
  forall vd : vert_data_t,
    (forall u arr, In (u, arr) entries ->
                   In u uv_list /\ List.length arr = n * 2 /\ Forall is_float arr) ->
    well_sized n vd ->
    exists vd',
      file_uvs uv_list entries vd = Ok vd'
      /\ well_sized n vd'
      /\ (forall k, (exists a, In (k, a) vd) -> exists a, In (k, a) vd')
      /\ (forall u arr, In (u, arr) entries ->
            exists N a, list_index uv_list u = Ok N /\ In (TexCoord N, a) vd')
      /\ (forall k a, In (k, a) vd' ->
            (exists a', In (k, a') vd)
            \/ exists u arr N, In (u, arr) entries
                               /\ list_index uv_list u = Ok N /\ k = TexCoord N).
Proof.
  unfold file_uvs.
  induction entries as [|[u arr] entries IH]; intros vd Hent Hvd; cbn [for_each].
  - exists vd. split; [reflexivity|]. split; [assumption|].
    split; [auto|]. split; [intros ? ? []|]. intros k a Hin. left. eauto.
  - destruct (Hent u arr (or_introl eq_refl)) as (Hu & Larr & Farr).
    destruct (@index_from_ok u uv_list 0 Hu) as [N EN].
    unfold list_index at 1. rewrite EN. cbn [bind].
    destruct (IH (dict_set attr_key_eqb vd (TexCoord N) (mkAttribute "float32" 2 arr)))
      as (vd' & E & W & Keep & Filed & From).
    + intros u' arr' H. apply Hent. now right.
    + intros k a Hin. apply dict_set_In in Hin as [[= -> ->]|Hin].
      * simpl. split; [reflexivity|]. split; [lia|exact Farr].
      * now apply Hvd.
    + exists vd'. split; [exact E|]. split; [exact W|]. split; [|split].
      * intros k Hk. apply Keep. apply dict_set_has_key. now left.
      * intros u' arr' [[= -> ->]|Hin].
        -- exists N. destruct (Keep (TexCoord N)) as [a Ha].
           { apply dict_set_has_key. now right. }
           exists a. split; [exact EN|exact Ha].
        -- now apply Filed with (arr := arr').
      * intros k a Hin. destruct (From k a Hin) as [[a' Ha']|(u' & arr' & N' & H1 & H2 & H3)].
        -- apply dict_set_key_from in Ha' as [->|Ha']; [|now left].
           right. exists u, arr, N. split; [now left|]. split; [exact EN|reflexivity].
        -- right. exists u', arr', N'. split; [now right|]. split; assumption.
Qed.

(** C2: for a triangulated sub-mesh whose UV layers are registered,
    [MeshParser] returns; its index array has [3 * triangleCount] entries,
    which are [0 .. cornerCount-1] in order, [count] is that length, and
    every attribute array holds one group per index, every slot written:
    3 floats for position and normal, 2 floats for each UV layer of the
    mesh, 4 integers for colour, which is there exactly when the mesh has an
    active colour layer. *)
Theorem MeshParser_buffers (mesh : BMesh) (id_num : nat) (uv_list : list string) :
  (forall f, In f (faces mesh) -> List.length (loops f) = 3) ->
  (forall u, In u (uv_layers mesh) -> In u uv_list) ->
  exists mp,
    MeshParser_init mesh id_num uv_list = Ok mp
    /\ List.length (indices mp) = 3 * List.length (faces mesh)
    /\ count mp = List.length (indices mp)
    /\ indices mp = seq 0 (List.length (indices mp))
    /\ (forall k a, In (k, a) (vert_data mp) ->
          components a = scalars_per_corner k
          /\ List.length (data a) = List.length (indices mp) * components a
          /\ Forall (scalar_of k) (data a))
    /\ (exists a, In (Position, a) (vert_data mp))
    /\ (exists a, In (Normal, a) (vert_data mp))
    /\ ((exists a, In (ColorAttr, a) (vert_data mp))
        <-> vertex_colors_active_index mesh <> (-1)%Z)
    /\ (forall u, In u (uv_layers mesh) ->
          exists N a, list_index uv_list u = Ok N
                      /\ In (TexCoord N, a) (vert_data mp)).
Proof.
  intros Htri Hreg.
  destruct (flatten_arrays_ok mesh) as (fa & Efa & Hsized & Hidx & Hcol).
  set (n := List.length (flat_map loops (faces mesh))) in *.
  destruct Hsized as (Hp & Hn & Hu1 & Hu2 & Hc).
  destruct (flatten_arrays_written mesh Efa) as (Fp & Fn & _ & _ & Fu & Fc).
  fold n in Fp, Fn, Fu, Fc.
  unfold MeshParser_init, update_mesh_data. rewrite Efa. cbn [bind].
  set (vd0 := [(Position, mkAttribute "float32" 3 (vertposlist fa));
               (Normal, mkAttribute "float32" 3 (vertnormallist fa))]).
  set (vd1 := match vertcollist fa with
              | Some c => dict_set attr_key_eqb vd0 ColorAttr (mkAttribute "uint8" 4 c)
              | None => vd0
              end).
  assert (well_sized n vd0) as W0.
  { intros k a [[= <- <-]|[[= <- <-]|[]]]; simpl;
      (split; [reflexivity|]; split; [assumption|]);
      eapply filled_all; eauto. }
  assert (well_sized n vd1) as W1.
  { unfold vd1. destruct (vertcollist fa) as [c|] eqn:Ec; [|exact W0].
    intros k a Hin. apply dict_set_In in Hin as [[= -> ->]|Hin]; [|now apply W0].
    simpl. split; [reflexivity|]. split; [now apply Hc|].
    eapply filled_all; [now apply Hc|now apply Fc]. }
  destruct (@file_uvs_spec uv_list n (uvdata fa) vd1) as (vd & E & W & Keep & Filed & From).
  { intros u arr Hin. destruct (Hu1 u arr Hin) as [Hk Hl].
    split; [auto|]. split; [exact Hl|]. eapply filled_all; [exact Hl|].
    now apply (Fu u). }
  { exact W1. }
  rewrite E. cbn [bind].
  eexists. split; [reflexivity|]. cbn [indices count vert_data].
  assert (List.length (fa_indices fa) = n) as Ln by (rewrite Hidx; apply length_seq).
  assert (forall k, (exists a, In (k, a) vd0) -> exists a, In (k, a) vd1) as Keep0.
  { intros k Hk. unfold vd1. destruct (vertcollist fa); [|exact Hk].
    apply dict_set_has_key. now left. }
  split; [|split; [|split; [|split; [|split; [|split; [|split]]]]]].
  - rewrite Ln. unfold n. now apply triangles_loops.
  - reflexivity.
  - now rewrite Ln.
  - rewrite Ln. exact W.
  - apply Keep, Keep0. eexists. left. reflexivity.
  - apply Keep, Keep0. eexists. right. left. reflexivity.
  - split.
    + intros [a Ha] Hnone. apply Hcol in Hnone.
      destruct (From _ _ Ha) as [[a' Ha']|(u & arr & N & _ & _ & Hk)]; [|discriminate].
      unfold vd1 in Ha'. rewrite Hnone in Ha'.
      destruct Ha' as [[=]|[[=]|[]]].
    + intros Hact. apply Keep. unfold vd1.
      destruct (vertcollist fa) as [c|] eqn:Ec.
      * apply dict_set_has_key. now right.
      * exfalso. apply Hact. now apply Hcol.
  - intros u Hu. specialize (Hu2 u Hu).
    destruct (dict_get String.eqb (uvdata fa) u) as [arr|] eqn:Eg; [|contradiction].
    apply dict_get_In in Eg as (u' & Hin & Eu). apply String.eqb_eq in Eu. subst u'.
    eapply Filed; eauto.
Qed.

(** ** Hierarchy exporter: node ids and instance slots *)

Lemma instance_slots_inner (mesh_id : nat) (insts : list Object) :
  forall (acc : list InstanceRecord) (node_id : nat),
    fold_left (add_instance mesh_id) insts (acc, node_id)
    = (acc ++ map (fun n => mkInstanceRecord n mesh_id) (seq node_id (List.length insts)),
       node_id + List.length insts).
Proof.
  induction insts as [|o insts IH]; intros acc node_id; simpl.
  - now rewrite app_nil_r, Nat.add_0_r.
  - rewrite IH, <- app_assoc. simpl. rewrite Nat.add_1_r. f_equal. lia.
Qed.

Lemma instance_slots_outer (mesh_list : list InstSubMesh) :
  forall (s : nat) (acc : list InstanceRecord) (node_id : nat),
  exists R,
    fold_left
      (fun st (im : nat * InstSubMesh) =>
         fold_left (add_instance (fst im)) (sub_instances (snd im)) st)
      (enumerate_from s mesh_list) (acc, node_id)
    = (acc ++ R, node_id + List.length R)
    /\ map inst_node R = seq node_id (List.length R)
    /\ map inst_mesh R = instance_mesh_ids_from s mesh_list.
Proof.
  induction mesh_list as [|mesh ml IH]; intros s acc node_id;
    cbn [enumerate_from fold_left fst snd].
  - exists []. simpl. now rewrite app_nil_r, Nat.add_0_r.
  - rewrite instance_slots_inner.
    destruct (IH (S s)
                 (acc ++ map (fun n => mkInstanceRecord n s)
                      (seq node_id (List.length (sub_instances mesh))))
                 (node_id + List.length (sub_instances mesh)))
      as (R & E & Hn & Hm).
    exists (map (fun n => mkInstanceRecord n s)
                (seq node_id (List.length (sub_instances mesh))) ++ R).
    split; [|split].
    + rewrite E, <- app_assoc. f_equal.
      rewrite length_app, length_map, length_seq. lia.
    + rewrite map_app, Hn, map_map. simpl. rewrite map_id.
      rewrite length_app, length_map, length_seq. now rewrite seq_app.
    + rewrite map_app, Hm, map_map. simpl.
      unfold instance_mesh_ids_from at 2. cbn [enumerate_from flat_map fst snd].
      f_equal. clear. generalize node_id.
      induction (sub_instances mesh) as [|o l IHl]; intros n; simpl; [reflexivity|].
      now rewrite IHl.
Qed.

Lemma generate_instance_data_spec (mesh_list : list InstSubMesh) :
  map inst_node (generate_instance_data mesh_list)
  = seq 1 (List.length (generate_instance_data mesh_list))
  /\ map inst_mesh (generate_instance_data mesh_list)
     = instance_mesh_ids_from 0 mesh_list.
Proof.
  unfold generate_instance_data, enumerate.
  destruct (instance_slots_outer mesh_list 0 [] 1) as (R & E & Hn & Hm).
  rewrite E. simpl. auto.
Qed.

Lemma instance_mesh_ids_length (mesh_list : list InstSubMesh) (s : nat) :
  List.length (instance_mesh_ids_from s mesh_list)
  = List.length (mesh_instances mesh_list).
Proof.
  revert s. unfold instance_mesh_ids_from, mesh_instances.
  induction mesh_list as [|mesh ml IH]; intros s; simpl; [reflexivity|].
  now rewrite !length_app, !length_map, IH.
Qed.

(** Slot [i] of the instance list and entry [i] of the nested loops speak
    of the same sub-mesh. *)
Lemma instance_mesh_ids_nth (mesh_list : list InstSubMesh) :
  forall (s i k : nat),
    nth_error (instance_mesh_ids_from s mesh_list) i = Some k ->
    s <= k
    /\ exists mi, nth_error (mesh_instances mesh_list) i = Some mi
                  /\ nth_error mesh_list (k - s) = Some (fst mi).
Proof.
  unfold instance_mesh_ids_from, mesh_instances.
  induction mesh_list as [|mesh ml IH]; intros s i k; cbn [enumerate_from flat_map fst snd].
  - destruct i; discriminate.
  - intros H.
    destruct (Nat.lt_ge_cases i (List.length (sub_instances mesh))) as [Hlt|Hge].
    + rewrite nth_error_app1 in H by now rewrite length_map.
      rewrite nth_error_app1 by now rewrite length_map.
      rewrite nth_error_map in H. rewrite nth_error_map.
      destruct (nth_error (sub_instances mesh) i) as [o|]; [|discriminate].
      simpl in H. injection H as <-. split; [lia|].
      eexists. split; [reflexivity|]. now rewrite Nat.sub_diag.
    + rewrite nth_error_app2 in H by now rewrite length_map.
      rewrite nth_error_app2 by now rewrite length_map.
      rewrite length_map in *.
      destruct (IH _ _ _ H) as (Hs & mi & E1 & E2).
      split; [lia|]. exists mi. split; [exact E1|].
      replace (k - s) with (S (k - S s)) by lia. exact E2.
Qed.

Lemma map_result_length {A B : Type} (f : A -> result B) (xs : list A) (ys : list B) :
  map_result f xs = Ok ys -> List.length ys = List.length xs.
Proof.
  revert ys. induction xs as [|x xs IH]; intros ys; simpl.
  - now intros [= <-].
  - destruct (f x) as [b|e]; [|discriminate]. simpl.
    destruct (map_result f xs) as [bs|e]; [|discriminate]. simpl.
    intros [= <-]. simpl. f_equal. now apply IH.
Qed.

Lemma map_result_nth {A B : Type} (f : A -> result B) (xs : list A) (ys : list B)
      (i : nat) (y : B) :
  map_result f xs = Ok ys -> nth_error ys i = Some y ->
  exists x, nth_error xs i = Some x /\ f x = Ok y.
Proof.
  revert ys i. induction xs as [|x xs IH]; intros ys i; simpl.
  - intros [= <-]. destruct i; discriminate.
  - destruct (f x) as [b|e] eqn:Ef; [|discriminate]. simpl.
    destruct (map_result f xs) as [bs|e]; [|discriminate]. simpl.
    intros [= <-]. destruct i as [|i]; simpl.
    + intros [= <-]. eauto.
    + intros H. eapply IH; eauto.
Qed.

(** What a successful export has computed, piece by piece. *)
Lemma HeirachyExporter_inv (env : Blender) (heirachy : ObjectHeirachy)
      (path_data : PathData) (fs : list fs_event) (doc : Model)
      (fs' : list fs_event) :
  HeirachyExporter env heirachy path_data fs = Ok (doc, fs') ->
  exists mesh_data_list node_data parent_list material_list mapping fs1 fs2,
    map_result (fun im : nat * InstSubMesh =>
                  MeshParser_init (sub_bmesh (snd im)) (fst im)
                                  (generate_uv_list heirachy))
               (enumerate (generate_mesh_list env heirachy)) = Ok mesh_data_list
    /\ generate_node_data (generate_mesh_list env heirachy)
       = Ok (node_data, parent_list)
    /\ export_mappings env heirachy (generate_mesh_list env heirachy) path_data fs
       = Ok (material_list, mapping, fs1)
    /\ for_each (fun fs mat =>
                   MaterialExporter env mat (generate_uv_list heirachy) path_data fs)
                material_list fs1 = Ok fs2
    /\ doc = mkModel 2 (root_node :: node_data)
                     ((-1)%Z :: map Z.of_nat parent_list) []
                     (map vert_data mesh_data_list) mesh_data_list
                     (generate_instance_data (generate_mesh_list env heirachy))
    /\ fs' = fs2 ++ [FileWrite (os_path_join (path_mesh path_data)
                                  (heirachy_name heirachy ++ ".json")%string)
                               (MainDocument doc)].
Proof.
  unfold HeirachyExporter. intros H.
  destruct (map_result _ (enumerate (generate_mesh_list env heirachy)))
    as [mdl|e] eqn:E1; [|discriminate].
  cbn [bind] in H.
  destruct (generate_node_data (generate_mesh_list env heirachy))
    as [[nd pl]|e] eqn:E2; [|discriminate].
  cbn [bind] in H.
  destruct (export_mappings env heirachy (generate_mesh_list env heirachy) path_data fs)
    as [[[ml mp] fs1]|e] eqn:E3; [|discriminate].
  cbn [bind] in H.
  destruct (for_each _ ml fs1) as [fs2|e] eqn:E4; [|discriminate].
  cbn [bind] in H. injection H as <- <-.
  exists mdl, nd, pl, ml, mp, fs1, fs2. repeat split; assumption.
Qed.

Lemma group_object_adds (env : Blender) (d : list (string * list Object))
      (obj : Object) :
  exists l,
    dict_get String.eqb (group_object env d obj) (mesh_name (grouping_mesh env obj))
    = Some l /\ In obj l.
Proof.
  unfold group_object. fold (grouping_mesh env obj).
  destruct (dict_get String.eqb d (mesh_name (grouping_mesh env obj))) as [l|];
    rewrite dict_get_set_str, String.eqb_refl; eexists; split; try reflexivity.
  - apply in_or_app. right. now left.
  - now left.
Qed.

Lemma group_object_keeps (env : Blender) (d : list (string * list Object))
      (obj o : Object) (key : string) (l : list Object) :
  dict_get String.eqb d key = Some l -> In o l ->
  exists l', dict_get String.eqb (group_object env d obj) key = Some l' /\ In o l'.
Proof.
  intros Hget Hin. unfold group_object. fold (grouping_mesh env obj).
  destruct (dict_get String.eqb d (mesh_name (grouping_mesh env obj))) as [l0|] eqn:E;
    rewrite dict_get_set_str;
    destruct (String.eqb (mesh_name (grouping_mesh env obj)) key) eqn:Ek;
    try (exists l; now split).
  - apply String.eqb_eq in Ek. rewrite Ek, Hget in E. injection E as <-.
    eexists. split; [reflexivity|]. apply in_or_app. now left.
  - apply String.eqb_eq in Ek. rewrite Ek, Hget in E. discriminate.
Qed.

Lemma raw_meshes_groups (env : Blender) (objs : list Object) :
  forall (d : list (string * list Object)) (o : Object),
    In o objs
    \/ (exists l, dict_get String.eqb d (mesh_name (grouping_mesh env o)) = Some l
                  /\ In o l) ->
    exists l,
      dict_get String.eqb (fold_left (group_object env) objs d)
               (mesh_name (grouping_mesh env o)) = Some l
      /\ In o l.
Proof.
  induction objs as [|obj objs IH]; intros d o H; simpl.
  - destruct H as [[]|H]. exact H.
  - apply IH. destruct H as [[->|H]|(l & Hl & Hin)].
    + right. apply group_object_adds.
    + now left.
    + right. eapply group_object_keeps; eauto.
Qed.

(** An object that is not a mesh is an instance of the placeholder. *)
Lemma placeholder_instance (env : Blender) (heirachy : ObjectHeirachy)
      (obj : Object) :
  In obj (objects heirachy) -> is_mesh_object obj = false ->
  exists sub,
    In sub (generate_mesh_list env heirachy)
    /\ In obj (sub_instances sub)
    /\ sub_bmesh sub = triangulate env (from_mesh (EMPTY_MESH env)).
Proof.
  intros Hobj Hnm.
  destruct (@raw_meshes_groups env (objects heirachy) [] obj (or_introl Hobj))
    as (l & Hget & Hin).
  assert (grouping_mesh env obj = EMPTY_MESH env) as Eg.
  { unfold grouping_mesh. unfold is_mesh_object in Hnm.
    destruct (obj_data obj); [reflexivity|discriminate|reflexivity]. }
  rewrite Eg in Hget. apply dict_get_In in Hget as (key & Hkey & Ek).
  apply String.eqb_eq in Ek. subst key.
  exists (new_mesh_name env, triangulate env (from_mesh (EMPTY_MESH env)), l).
  split; [|split; [exact Hin|reflexivity]].
  unfold generate_mesh_list. apply in_flat_map.
  exists (mesh_name (EMPTY_MESH env), l). split; [exact Hkey|].
  unfold lookup_mesh. simpl. rewrite String.eqb_refl. simpl. now left.
Qed.

Lemma generate_node_data_inv (mesh_list : list InstSubMesh)
      (node_data : list NodeRecord) (parent_list : list nat) :
  generate_node_data mesh_list = Ok (node_data, parent_list) ->
  node_data = map (fun mi => node_dict (snd mi)) (mesh_instances mesh_list)
  /\ map_result (fun mi => parent_id (map node_name node_data) (snd mi))
                (mesh_instances mesh_list) = Ok parent_list.
Proof.
  unfold generate_node_data. intros H.
  destruct (map_result _ (mesh_instances mesh_list)) as [pl|e] eqn:E; [|discriminate].
  cbn [bind] in H. injection H as <- <-. split; [reflexivity|exact E].
Qed.

Lemma node_dict_name (instance : Object) :
  node_name (node_dict instance) = obj_name instance.
Proof. unfold node_dict. now destruct (parent instance). Qed.

(** C9: in every emitted main document the node ids and the mesh-instance
    slots stay in lockstep: slot [i] names node [i + 1], there is one node
    and one parent entry per slot besides the root, and an object without
    mesh data occupies a slot whose mesh is the placeholder. *)
Theorem node_ids_lockstep (env : Blender) (heirachy : ObjectHeirachy)
        (path_data : PathData) (fs : list fs_event) (doc : Model)
        (fs' : list fs_event) :
  HeirachyExporter env heirachy path_data fs = Ok (doc, fs') ->
  (forall i r, nth_error (meshInstances doc) i = Some r -> inst_node r = i + 1)
  /\ List.length (nodes doc) = List.length (parents doc)
  /\ List.length (nodes doc) = List.length (meshInstances doc) + 1
  /\ (forall obj,
         In obj (objects heirachy) -> is_mesh_object obj = false ->
         exists i r node sub,
           nth_error (meshInstances doc) i = Some r
           /\ nth_error (nodes doc) (inst_node r) = Some node
           /\ node_name node = obj_name obj
           /\ nth_error (generate_mesh_list env heirachy) (inst_mesh r) = Some sub
           /\ sub_bmesh sub = triangulate env (from_mesh (EMPTY_MESH env))).
Proof.
  intros H.
  apply HeirachyExporter_inv in H
    as (mdl & nd & pl & mats & mapping & fs1 & fs2 & _ & Hnd & _ & _ & -> & _).
  apply generate_node_data_inv in Hnd as [-> Hpl].
  apply map_result_length in Hpl.
  set (ml := generate_mesh_list env heirachy) in *.
  destruct (generate_instance_data_spec ml) as [Hnode Hmesh].
  assert (List.length (generate_instance_data ml) = List.length (mesh_instances ml))
    as Hlen.
  { rewrite <- (length_map inst_mesh), Hmesh. apply instance_mesh_ids_length. }
  cbn [meshInstances nodes parents].
  assert (forall i r, nth_error (generate_instance_data ml) i = Some r ->
                      inst_node r = i + 1) as Hslot.
  { intros i r Hr.
    assert (nth_error (map inst_node (generate_instance_data ml)) i
            = Some (inst_node r)) as Hn by (rewrite nth_error_map, Hr; reflexivity).
    rewrite Hnode in Hn.
    assert (i < List.length (generate_instance_data ml)) as Hi
        by (apply nth_error_Some; congruence).
    rewrite nth_error_seq in Hn.
    destruct (Nat.ltb_spec i (List.length (generate_instance_data ml))); [|lia].
    injection Hn as <-. lia. }
  split; [exact Hslot|]. split; [|split].
  - simpl. rewrite !length_map, Hpl. reflexivity.
  - simpl. rewrite length_map, Hlen. lia.
  - intros obj Hobj Hnm.
    destruct (placeholder_instance env heirachy obj Hobj Hnm) as (sub & Hsub & Hin & Hbm).
    assert (In (sub, obj) (mesh_instances ml)) as Hpair.
    { unfold mesh_instances. apply in_flat_map. exists sub. split; [exact Hsub|].
      apply in_map_iff. exists obj. now split. }
    apply In_nth_error in Hpair as [i Hi].
    assert (i < List.length (generate_instance_data ml)) as Hlt.
    { rewrite Hlen. apply nth_error_Some. congruence. }
    destruct (nth_error (generate_instance_data ml) i) as [r|] eqn:Er;
      [|apply nth_error_None in Er; lia].
    exists i, r, (node_dict obj), sub.
    split; [exact Er|]. rewrite (Hslot i r Er).
    split; [|split; [apply node_dict_name|split; [|exact Hbm]]].
    + rewrite Nat.add_1_r. simpl. rewrite nth_error_map, Hi. reflexivity.
    + assert (nth_error (instance_mesh_ids_from 0 ml) i = Some (inst_mesh r)) as Hk
          by (rewrite <- Hmesh, nth_error_map, Er; reflexivity).
      apply instance_mesh_ids_nth in Hk as (_ & mi & E1 & E2).
      rewrite Hi in E1. injection E1 as <-. rewrite Nat.sub_0_r in E2. exact E2.
Qed.

(** ** Hierarchy exporter: parent indices *)

Lemma parent_id_spec (names : list string) (instance : Object) (p : nat) :
  parent_id names instance = Ok p ->
  p = 0
  \/ exists par,
      parent instance = Some par
      /\ 1 <= p <= List.length names
      /\ nth_error names (p - 1) = Some (obj_name par)
      /\ forall j, j < p - 1 -> nth_error names j <> Some (obj_name par).
Proof.
  unfold parent_id. destruct (parent instance) as [par|]; [|intros [= <-]; now left].
  destruct (str_in (obj_name par) names); [|intros [= <-]; now left].
  unfold list_index.
  destruct (index_from 0 (obj_name par) names) as [i|e] eqn:E; [|discriminate].
  cbn [bind]. intros [= <-]. right. exists par.
  apply index_from_first in E as (_ & Hn & Hf). rewrite Nat.sub_0_r in Hn, Hf.
  assert (i < List.length names) by (apply nth_error_Some; congruence).
  replace (i + 1 - 1) with i by lia.
  split; [reflexivity|]. split; [lia|]. split; assumption.
Qed.

Lemma str_in_In (s : string) (xs : list string) : str_in s xs = true -> In s xs.
Proof.
  unfold str_in. intros H. apply existsb_exists in H as (x & Hx & E).
  apply String.eqb_eq in E. now subst.
Qed.

(** [generate_node_data] never raises: [index] is only called on a name
    that is in the list. *)
Lemma generate_node_data_total (mesh_list : list InstSubMesh) :
  exists node_data parent_list,
    generate_node_data mesh_list = Ok (node_data, parent_list).
Proof.
  unfold generate_node_data.
  set (names := map node_name _).
  assert (forall xs : list (InstSubMesh * Object),
             exists pl, map_result (fun mi => parent_id names (snd mi)) xs = Ok pl) as H.
  { induction xs as [|x xs [pl IH]]; simpl; [eauto|].
    assert (exists p, parent_id names (snd x) = Ok p) as [p Hp].
    { unfold parent_id. destruct (parent (snd x)) as [par|]; [|eauto].
      destruct (str_in (obj_name par) names) eqn:E; [|eauto].
      apply str_in_In in E. unfold list_index.
      destruct (@index_from_ok _ _ 0 E) as [i Hi]. rewrite Hi. simpl. eauto. }
    rewrite Hp, IH. simpl. eauto. }
  destruct (H (mesh_instances mesh_list)) as [pl Hpl].
  rewrite Hpl. simpl. eauto.
Qed.

(** C3, as the code has it: [parents[0]] is [-1]; every later entry is
    either [0] or the index of a node of the document, the first one that
    carries the name of the instance's parent.  That node may come after
    the instance. *)
Theorem parents_refer_to_nodes (env : Blender) (heirachy : ObjectHeirachy)
        (path_data : PathData) (fs : list fs_event) (doc : Model)
        (fs' : list fs_event) :
  HeirachyExporter env heirachy path_data fs = Ok (doc, fs') ->
  nth_error (parents doc) 0 = Some (-1)%Z
  /\ forall i p,
      nth_error (parents doc) (S i) = Some p ->
      exists mi,
        nth_error (mesh_instances (generate_mesh_list env heirachy)) i = Some mi
        /\ (p = 0%Z
            \/ exists par node,
                parent (snd mi) = Some par
                /\ (1 <= p < Z.of_nat (List.length (nodes doc)))%Z
                /\ nth_error (nodes doc) (Z.to_nat p) = Some node
                /\ node_name node = obj_name par
                /\ forall j node',
                    1 <= j < Z.to_nat p ->
                    nth_error (nodes doc) j = Some node' ->
                    node_name node' <> obj_name par).
Proof.
  intros H.
  apply HeirachyExporter_inv in H
    as (mdl & nd & pl & mats & mapping & fs1 & fs2 & _ & Hnd & _ & _ & -> & _).
  apply generate_node_data_inv in Hnd as [Hnodes Hpl].
  cbn [parents nodes]. split; [reflexivity|].
  intros i p Hp. simpl in Hp. rewrite nth_error_map in Hp.
  destruct (nth_error pl i) as [q|] eqn:Eq; [|discriminate].
  injection Hp as <-.
  destruct (map_result_nth _ _ _ Hpl Eq) as (mi & Hmi & Hq).
  exists mi. split; [exact Hmi|].
  apply parent_id_spec in Hq as [->|(par & Hpar & Hrange & Hnth & Hfirst)];
    [now left|right].
  rewrite length_map in Hrange.
  rewrite nth_error_map in Hnth.
  destruct (nth_error nd (q - 1)) as [node|] eqn:En; [|discriminate].
  injection Hnth as Hname.
  exists par, node. split; [exact Hpar|]. split; [simpl; lia|].
  rewrite Nat2Z.id. split; [|split; [exact Hname|]].
  - destruct q as [|q]; [lia|]. replace (S q - 1) with q in En by lia. exact En.
  - intros j node' Hj Hnode' Hsame.
    destruct j as [|j]; [lia|]. simpl in Hnode'.
    apply (Hfirst j); [lia|]. rewrite nth_error_map, Hnode'. simpl. now rewrite Hsame.
Qed.

(** ** Bounding box *)

Lemma float_le_trans (a b c : efloat) : float_le a b -> float_le b c -> float_le a c.
Proof.
  unfold float_le, float_lt. destruct a as [p|], b as [q|], c as [r|];
    try discriminate; try reflexivity.
  intros H1 H2. apply negb_false_iff in H1, H2. apply negb_false_iff.
  apply Qle_bool_iff in H1, H2. apply Qle_bool_iff. eapply Qle_trans; eauto.
Qed.

Lemma float_le_refl (a : efloat) : float_le a a.
Proof.
  unfold float_le, float_lt. destruct a as [p|]; [|reflexivity].
  apply negb_false_iff, Qle_bool_iff, Qle_refl.
Qed.

Lemma py_min_spec (x : float) (m : efloat) :
  let r := py_min (Finite x) m in
  float_le r (Finite x) /\ float_le r m /\ (r = m \/ r = Finite x).
Proof.
  unfold py_min. destruct (float_lt m (Finite x)) eqn:E.
  - split; [|split; [apply float_le_refl|now left]].
    unfold float_le, float_lt. destruct m as [p|]; [|discriminate].
    simpl in E. apply negb_true_iff in E. apply negb_false_iff, Qle_bool_iff.
    apply Qlt_le_weak, Qnot_le_lt. intros C. apply Qle_bool_iff in C. congruence.
  - split; [apply float_le_refl|]. split; [exact E|now right].
Qed.

(** The assignment [maxpos[i] = max(vert.co, minpos[i])] stores the
    coordinate of the current vertex, whatever [maxpos[i]] held. *)
Lemma py_max_after_min (x : float) (m : efloat) :
  py_max (Finite x) (py_min (Finite x) m) = Finite x.
Proof.
  destruct (py_min_spec x m) as (H & _ & _). unfold float_le in H.
  unfold py_max. now rewrite H.
Qed.

Lemma extend_extents_max (e : Extents) (l : BMLoop) :
  maxpos0 (extend_extents e l) = Finite (vx (co (vert l)))
  /\ maxpos1 (extend_extents e l) = Finite (vy (co (vert l)))
  /\ maxpos2 (extend_extents e l) = Finite (vz (co (vert l))).
Proof. unfold extend_extents. simpl. now rewrite !py_max_after_min. Qed.

Lemma fold_left_flat_map {A B S : Type} (f : S -> B -> S) (g : A -> list B)
      (xs : list A) (s : S) :
  fold_left (fun s a => fold_left f (g a) s) xs s = fold_left f (flat_map g xs) s.
Proof.
  revert s. induction xs as [|a xs IH]; intros s; simpl; [reflexivity|].
  now rewrite fold_left_app, IH.
Qed.

(** What [calculate_bounding_box] reports as the maximum is the position of
    the last corner of the last face. *)
Lemma bounding_box_max_last_corner (mesh : BMesh) (ls : list BMLoop) (l : BMLoop) :
  flat_map loops (faces mesh) = ls ++ [l] ->
  bb_max (calculate_bounding_box mesh)
  = [Finite (vx (co (vert l))); Finite (vy (co (vert l))); Finite (vz (co (vert l)))].
Proof.
  intros H. unfold calculate_bounding_box.
  destruct (faces mesh) as [|f fs] eqn:Ef.
  - destruct ls; discriminate.
  - rewrite fold_left_flat_map, H, fold_left_app. cbn [fold_left bb_max].
    destruct (extend_extents_max
                (fold_left extend_extents ls (mkExtents Inf Inf Inf Inf Inf Inf)) l)
      as (-> & -> & ->).
    reflexivity.
Qed.

Lemma running_min_spec (c : BMLoop -> float) (ls : list BMLoop) :
  forall m,
    let r := running_min c ls m in
    float_le r m
    /\ (forall l, In l ls -> float_le r (Finite (c l)))
    /\ (r = m \/ exists l, In l ls /\ r = Finite (c l)).
Proof.
  unfold running_min. induction ls as [|l ls IH]; intros m; simpl.
  - split; [apply float_le_refl|]. split; [intros ? []|now left].
  - destruct (IH (py_min (Finite (c l)) m)) as (H1 & H2 & H3).
    destruct (py_min_spec (c l) m) as (P1 & P2 & P3).
    split; [eapply float_le_trans; eauto|]. split.
    + intros l' [<-|Hl']; [eapply float_le_trans; eauto|now apply H2].
    + destruct H3 as [->|(l' & Hl' & ->)].
      * destruct P3 as [->| ->]; [now left|right; eauto].
      * right. eauto.
Qed.

Lemma extents_min (ls : list BMLoop) (e : Extents) :
  minpos0 (fold_left extend_extents ls e)
  = running_min (fun l => vx (co (vert l))) ls (minpos0 e)
  /\ minpos1 (fold_left extend_extents ls e)
     = running_min (fun l => vy (co (vert l))) ls (minpos1 e)
  /\ minpos2 (fold_left extend_extents ls e)
     = running_min (fun l => vz (co (vert l))) ls (minpos2 e).
Proof.
  revert e. induction ls as [|l ls IH]; intros e; simpl; [auto|].
  destruct (IH (extend_extents e l)) as (-> & -> & ->). auto.
Qed.

(** The minimum is right: on a mesh with a corner, [min] is, per axis, a
    coordinate of some corner's vertex and a lower bound of them all. *)
Lemma bounding_box_min_correct (mesh : BMesh) (l0 : BMLoop) :
  In l0 (flat_map loops (faces mesh)) ->
  exists mx my mz,
    bb_min (calculate_bounding_box mesh) = [Finite mx; Finite my; Finite mz]
    /\ (exists l, In l (flat_map loops (faces mesh)) /\ mx = vx (co (vert l)))
    /\ (exists l, In l (flat_map loops (faces mesh)) /\ my = vy (co (vert l)))
    /\ (exists l, In l (flat_map loops (faces mesh)) /\ mz = vz (co (vert l)))
    /\ forall l, In l (flat_map loops (faces mesh)) ->
                 (mx <= vx (co (vert l)) /\ my <= vy (co (vert l))
                  /\ mz <= vz (co (vert l)))%Q.
Proof.
  intros Hl0. unfold calculate_bounding_box.
  destruct (faces mesh) as [|f fs] eqn:Ef; [contradiction|].
  rewrite <- Ef in *. rewrite fold_left_flat_map.
  set (L := flat_map loops (faces mesh)) in *.
  destruct (extents_min L (mkExtents Inf Inf Inf Inf Inf Inf)) as (E0 & E1 & E2).
  cbn [bb_min minpos0 minpos1 minpos2] in *. rewrite E0, E1, E2.
  assert (forall c, exists q,
             running_min c L Inf = Finite q
             /\ (exists l, In l L /\ q = c l)
             /\ forall l, In l L -> (q <= c l)%Q) as Hmin.
  { intros c. destruct (running_min_spec c L Inf) as (_ & H2 & H3).
    destruct H3 as [E|(l & Hl & E)].
    - specialize (H2 l0 Hl0). rewrite E in H2. discriminate.
    - exists (c l). split; [exact E|]. split; [eauto|].
      intros l' Hl'. specialize (H2 l' Hl'). rewrite E in H2.
      unfold float_le, float_lt in H2. apply negb_false_iff in H2.
      now apply Qle_bool_iff. }
  destruct (Hmin (fun l => vx (co (vert l)))) as (mx & -> & Hx & Bx).
  destruct (Hmin (fun l => vy (co (vert l)))) as (my & -> & Hy & By).
  destruct (Hmin (fun l => vz (co (vert l)))) as (mz & -> & Hz & Bz).
  exists mx, my, mz. repeat split; auto.
Qed.

Lemma bounding_box_no_faces (mesh : BMesh) :
  faces mesh = [] ->
  calculate_bounding_box mesh
  = mkBoundingBox [Finite 0; Finite 0; Finite 0] [Finite 0; Finite 0; Finite 0].
Proof. intros H. unfold calculate_bounding_box. now rewrite H. Qed.

(** C8, where the code departs from it: on the triangle whose first corner
    is at [x = 1] and whose other corners are at the origin, the reported
    maximum is the origin, below the first corner. *)
Theorem bounding_box_max_misses_vertex :
  calculate_bounding_box one_triangle
  = mkBoundingBox [Finite 0; Finite 0; Finite 0] [Finite 0; Finite 0; Finite 0]
  /\ exists f l, In f (faces one_triangle) /\ In l (loops f)
                 /\ (0 < vx (co (vert l)))%Q.
Proof.
  split; [vm_compute; reflexivity|].
  exists (triangle 0 0 vert_a vert_b vert_c), (corner vert_a).
  split; [now left|]. split; [now left|]. reflexivity.
Qed.

(** ** Node transforms *)

Lemma node_dict_parentless (instance : Object) :
  parent instance = None ->
  position (node_dict instance) = [0; 0; 0]%Q
  /\ rotation (node_dict instance) = [0; 0; 0]%Q
  /\ node_scale (node_dict instance) = vec_list (scale instance).
Proof. intros H. unfold node_dict. rewrite H. auto. Qed.

(** C6, where the code departs from it: the empty [Root] has no parent and
    scale 2; its node record has position and rotation zero but scale
    [[2, 2, 2]], not [[1, 1, 1]]. *)
Theorem parentless_node_keeps_scale :
  exists doc fs' node,
    HeirachyExporter sample_env child_first sample_paths [] = Ok (doc, fs')
    /\ nth_error (nodes doc) 2 = Some node
    /\ node_name node = obj_name Root
    /\ parent Root = None
    /\ position node = [0; 0; 0]%Q
    /\ rotation node = [0; 0; 0]%Q
    /\ node_scale node = [2; 2; 2]%Q.
Proof.
  do 3 eexists. split; [vm_compute; reflexivity|].
  split; [reflexivity|]. repeat split.
Qed.

(** ** UV layer registry *)

Lemma file_uvs_from (uv_list : list string) (entries : list (string * list scalar)) :
  forall vd vd' : vert_data_t,
    file_uvs uv_list entries vd = Ok vd' ->
    forall k a, In (k, a) vd' ->
      (exists a', In (k, a') vd)
      \/ exists u arr N, In (u, arr) entries
                         /\ list_index uv_list u = Ok N /\ k = TexCoord N.
Proof.
  unfold file_uvs.
  induction entries as [|[u arr] entries IH]; intros vd vd'; cbn [for_each].
  - intros [= <-] k a Hin. left. eauto.
  - destruct (list_index uv_list u) as [N|e] eqn:EN; [|discriminate].
    cbn [bind]. intros H k a Hin.
    destruct (IH _ _ H k a Hin) as [[a' Ha']|(u' & arr' & N' & H1 & H2 & H3)].
    + apply dict_set_key_from in Ha' as [->|Ha']; [|now left].
      right. exists u, arr, N. split; [now left|]. now split.
    + right. exists u', arr', N'. split; [now right|]. now split.
Qed.

Lemma MeshParser_texcoord (mesh : BMesh) (id_num : nat) (uv_list : list string)
      (mp : MeshParser) (N : nat) (a : Attribute) :
  MeshParser_init mesh id_num uv_list = Ok mp ->
  In (TexCoord N, a) (vert_data mp) ->
  exists u, In u (uv_layers mesh) /\ list_index uv_list u = Ok N.
Proof.
  unfold MeshParser_init, update_mesh_data. intros H Hin.
  destruct (flatten_arrays_ok mesh) as (fa & Efa & Hsized & _ & _).
  destruct Hsized as (_ & _ & Hu1 & _ & _).
  rewrite Efa in H. cbn [bind] in H.
  destruct (file_uvs uv_list (uvdata fa) _) as [vd|e] eqn:E; [|discriminate].
  cbn [bind] in H. injection H as <-. cbn [vert_data] in Hin.
  destruct (file_uvs_from _ _ _ E _ _ Hin)
    as [[a' Ha']|(u & arr & N' & H1 & H2 & [= ->])].
  - exfalso. destruct (vertcollist fa).
    + apply dict_set_key_from in Ha' as [[=]|[a'' [[=]|[[=]|[]]]]].
    + destruct Ha' as [[=]|[[=]|[]]].
  - exists u. split; [|exact H2]. now apply (Hu1 u arr).
Qed.

Lemma generate_uv_list_concat (heirachy : ObjectHeirachy) :
  generate_uv_list heirachy
  = List.concat (map object_uv_layers (objects heirachy)).
Proof. unfold generate_uv_list. now rewrite flat_map_concat_map. Qed.

(** C7, as the code has it: the registry is the UV-layer names of the
    hierarchy's mesh objects in object order, one entry per object and
    layer, and the suffix [N] of every emitted [texCoord{N}] is the first
    position in the registry of the name of a UV layer of that sub-mesh. *)
Theorem uv_registry_positions (env : Blender) (heirachy : ObjectHeirachy)
        (path_data : PathData) (fs : list fs_event) (doc : Model)
        (fs' : list fs_event) :
  HeirachyExporter env heirachy path_data fs = Ok (doc, fs') ->
  generate_uv_list heirachy = List.concat (map object_uv_layers (objects heirachy))
  /\ (forall u, In u (generate_uv_list heirachy) <->
                exists obj m, In obj (objects heirachy)
                              /\ obj_data obj = DataMesh m
                              /\ In u (uv_layers (mesh_geometry m)))
  /\ forall k mp N a,
      nth_error (meshes doc) k = Some mp ->
      In (TexCoord N, a) (vert_data mp) ->
      exists u sub,
        nth_error (generate_mesh_list env heirachy) k = Some sub
        /\ In u (uv_layers (sub_bmesh sub))
        /\ nth_error (generate_uv_list heirachy) N = Some u
        /\ forall j, j < N -> nth_error (generate_uv_list heirachy) j <> Some u.
Proof.
  intros H. split; [apply generate_uv_list_concat|]. split.
  - intros u. unfold generate_uv_list. rewrite in_flat_map. split.
    + intros (obj & Hobj & Hu). destruct (obj_data obj) as [|m|] eqn:Ed;
        try contradiction. eauto.
    + intros (obj & m & Hobj & Ed & Hu). exists obj. split; [exact Hobj|].
      now rewrite Ed.
  - apply HeirachyExporter_inv in H
      as (mdl & nd & pl & mats & mapping & fs1 & fs2 & Hmdl & _ & _ & _ & -> & _).
    cbn [meshes]. intros k mp N a Hk Hin.
    destruct (map_result_nth _ _ _ Hmdl Hk) as ([k' sub] & Hsub & Hmp).
    cbn [fst snd] in Hmp.
    assert (nth_error (generate_mesh_list env heirachy) k = Some sub) as Hsub'.
    { assert (nth_error (map snd (enumerate (generate_mesh_list env heirachy))) k
              = Some sub) as E by (rewrite nth_error_map, Hsub; reflexivity).
      unfold enumerate in E. now rewrite enumerate_from_snd in E. }
    destruct (@MeshParser_texcoord _ _ _ _ N a Hmp Hin) as (u & Hu & Hidx).
    apply index_from_first in Hidx as (_ & Hn & Hf). rewrite Nat.sub_0_r in Hn, Hf.
    exists u, sub. repeat split; assumption.
Qed.

(** C7 as stated fails: two mesh objects that both have a layer called
    [UVMap] put that name into the registry twice. *)
Lemma uv_registry_repeats :
  generate_uv_list two_meshes = ["UVMap"%string; "UVMap"%string]
  /\ ~ NoDup (generate_uv_list two_meshes)
  /\ count_occ string_dec (generate_uv_list two_meshes) "UVMap"%string = 2.
Proof.
  split; [reflexivity|]. split; [|reflexivity].
  intros H. inversion H as [|? ? Hnotin _]. apply Hnotin. now left.
Qed.

(** ** Mapping document *)

Lemma separate_instances (tri : BMesh -> BMesh) (Inst : Type) (mesh : Mesh)
      (obj : Inst) (sub : SubMesh Inst) :
  In sub (separate_mesh_by_material tri mesh obj) -> sub_instances sub = obj.
Proof.
  unfold separate_mesh_by_material. destruct (materials mesh) as [|m ms].
  - intros [<-|[]]. reflexivity.
  - intros H. apply in_flat_map in H as ([k mat] & _ & H).
    rewrite split_material_pruned in H.
    destruct (verts (pruned (tri (from_mesh mesh)) k)); [contradiction|].
    destruct H as [<-|[]]. reflexivity.
Qed.

(** A sub-mesh that keeps a vertex keeps a face. *)
Lemma pruned_verts_faces (old_mesh : BMesh) (mat_id : nat) :
  verts (pruned old_mesh mat_id) <> [] -> faces (pruned old_mesh mat_id) <> [].
Proof.
  rewrite pruned_verts. intros Hv.
  set (nm := fold_left faces_remove _ old_mesh) in *.
  destruct (filter _ (verts old_mesh)) as [|w ws] eqn:Ew; [contradiction|].
  assert (In w (filter (fun w => negb (in_no_face nm w)) (verts old_mesh))) as Hw
      by (rewrite Ew; now left).
  apply filter_In in Hw as [_ Hw]. apply negb_true_iff in Hw.
  unfold in_no_face in Hw. apply negb_false_iff in Hw.
  apply existsb_exists in Hw as (f & Hf & Hwf).
  assert (In f (faces (pruned old_mesh mat_id))) as Hin.
  { unfold pruned. fold nm. rewrite fold_verts_remove. simpl.
    apply filter_In. split; [exact Hf|].
    apply negb_true_iff. destruct (existsb _ _) eqn:Ex; [|reflexivity].
    apply existsb_exists in Ex as (v & Hv' & Hvf).
    rewrite isolated_verts_filter in Hv'. apply filter_In in Hv' as [_ Hiso].
    unfold in_no_face in Hiso. apply negb_true_iff in Hiso.
    assert (existsb (fun f0 => vert_in v (face_verts f0)) (faces nm) = true) as C
        by (apply existsb_exists; eauto).
    congruence. }
  intros E. rewrite E in Hin. exact Hin.
Qed.

Lemma raw_meshes_entries (env : Blender) (objs : list Object) :
  forall d : list (string * list Object),
    (forall key l, In (key, l) d ->
                   l <> [] /\ forall o, In o l ->
                                        mesh_name (grouping_mesh env o) = key) ->
    forall key l,
      In (key, l) (fold_left (group_object env) objs d) ->
      l <> []
      /\ forall o, In o l ->
                   mesh_name (grouping_mesh env o) = key
                   /\ (In o objs \/ exists l0, In (key, l0) d /\ In o l0).
Proof.
  induction objs as [|obj objs IH]; intros d Hd key l Hin; simpl in Hin.
  - destruct (Hd key l Hin) as [Hne Hk]. split; [exact Hne|].
    intros o Ho. split; [now apply Hk|]. right. eauto.
  - assert (forall key l,
               In (key, l) (group_object env d obj) ->
               l <> []
               /\ forall o, In o l ->
                            mesh_name (grouping_mesh env o) = key
                            /\ (o = obj \/ exists l0, In (key, l0) d /\ In o l0))
      as Hstep.
    { intros key' l' Hin'. unfold group_object in Hin'.
      fold (grouping_mesh env obj) in Hin'.
      destruct (dict_get String.eqb d (mesh_name (grouping_mesh env obj)))
        as [l0|] eqn:Eg;
        apply dict_set_In in Hin' as [[= -> ->]|Hin'].
      - apply dict_get_In in Eg as (k0 & Hk0 & Ek). apply String.eqb_eq in Ek.
        subst k0. destruct (Hd _ _ Hk0) as [Hne Hk].
        split; [now destruct l0|].
        intros o Ho. apply in_app_or in Ho as [Ho|[<-|[]]].
        + split; [now apply Hk|]. right. eauto.
        + split; [reflexivity|now left].
      - destruct (Hd _ _ Hin') as [Hne Hk]. split; [exact Hne|].
        intros o Ho. split; [now apply Hk|]. right. eauto.
      - split; [discriminate|]. intros o [<-|[]]. split; [reflexivity|now left].
      - destruct (Hd _ _ Hin') as [Hne Hk]. split; [exact Hne|].
        intros o Ho. split; [now apply Hk|]. right. eauto. }
    destruct (IH (group_object env d obj)) with (key := key) (l := l)
      as [Hne Hk]; [|exact Hin|].
    { intros key' l' Hin'. destruct (Hstep key' l' Hin') as [Hne' Hk'].
      split; [exact Hne'|]. intros o Ho. now apply Hk'. }
    split; [exact Hne|]. intros o Ho.
    destruct (Hk o Ho) as [Hname [Hobjs|(l0 & Hl0 & Ho0)]].
    + split; [exact Hname|]. left. now right.
    + split; [exact Hname|].
      destruct (Hstep key l0 Hl0) as [_ Hk0].
      destruct (Hk0 o Ho0) as [_ [->|Hold]]; [left; now left|now right].
Qed.

Lemma mesh_list_readable (env : Blender) (heirachy : ObjectHeirachy) :
  db_consistent env heirachy -> keeps_faces (triangulate env) ->
  forall sub, In sub (generate_mesh_list env heirachy) -> readable sub.
Proof.
  intros Hdb Htri sub Hsub. unfold generate_mesh_list in Hsub.
  apply in_flat_map in Hsub as ([key l] & Hkl & Hsub).
  destruct (@raw_meshes_entries env (objects heirachy) []) with (key := key) (l := l)
    as [Hne Hk]; [intros ? ? []|exact Hkl|].
  pose proof (separate_instances _ _ _ _ Hsub) as Hinst.
  unfold readable. rewrite Hinst. split; [exact Hne|].
  unfold has_materials. rewrite Hinst.
  destruct l as [|first l]; [congruence|].
  destruct (Hk first (or_introl eq_refl)) as [Hname [Hobj|(l0 & [] & _)]].
  unfold grouping_mesh in Hname.
  destruct (obj_data first) as [|m|oname [ms|]] eqn:Ed; simpl; try discriminate.
  - (* a mesh object: the sub-mesh is cut from its own mesh *)
    rewrite <- Hname in Hsub. rewrite (Hdb first m Hobj Ed) in Hsub.
    unfold separate_mesh_by_material in Hsub.
    destruct (materials m) as [|m0 ms0] eqn:Em; [discriminate|]. intros _.
    apply in_flat_map in Hsub as ([k mat] & _ & Hsub).
    rewrite split_material_pruned in Hsub.
    destruct (verts (pruned (triangulate env (from_mesh m)) k)) eqn:Ev;
      [contradiction|].
    destruct Hsub as [<-|[]]. cbn [sub_bmesh fst snd].
    apply pruned_verts_faces. now rewrite Ev.
  - (* another datablock with materials: the sub-mesh is the placeholder *)
    destruct ms as [|m0 ms0]; [discriminate|]. intros _.
    rewrite <- Hname in Hsub. unfold lookup_mesh in Hsub.
    cbn [EMPTY_MESH mesh_name] in Hsub. rewrite String.eqb_refl in Hsub.
    destruct Hsub as [<-|[]]. cbn [sub_bmesh fst snd].
    apply Htri. discriminate.
Qed.

(** One step of the mapping loop: the path it appends. *)
Lemma map_mesh_path (path_data : PathData) (rel : string) (st st' : MappingState)
      (sub : InstSubMesh) :
  map_mesh path_data rel st sub = Ok st' ->
  exists path,
    ms_mapping st' = ms_mapping st ++ [path] /\ mapping_path_ok rel sub path.
Proof.
  unfold map_mesh, mapping_path_ok, has_materials, first_face_material.
  destruct (sub_instances sub) as [|first rest]; [discriminate|]. cbn [bind].
  destruct (data_materials (obj_data first)) as [|m0 ms0] eqn:Em.
  - intros [= <-]. cbn. eexists. split; [reflexivity|]. now left.
  - destruct (faces (sub_bmesh sub)) as [|face fs].
    + destruct (ms_mat_id st) as [i|]; [|discriminate]. cbn [bind].
      destruct (list_get (m0 :: ms0) i) as [mat|e]; [|discriminate].
      cbn [bind]. intros [= <-]. cbn. eexists. split; [reflexivity|].
      right. split; [reflexivity|]. intros C. now destruct C.
    + cbn [bind]. unfold list_get. rewrite <- Em.
      destruct (nth_error (data_materials (obj_data first)) (material_index face))
        as [mat|] eqn:En; [|discriminate].
      cbn [bind]. intros [= <-]. cbn. eexists. split; [reflexivity|].
      right. split; [reflexivity|]. intros _. eauto.
Qed.

Lemma for_each_map_mesh_paths (path_data : PathData) (rel : string)
      (subs : list InstSubMesh) :
  forall st st' : MappingState,
    for_each (map_mesh path_data rel) subs st = Ok st' ->
    exists paths,
      ms_mapping st' = ms_mapping st ++ paths
      /\ Forall2 (mapping_path_ok rel) subs paths.
Proof.
  induction subs as [|sub subs IH]; intros st st'; cbn [for_each].
  - intros [= <-]. exists []. rewrite app_nil_r. split; [reflexivity|constructor].
  - destruct (map_mesh path_data rel st sub) as [st1|e] eqn:E1; [|discriminate].
    cbn [bind]. intros H.
    apply map_mesh_path in E1 as (path & Hp & Hok).
    apply IH in H as (paths & Hps & Hoks).
    exists (path :: paths). split; [|now constructor].
    rewrite Hps, Hp, <- app_assoc. reflexivity.
Qed.

(** One step of the mapping loop on a readable sub-mesh: the material it
    records and the files it writes. *)
Lemma map_mesh_spec (path_data : PathData) (rel : string) (st st' : MappingState)
      (sub : InstSubMesh) :
  readable sub ->
  map_mesh path_data rel st sub = Ok st' ->
  ms_materials st'
  = fold_left (fun d m => dict_set String.eqb d (mat_name m) m)
              (used_materials [sub]) (ms_materials st)
  /\ exists ext, ms_fs st' = ms_fs st ++ ext /\ written_material_names ext = [].
Proof.
  intros [Hinst Hface]. unfold map_mesh, used_materials.
  unfold has_materials, first_face_material in *. cbn [flat_map].
  destruct (sub_instances sub) as [|first rest]; [congruence|]. cbn [bind].
  destruct (data_materials (obj_data first)) as [|m0 ms0] eqn:Em.
  - intros [= <-]. cbn. split; [reflexivity|]. unfold export_dummy_material.
    eexists. split; [reflexivity|]. reflexivity.
  - destruct (faces (sub_bmesh sub)) as [|face fs]; [now destruct Hface|].
    cbn [bind]. unfold list_get. rewrite <- Em.
    destruct (nth_error (data_materials (obj_data first)) (material_index face))
      as [mat|] eqn:En; [|discriminate].
    cbn [bind]. intros [= <-]. cbn. split; [reflexivity|].
    exists []. now rewrite app_nil_r.
Qed.

Lemma used_materials_app (xs ys : list InstSubMesh) :
  used_materials (xs ++ ys) = used_materials xs ++ used_materials ys.
Proof. unfold used_materials. apply flat_map_app. Qed.

Lemma written_material_names_app (xs ys : list fs_event) :
  written_material_names (xs ++ ys)
  = written_material_names xs ++ written_material_names ys.
Proof. unfold written_material_names. apply flat_map_app. Qed.

Lemma for_each_map_mesh (path_data : PathData) (rel : string)
      (subs : list InstSubMesh) :
  forall st st' : MappingState,
    (forall sub, In sub subs -> readable sub) ->
    for_each (map_mesh path_data rel) subs st = Ok st' ->
    ms_materials st'
    = fold_left (fun d m => dict_set String.eqb d (mat_name m) m)
                (used_materials subs) (ms_materials st)
    /\ exists ext, ms_fs st' = ms_fs st ++ ext /\ written_material_names ext = [].
Proof.
  induction subs as [|sub subs IH]; intros st st' Hr; cbn [for_each].
  - intros [= <-]. split; [reflexivity|]. exists []. now rewrite app_nil_r.
  - destruct (map_mesh path_data rel st sub) as [st1|e] eqn:E1; [|discriminate].
    cbn [bind]. intros H.
    destruct (map_mesh_spec _ _ _ (Hr sub (or_introl eq_refl)) E1)
      as (Hm & ext1 & Hfs1 & Hw1).
    destruct (IH st1 st' (fun s Hs => Hr s (or_intror Hs)) H)
      as (Hms & ext2 & Hfs2 & Hw2).
    split.
    + rewrite Hms, Hm. change (sub :: subs) with ([sub] ++ subs).
      now rewrite used_materials_app, fold_left_app.
    + exists (ext1 ++ ext2). split.
      * rewrite Hfs2, Hfs1, <- app_assoc. reflexivity.
      * now rewrite written_material_names_app, Hw1, Hw2.
Qed.

(** ** Material descriptors *)

Lemma named_jset (n k : string) (v : json) (d : jdict) :
  String.eqb k "name" = false -> named n d -> named n (jset d k v).
Proof.
  unfold named, jset. intros Hk Hd. now rewrite dict_get_set_str, Hk.
Qed.

Lemma named_if (n : string) (b : bool) (d1 d2 : jdict) :
  named n d1 -> named n d2 -> named n (if b then d1 else d2).
Proof. now destruct b. Qed.

(** Keeps the name through the assignments of other keys. *)
Ltac keep_name :=
  repeat first [ assumption
               | apply named_if
               | apply named_jset; [reflexivity|] ].

Lemma parse_basic_properties_named (n : string) (mat : Material) (self : jdict) :
  named n self -> named n (parse_basic_properties mat self).
Proof. intros H. unfold parse_basic_properties. cbv zeta. keep_name. Qed.

Lemma parse_image_spec (n : string) (mat : Material) (uv_list : list string)
      (path_data : PathData) (dir : string) (self self' : jdict)
      (fs fs' : list fs_event) (slot : nat * option TextureSlot) :
  named n self ->
  parse_image mat uv_list path_data dir (self, fs) slot = Ok (self', fs') ->
  named n self'
  /\ exists ext, fs' = fs ++ ext /\ written_material_names ext = [].
Proof.
  intros Hn. unfold parse_image. destruct slot as [tex_id [tex|]].
  2:{ intros [= <- <-]. split; [exact Hn|]. exists []. now rewrite app_nil_r. }
  destruct (negb (String.eqb (texture_type tex) "IMAGE")).
  { intros [= <- <-]. split; [exact Hn|]. exists []. now rewrite app_nil_r. }
  destruct (list_get (use_textures mat) tex_id) as [used|e]; [|discriminate].
  cbn [bind]. destruct (negb used).
  { intros [= <- <-]. split; [exact Hn|]. exists []. now rewrite app_nil_r. }
  unfold copy_image.
  destruct (if String.eqb (uv_layer tex) "" then Ok 0
            else list_index uv_list (uv_layer tex)) as [uv|e]; [|discriminate].
  cbn [bind]. cbv zeta. intros [= <- <-]. split.
  - keep_name.
  - eexists. split; [reflexivity|]. reflexivity.
Qed.

Lemma for_each_parse_image (n : string) (mat : Material) (uv_list : list string)
      (path_data : PathData) (dir : string)
      (slots : list (nat * option TextureSlot)) :
  forall (self self' : jdict) (fs fs' : list fs_event),
    named n self ->
    for_each (parse_image mat uv_list path_data dir) slots (self, fs)
    = Ok (self', fs') ->
    named n self'
    /\ exists ext, fs' = fs ++ ext /\ written_material_names ext = [].
Proof.
  induction slots as [|slot slots IH]; intros self self' fs fs' Hn; cbn [for_each].
  - intros [= <- <-]. split; [exact Hn|]. exists []. now rewrite app_nil_r.
  - destruct (parse_image mat uv_list path_data dir (self, fs) slot)
      as [[self1 fs1]|e] eqn:E; [|discriminate].
    cbn [bind]. intros H.
    eapply parse_image_spec in E as (Hn1 & ext1 & -> & Hw1); [|exact Hn].
    eapply IH in H as (Hn' & ext2 & -> & Hw2); [|exact Hn1].
    split; [exact Hn'|]. exists (ext1 ++ ext2).
    split; [now rewrite app_assoc|].
    now rewrite written_material_names_app, Hw1, Hw2.
Qed.

(** One run of [MaterialExporter] writes one descriptor, that of its
    material. *)
Lemma MaterialExporter_spec (env : Blender) (mat : Material)
      (uv_list : list string) (path_data : PathData) (fs fs' : list fs_event) :
  MaterialExporter env mat uv_list path_data fs = Ok fs' ->
  exists ext, fs' = fs ++ ext /\ written_material_names ext = [mat_name mat].
Proof.
  unfold MaterialExporter. cbv zeta.
  destruct (for_each _ (enumerate (texture_slots mat)) _) as [[self fs1]|e] eqn:E;
    [|discriminate].
  cbn [bind]. intros [= <-].
  apply for_each_parse_image with (n := mat_name mat) in E
    as (Hn & ext & -> & Hw).
  - eexists. split; [rewrite <- app_assoc; reflexivity|].
    rewrite written_material_names_app, Hw. cbn.
    unfold named in Hn. now rewrite Hn.
  - apply parse_basic_properties_named. unfold named, jset.
    rewrite dict_get_set_str. now rewrite String.eqb_refl.
Qed.

Lemma for_each_MaterialExporter (env : Blender) (uv_list : list string)
      (path_data : PathData) (mats : list Material) :
  forall fs fs' : list fs_event,
    for_each (fun fs mat => MaterialExporter env mat uv_list path_data fs) mats fs
    = Ok fs' ->
    exists ext, fs' = fs ++ ext
                /\ written_material_names ext = map mat_name mats.
Proof.
  induction mats as [|mat mats IH]; intros fs fs'; cbn [for_each].
  - intros [= <-]. exists []. now rewrite app_nil_r.
  - destruct (MaterialExporter env mat uv_list path_data fs) as [fs1|e] eqn:E;
      [|discriminate].
    cbn [bind]. intros H.
    apply MaterialExporter_spec in E as (ext1 & -> & Hw1).
    apply IH in H as (ext2 & -> & Hw2).
    exists (ext1 ++ ext2). split; [now rewrite app_assoc|].
    now rewrite written_material_names_app, Hw1, Hw2.
Qed.

(** The dictionary of materials in use: one entry per name. *)
Lemma materials_dict (ms : list Material) :
  forall d : list (string * Material),
    NoDup (dict_keys d) ->
    (forall k m, In (k, m) d -> k = mat_name m) ->
    let d' := fold_left (fun d m => dict_set String.eqb d (mat_name m) m) ms d in
    NoDup (map mat_name (dict_values d'))
    /\ forall n, In n (map mat_name (dict_values d'))
                 <-> In n (dict_keys d) \/ In n (map mat_name ms).
Proof.
  induction ms as [|m ms IH]; intros d Hnd Hkeys; simpl.
  - assert (map mat_name (dict_values d) = dict_keys d) as E.
    { unfold dict_values, dict_keys. rewrite map_map. apply map_ext_in.
      intros [k m] Hin. simpl. symmetry. now apply Hkeys. }
    rewrite E. split; [exact Hnd|]. intros n. tauto.
  - destruct (IH (dict_set String.eqb d (mat_name m) m)) as [H1 H2].
    + now apply dict_set_NoDup.
    + intros k m' Hin. apply dict_set_In in Hin as [[= -> ->]|Hin]; [reflexivity|].
      now apply Hkeys.
    + split; [exact H1|]. intros n. rewrite H2, dict_set_keys.
      split; [intros [[->|H]|H]|intros [H|[<-|H]]]; auto.
Qed.

Lemma Forall2_nth_error {A B : Type} (R : A -> B -> Prop) (xs : list A)
      (ys : list B) (i : nat) (x : A) :
  Forall2 R xs ys -> nth_error xs i = Some x ->
  exists y, nth_error ys i = Some y /\ R x y.
Proof.
  intros H. revert i. induction H as [|a b xs ys Hab H IH]; intros i Hi.
  - destruct i; discriminate.
  - destruct i as [|i]; simpl in *.
    + injection Hi as <-. eauto.
    + now apply IH.
Qed.

(** The mapping that [export_mappings] returns and writes. *)
Lemma export_mappings_mapping (env : Blender) (heirachy : ObjectHeirachy)
      (mesh_list : list InstSubMesh) (path_data : PathData) (fs fs1 : list fs_event)
      (mats : list Material) (mapping : list string) :
  export_mappings env heirachy mesh_list path_data fs = Ok (mats, mapping, fs1) ->
  Forall2 (mapping_path_ok (os_path_relpath env (path_mat path_data)
                                            (path_mesh path_data)))
          (map fst (mesh_instances mesh_list)) mapping
  /\ exists pre,
      fs1 = pre ++ [FileWrite (os_path_join (path_mesh path_data)
                                 (heirachy_name heirachy ++ ".mapping.json")%string)
                              (MappingDocument mapping)].
Proof.
  unfold export_mappings.
  destruct (for_each _ (map fst (mesh_instances mesh_list)) _) as [st|e] eqn:E;
    [|discriminate].
  cbn [bind]. intros [= <- <- <-].
  apply for_each_map_mesh_paths in E as (paths & Hp & Hok).
  cbn [ms_mapping] in Hp. rewrite app_nil_l in Hp. rewrite Hp.
  split; [exact Hok|]. eauto.
Qed.

(** The materials that [export_mappings] returns, on readable sub-meshes. *)
Lemma export_mappings_inv (env : Blender) (heirachy : ObjectHeirachy)
      (mesh_list : list InstSubMesh) (path_data : PathData) (fs fs1 : list fs_event)
      (mats : list Material) (mapping : list string) :
  (forall sub, In sub mesh_list -> readable sub) ->
  export_mappings env heirachy mesh_list path_data fs = Ok (mats, mapping, fs1) ->
  NoDup (map mat_name mats)
  /\ (forall n, In n (map mat_name mats)
                <-> In n (map mat_name
                              (used_materials (map fst (mesh_instances mesh_list)))))
  /\ exists ext,
      fs1 = fs ++ ext ++ [FileWrite (os_path_join (path_mesh path_data)
                                       (heirachy_name heirachy ++ ".mapping.json")%string)
                                    (MappingDocument mapping)]
      /\ written_material_names ext = [].
Proof.
  intros Hr. unfold export_mappings.
  destruct (for_each _ (map fst (mesh_instances mesh_list)) _) as [st|e] eqn:E;
    [|discriminate].
  cbn [bind]. intros [= <- <- <-].
  apply for_each_map_mesh in E as (Hm & ext & Hfs & Hw).
  - cbn [ms_mapping ms_materials ms_fs] in *.
    destruct (materials_dict (used_materials (map fst (mesh_instances mesh_list))) [])
      as [N1 N2]; [constructor|intros ? ? []|].
    rewrite <- Hm in N1, N2.
    split; [exact N1|]. split.
    + intros n. rewrite N2. simpl. tauto.
    + exists ext. split; [|exact Hw]. now rewrite Hfs, <- app_assoc.
  - intros sub Hsub. apply in_map_iff in Hsub as ([s o] & <- & Hin).
    apply Hr. unfold mesh_instances in Hin.
    apply in_flat_map in Hin as (s' & Hs' & Hin).
    apply in_map_iff in Hin as (o' & [= <- <-] & _). exact Hs'.
Qed.

(** What holds of the mapping document in general: it has one entry per
    mesh instance, in the same order (meshes outside, instances inside),
    and entry [i] is the path that [export_mappings] computes for the
    sub-mesh that [meshInstances[i]] names, from the data of the sub-mesh's
    first instance. *)
Theorem mapping_index_aligned (env : Blender) (heirachy : ObjectHeirachy)
        (path_data : PathData) (fs : list fs_event) (doc : Model)
        (fs' : list fs_event) :
  HeirachyExporter env heirachy path_data fs = Ok (doc, fs') ->
  exists mapping,
    In (FileWrite (os_path_join (path_mesh path_data)
                                (heirachy_name heirachy ++ ".mapping.json")%string)
                  (MappingDocument mapping)) fs'
    /\ List.length mapping = List.length (meshInstances doc)
    /\ forall i r,
        nth_error (meshInstances doc) i = Some r ->
        exists path sub instance,
          nth_error mapping i = Some path
          /\ nth_error (mesh_instances (generate_mesh_list env heirachy)) i
             = Some (sub, instance)
          /\ nth_error (generate_mesh_list env heirachy) (inst_mesh r) = Some sub
          /\ mapping_path_ok (os_path_relpath env (path_mat path_data)
                                              (path_mesh path_data)) sub path.
Proof.
  intros H.
  apply HeirachyExporter_inv in H
    as (mdl & nd & pl & mats & mapping & fs1 & fs2 & _ & _ & Hmap & Hmat & -> & ->).
  set (ml := generate_mesh_list env heirachy) in *.
  apply export_mappings_mapping in Hmap as (Hok & pre & ->).
  apply for_each_MaterialExporter in Hmat as (ext2 & -> & _).
  destruct (generate_instance_data_spec ml) as [_ Hmesh].
  exists mapping. cbn [meshInstances]. split; [|split].
  - apply in_or_app. left. apply in_or_app. left. apply in_or_app. right. now left.
  - rewrite <- (Forall2_length Hok), length_map.
    rewrite <- (length_map inst_mesh (generate_instance_data ml)), Hmesh.
    symmetry. apply instance_mesh_ids_length.
  - intros i r Hr.
    assert (nth_error (instance_mesh_ids_from 0 ml) i = Some (inst_mesh r)) as Hk
        by (rewrite <- Hmesh, nth_error_map, Hr; reflexivity).
    apply instance_mesh_ids_nth in Hk as (_ & mi & E1 & E2).
    rewrite Nat.sub_0_r in E2.
    assert (nth_error (map fst (mesh_instances ml)) i = Some (fst mi)) as E3
        by (rewrite nth_error_map, E1; reflexivity).
    destruct (Forall2_nth_error i Hok E3) as (path & Hpath & Hpok).
    destruct mi as [sub instance]. exists path, sub, instance.
    repeat split; assumption.
Qed.

(** One hierarchy export writes one descriptor for each material that
    [export_mappings] selects for a sub-mesh (the material that the
    sub-mesh's first face indexes in the materials of its first instance's
    data), once however many sub-meshes use it, and none for a material
    that no sub-mesh uses. *)
Theorem used_materials_written_once (env : Blender) (heirachy : ObjectHeirachy)
        (path_data : PathData) (fs : list fs_event) (doc : Model)
        (fs' : list fs_event) :
  db_consistent env heirachy -> keeps_faces (triangulate env) ->
  HeirachyExporter env heirachy path_data fs = Ok (doc, fs') ->
  exists names,
    written_material_names fs' = written_material_names fs ++ names
    /\ NoDup names
    /\ forall n,
        In n names <->
        exists sub mat,
          In sub (generate_mesh_list env heirachy)
          /\ has_materials sub = true
          /\ first_face_material sub = Some mat
          /\ mat_name mat = n.
Proof.
  intros Hdb Htri H.
  apply HeirachyExporter_inv in H
    as (mdl & nd & pl & mats & mapping & fs1 & fs2 & _ & _ & Hmap & Hmat & -> & ->).
  set (ml := generate_mesh_list env heirachy) in *.
  pose proof (mesh_list_readable Hdb Htri) as Hread. fold ml in Hread.
  apply export_mappings_inv in Hmap as (Hnd & Hnames & ext & -> & Hw);
    [|exact Hread].
  apply for_each_MaterialExporter in Hmat as (ext2 & -> & Hw2).
  exists (map mat_name mats). split; [|split; [exact Hnd|]].
  - rewrite !written_material_names_app, Hw, Hw2. cbn. now rewrite !app_nil_r.
  - intros n. rewrite Hnames. unfold used_materials.
    rewrite in_map_iff. split.
    + intros (mat & <- & Hin). apply in_flat_map in Hin as (sub & Hsub & Hin).
      apply in_map_iff in Hsub as ([s o] & <- & Hso). cbn [fst] in *.
      unfold mesh_instances in Hso. apply in_flat_map in Hso as (s' & Hs' & Hso).
      apply in_map_iff in Hso as (o' & [= <- <-] & _).
      destruct (has_materials s') eqn:Eh; [|contradiction].
      destruct (first_face_material s') as [mat'|] eqn:Ef; [|contradiction].
      destruct Hin as [<-|[]]. exists s', mat'. repeat split; assumption.
    + intros (sub & mat & Hsub & Eh & Ef & <-). exists mat. split; [reflexivity|].
      apply in_flat_map. exists sub. split.
      * destruct (Hread sub Hsub) as [Hinst _].
        destruct (sub_instances sub) as [|o os] eqn:Eo; [congruence|].
        apply in_map_iff. exists (sub, o). split; [reflexivity|].
        unfold mesh_instances. apply in_flat_map. exists sub. split; [exact Hsub|].
        rewrite Eo. now left.
      * rewrite Eh, Ef. now left.
Qed.

(** ** A whole export returns *)

Lemma map_result_total {A B : Type} (f : A -> result B) (xs : list A) :
  (forall x, In x xs -> exists y, f x = Ok y) ->
  exists ys, map_result f xs = Ok ys.
Proof.
  induction xs as [|x xs IH]; intros H; simpl; [eauto|].
  destruct (H x (or_introl eq_refl)) as [y ->].
  destruct IH as [ys ->]; [intros z Hz; apply H; now right|].
  simpl. eauto.
Qed.

Lemma file_uvs_total (uv_list : list string) (entries : list (string * list scalar)) :
  forall vd : vert_data_t,
    (forall u arr, In (u, arr) entries -> In u uv_list) ->
    exists vd', file_uvs uv_list entries vd = Ok vd'.
Proof.
  unfold file_uvs.
  induction entries as [|[u arr] entries IH]; intros vd H; cbn [for_each]; [eauto|].
  destruct (@index_from_ok u uv_list 0 (H u arr (or_introl eq_refl))) as [N EN].
  unfold list_index at 1. rewrite EN. cbn [bind].
  apply IH. intros u' arr' Hin. apply (H u' arr'). now right.
Qed.

(** [MeshParser] returns on every mesh whose UV layers are registered. *)
Lemma MeshParser_total (mesh : BMesh) (id_num : nat) (uv_list : list string) :
  (forall u, In u (uv_layers mesh) -> In u uv_list) ->
  exists mp, MeshParser_init mesh id_num uv_list = Ok mp.
Proof.
  intros Hreg.
  destruct (flatten_arrays_ok mesh) as (fa & Efa & (_ & _ & Hu1 & _ & _) & _ & _).
  unfold MeshParser_init, update_mesh_data. rewrite Efa. cbn [bind].
  match goal with
  | |- context [file_uvs uv_list (uvdata fa) ?vd] =>
      destruct (@file_uvs_total uv_list (uvdata fa) vd) as [vd' E]
  end.
  - intros u arr Hin. apply Hreg. now apply (Hu1 u arr).
  - rewrite E. cbn [bind]. eauto.
Qed.

Lemma pruned_uv_layers (old_mesh : BMesh) (mat_id : nat) :
  uv_layers (pruned old_mesh mat_id) = uv_layers old_mesh.
Proof.
  unfold pruned. rewrite fold_verts_remove. simpl.
  now rewrite fold_faces_remove.
Qed.

(** Every face of the sub-mesh cut for [mat_id] has that material index. *)
Lemma pruned_faces_index (old_mesh : BMesh) (mat_id : nat) (f : BMFace) :
  In f (faces (pruned old_mesh mat_id)) -> material_index f = mat_id.
Proof.
  unfold pruned. rewrite fold_verts_remove. simpl.
  rewrite fold_faces_remove. simpl. intros H.
  apply filter_In in H as [H _]. apply filter_In in H as [Hf H].
  apply negb_true_iff in H.
  destruct (material_index f =? mat_id) eqn:E; [now apply Nat.eqb_eq|].
  assert (existsb (fun f0 => face_index f =? face_index f0)
                  (filter (fun face => negb (material_index face =? mat_id))
                          (faces old_mesh)) = true) as C; [|congruence].
  apply existsb_exists. exists f. split; [|apply Nat.eqb_refl].
  apply filter_In. split; [exact Hf|]. now rewrite E.
Qed.

(** Where a sub-mesh of the mesh list comes from: the mesh under the name of
    its group, of which its first instance is a member. *)
Lemma mesh_list_origin (env : Blender) (heirachy : ObjectHeirachy)
      (sub : InstSubMesh) :
  In sub (generate_mesh_list env heirachy) ->
  exists first rest,
    sub_instances sub = first :: rest
    /\ (forall o, In o (first :: rest) ->
                  In o (objects heirachy)
                  /\ mesh_name (grouping_mesh env o)
                     = mesh_name (grouping_mesh env first))
    /\ In sub (separate_mesh_by_material
                 (triangulate env)
                 (lookup_mesh env (mesh_name (grouping_mesh env first)))
                 (first :: rest)).
Proof.
  intros Hsub. unfold generate_mesh_list in Hsub.
  apply in_flat_map in Hsub as ([key l] & Hkl & Hsub).
  destruct (@raw_meshes_entries env (objects heirachy) []) with (key := key) (l := l)
    as [Hne Hk]; [intros ? ? []|exact Hkl|].
  pose proof (separate_instances _ _ _ _ Hsub) as Hinst.
  destruct l as [|first rest]; [congruence|].
  exists first, rest. split; [exact Hinst|].
  destruct (Hk first (or_introl eq_refl)) as [Hname _].
  split.
  - intros o Ho. destruct (Hk o Ho) as [Hn [Hobj|(l0 & [] & _)]].
    split; [exact Hobj|congruence].
  - now rewrite Hname.
Qed.

(** The instances of one sub-mesh share their mesh. *)
Lemma instances_share_mesh (env : Blender) (heirachy : ObjectHeirachy)
      (sub : InstSubMesh) (first : Object) (rest : list Object) (o : Object)
      (m m' : Mesh) :
  db_consistent env heirachy ->
  In sub (generate_mesh_list env heirachy) ->
  sub_instances sub = first :: rest -> In o (first :: rest) ->
  obj_data first = DataMesh m -> obj_data o = DataMesh m' -> m' = m.
Proof.
  intros Hdb Hsub Hinst Ho Hm Hm'.
  destruct (mesh_list_origin env heirachy sub Hsub) as (f & r & E & Hall & _).
  rewrite Hinst in E. injection E as <- <-.
  destruct (Hall o Ho) as [Hobj Hname].
  destruct (Hall first (or_introl eq_refl)) as [Hfirst _].
  unfold grouping_mesh in Hname. rewrite Hm, Hm' in Hname.
  rewrite <- (Hdb o m' Hobj Hm'), <- (Hdb first m Hfirst Hm). now rewrite Hname.
Qed.

Lemma enumerate_from_In {A : Type} (xs : list A) (s i : nat) (x : A) :
  In (i, x) (enumerate_from s xs) ->
  s <= i < s + List.length xs /\ nth_error xs (i - s) = Some x.
Proof.
  revert s. induction xs as [|y xs IH]; intros s; simpl; [contradiction|].
  intros [[= <- <-]|H].
  - rewrite Nat.sub_diag. split; [lia|reflexivity].
  - destruct (IH _ H) as [Hr Hn]. split; [lia|].
    replace (i - s) with (S (i - S s)) by lia. exact Hn.
Qed.

(** The mesh of a sub-mesh: the triangulated mesh, whole or cut for one of
    its materials. *)
Lemma separate_bmesh (tri : BMesh -> BMesh) (Inst : Type) (mesh : Mesh)
      (obj : Inst) (sub : SubMesh Inst) :
  In sub (separate_mesh_by_material tri mesh obj) ->
  (materials mesh = [] /\ sub_bmesh sub = tri (from_mesh mesh))
  \/ exists k, k < List.length (materials mesh)
               /\ sub_bmesh sub = pruned (tri (from_mesh mesh)) k.
Proof.
  unfold separate_mesh_by_material. destruct (materials mesh) as [|m ms] eqn:Em.
  - intros [<-|[]]. left. now split.
  - rewrite <- Em. intros H. apply in_flat_map in H as ([k mat] & Hk & H).
    rewrite split_material_pruned in H.
    destruct (verts (pruned (tri (from_mesh mesh)) k)); [contradiction|].
    destruct H as [<-|[]]. right. exists k. split; [|reflexivity].
    apply enumerate_from_In in Hk. lia.
Qed.

Lemma mesh_list_uv_layers (env : Blender) (heirachy : ObjectHeirachy)
      (sub : InstSubMesh) (u : string) :
  db_consistent env heirachy -> triangulation_ok (triangulate env) ->
  In sub (generate_mesh_list env heirachy) ->
  In u (uv_layers (sub_bmesh sub)) -> In u (generate_uv_list heirachy).
Proof.
  intros Hdb (Huv & _ & _) Hsub Hu.
  destruct (mesh_list_origin env heirachy sub Hsub) as (first & rest & _ & Hall & Hsep).
  destruct (Hall first (or_introl eq_refl)) as [Hfirst _].
  assert (uv_layers (sub_bmesh sub)
          = uv_layers (mesh_geometry
                         (lookup_mesh env (mesh_name (grouping_mesh env first))))) as E.
  { apply separate_bmesh in Hsep as [[_ ->]|(k & _ & ->)].
    - apply Huv.
    - rewrite pruned_uv_layers. apply Huv. }
  rewrite E in Hu. unfold grouping_mesh in Hu.
  destruct (obj_data first) as [|m|oname oms] eqn:Ed.
  - unfold lookup_mesh in Hu. cbn [EMPTY_MESH mesh_name] in Hu.
    rewrite String.eqb_refl in Hu. destruct Hu.
  - rewrite (Hdb first m Hfirst Ed) in Hu.
    unfold generate_uv_list. apply in_flat_map. exists first.
    split; [exact Hfirst|]. now rewrite Ed.
  - unfold lookup_mesh in Hu. cbn [EMPTY_MESH mesh_name] in Hu.
    rewrite String.eqb_refl in Hu. destruct Hu.
Qed.

Lemma mesh_list_indexable (env : Blender) (heirachy : ObjectHeirachy) :
  db_consistent env heirachy -> triangulation_ok (triangulate env) ->
  forall sub, In sub (generate_mesh_list env heirachy) -> indexable sub.
Proof.
  intros Hdb (_ & Hmi & _) sub Hsub first rest f fs Hinst Hfaces Hmats.
  destruct (mesh_list_origin env heirachy sub Hsub) as (f0 & r0 & E & Hall & Hsep).
  rewrite Hinst in E. injection E as <- <-.
  destruct (Hall first (or_introl eq_refl)) as [Hfirst _].
  assert (In f (faces (sub_bmesh sub))) as Hf by (rewrite Hfaces; now left).
  unfold grouping_mesh in Hsep.
  destruct (obj_data first) as [|m|oname [ms|]] eqn:Ed; simpl in *;
    try congruence.
  - rewrite (Hdb first m Hfirst Ed) in Hsep.
    apply separate_bmesh in Hsep as [[Hnone _]|(k & Hk & Ek)]; [congruence|].
    rewrite Ek in Hf. apply pruned_faces_index in Hf. lia.
  - unfold lookup_mesh in Hsep. rewrite String.eqb_refl in Hsep.
    destruct Hsep as [<-|[]]. cbn [sub_bmesh fst snd] in Hf.
    apply Hmi in Hf as (g & [<-|[]] & ->). simpl.
    destruct ms; [congruence|simpl; lia].
Qed.

Lemma for_each_map_mesh_total (path_data : PathData) (rel : string)
      (subs : list InstSubMesh) :
  forall st : MappingState,
    (forall sub, In sub subs -> readable sub /\ indexable sub) ->
    exists st', for_each (map_mesh path_data rel) subs st = Ok st'.
Proof.
  induction subs as [|sub subs IH]; intros st H; cbn [for_each]; [eauto|].
  destruct (H sub (or_introl eq_refl)) as [[Hinst Hface] Hidx].
  assert (exists st1, map_mesh path_data rel st sub = Ok st1) as [st1 E].
  { unfold map_mesh. unfold has_materials in Hface.
    destruct (sub_instances sub) as [|first rest] eqn:Ei; [congruence|]. cbn [bind].
    destruct (data_materials (obj_data first)) as [|m0 ms0] eqn:Em; [eauto|].
    destruct (faces (sub_bmesh sub)) as [|face fs] eqn:Ef; [now destruct Hface|].
    cbn [bind]. unfold list_get.
    specialize (Hidx first rest face fs Ei Ef).
    rewrite Em in Hidx. specialize (Hidx ltac:(discriminate)).
    destruct (nth_error (m0 :: ms0) (material_index face)) as [mat|] eqn:En.
    - cbn [bind]. eauto.
    - apply nth_error_None in En. lia. }
  rewrite E. cbn [bind]. apply IH. intros s Hs. apply H. now right.
Qed.

Lemma parse_image_total (mat : Material) (uv_list : list string)
      (path_data : PathData) (dir : string) (st : jdict * list fs_event)
      (tex_id : nat) (otex : option TextureSlot) :
  exportable uv_list mat ->
  nth_error (texture_slots mat) tex_id = Some otex ->
  exists st', parse_image mat uv_list path_data dir st (tex_id, otex) = Ok st'.
Proof.
  intros Hexp Hslot. unfold parse_image. destruct st as [self fs].
  destruct otex as [tex|]; [|eauto].
  destruct (String.eqb (texture_type tex) "IMAGE") eqn:Et; cbn [negb]; [|eauto].
  apply String.eqb_eq in Et.
  destruct (Hexp tex_id tex Hslot Et) as (used & Hused & Huv).
  unfold list_get. rewrite Hused. cbn [bind].
  destruct used; cbn [negb]; [|eauto].
  unfold copy_image.
  destruct (String.eqb (uv_layer tex) "") eqn:Eu.
  - cbn [bind]. eauto.
  - destruct (Huv eq_refl) as [Hempty|Hin].
    + rewrite Hempty in Eu. discriminate.
    + unfold list_index. destruct (@index_from_ok _ _ 0 Hin) as [i ->].
      cbn [bind]. eauto.
Qed.

Lemma MaterialExporter_total (env : Blender) (mat : Material)
      (uv_list : list string) (path_data : PathData) (fs : list fs_event) :
  exportable uv_list mat ->
  exists fs', MaterialExporter env mat uv_list path_data fs = Ok fs'.
Proof.
  intros Hexp. unfold MaterialExporter. cbv zeta.
  assert (forall slots st,
             (forall i o, In (i, o) slots -> nth_error (texture_slots mat) i = Some o) ->
             exists st',
               for_each (parse_image mat uv_list path_data
                           (os_path_relpath env (path_img path_data)
                                            (path_mat path_data)))
                        slots st = Ok st') as Hloop.
  { induction slots as [|[i o] slots IH]; intros st Hs; cbn [for_each]; [eauto|].
    destruct (@parse_image_total mat uv_list path_data
                (os_path_relpath env (path_img path_data) (path_mat path_data))
                st i o Hexp (Hs i o (or_introl eq_refl))) as [st1 ->].
    cbn [bind]. apply IH. intros j o' Hin. apply Hs. now right. }
  match goal with
  | |- context [for_each _ (enumerate (texture_slots mat)) ?st0] =>
      destruct (Hloop (enumerate (texture_slots mat)) st0) as [[self fs1] ->]
  end.
  - intros i o Hin. apply enumerate_from_In in Hin as [_ Hn].
    now rewrite Nat.sub_0_r in Hn.
  - cbn [bind]. eauto.
Qed.

Lemma materials_dict_values (ms : list Material) :
  forall (d : list (string * Material)) (m : Material),
    In m (dict_values
            (fold_left (fun d m => dict_set String.eqb d (mat_name m) m) ms d)) ->
    In m (dict_values d) \/ In m ms.
Proof.
  unfold dict_values.
  induction ms as [|m0 ms IH]; intros d m; simpl; [auto|].
  intros H. apply IH in H as [H|H]; [|auto].
  apply in_map_iff in H as ([k v] & <- & Hin).
  apply dict_set_In in Hin as [[= -> ->]|Hin]; [right; now left|].
  left. apply in_map_iff. exists (k, v). now split.
Qed.

(** None of the exporter's own lookups raises ([IndexError], [ValueError],
    [KeyError], the unbound [mat_id]) when every mesh object's data is the
    datablock Blender has under its name, the triangulation keeps UV layers,
    material indices and a face, and every material of an object has, for
    each image texture, its [use_textures] flag and a UV layer that is unset
    or registered. *)
Theorem HeirachyExporter_returns (env : Blender) (heirachy : ObjectHeirachy)
        (path_data : PathData) (fs : list fs_event) :
  db_consistent env heirachy -> triangulation_ok (triangulate env) ->
  (forall obj mat, In obj (objects heirachy) ->
                   In mat (data_materials (obj_data obj)) ->
                   exportable (generate_uv_list heirachy) mat) ->
  exists doc fs', HeirachyExporter env heirachy path_data fs = Ok (doc, fs').
Proof.
  intros Hdb Htri Hexp. pose proof Htri as (_ & _ & Hkeep).
  unfold HeirachyExporter. cbv zeta.
  set (ml := generate_mesh_list env heirachy).
  set (uv := generate_uv_list heirachy).
  destruct (@map_result_total _ _
              (fun im : nat * InstSubMesh =>
                 MeshParser_init (sub_bmesh (snd im)) (fst im) uv)
              (enumerate ml)) as [mdl ->].
  { intros [k sub] Hin. cbn [fst snd]. apply MeshParser_total.
    intros u Hu. apply enumerate_from_In in Hin as [_ Hn].
    apply nth_error_In in Hn.
    now apply (@mesh_list_uv_layers env heirachy sub u Hdb Htri). }
  cbn [bind].
  destruct (generate_node_data_total ml) as (nd & pl & ->). cbn [bind].
  assert (forall sub, In sub (map fst (mesh_instances ml)) ->
                      readable sub /\ indexable sub) as Hsubs.
  { intros sub Hsub. apply in_map_iff in Hsub as ([s o] & <- & Hin).
    unfold mesh_instances in Hin. apply in_flat_map in Hin as (s' & Hs' & Hin).
    apply in_map_iff in Hin as (o' & [= <- <-] & _). cbn [fst].
    split; [now apply (mesh_list_readable Hdb Hkeep)|
            now apply (mesh_list_indexable Hdb Htri)]. }
  unfold export_mappings.
  destruct (@for_each_map_mesh_total path_data
              (os_path_relpath env (path_mat path_data) (path_mesh path_data))
              (map fst (mesh_instances ml)) (mkMappingState None [] [] fs) Hsubs)
    as [st Est].
  rewrite Est. cbn [bind].
  apply for_each_map_mesh in Est as [Hm _]; [|intros s Hs; now apply Hsubs].
  cbn [ms_materials] in Hm.
  assert (forall mat, In mat (dict_values (ms_materials st)) ->
                      exportable uv mat) as Hmats.
  { intros mat Hmat. rewrite Hm in Hmat.
    apply materials_dict_values in Hmat as [[]|Hmat].
    unfold used_materials in Hmat. apply in_flat_map in Hmat as (sub & Hsub & Hmat).
    destruct (has_materials sub); [|contradiction].
    destruct (first_face_material sub) as [mat'|] eqn:Ef; [|contradiction].
    destruct Hmat as [<-|[]].
    apply in_map_iff in Hsub as ([s o] & <- & Hin). cbn [fst] in Ef.
    unfold mesh_instances in Hin. apply in_flat_map in Hin as (s' & Hs' & Hin).
    apply in_map_iff in Hin as (o' & [= <- <-] & _).
    destruct (mesh_list_origin env heirachy s' Hs') as (first & rest & Ei & Hall & _).
    unfold first_face_material in Ef. rewrite Ei in Ef.
    destruct (faces (sub_bmesh s')); [discriminate|].
    apply nth_error_In in Ef.
    apply (Hexp first); [|exact Ef]. now apply Hall; left. }
  assert (forall mats fs0,
             (forall mat, In mat mats -> exportable uv mat) ->
             exists fs1,
               for_each (fun fs mat => MaterialExporter env mat uv path_data fs)
                        mats fs0 = Ok fs1) as Hloop.
  { induction mats as [|mat mats IH]; intros fs0 Hall; cbn [for_each]; [eauto|].
    destruct (@MaterialExporter_total env mat uv path_data fs0
                (Hall mat (or_introl eq_refl))) as [fs1 ->].
    cbn [bind]. apply IH. intros m Hm'. apply Hall. now right. }
  match goal with
  | |- context [for_each _ (dict_values (ms_materials st)) ?fs0] =>
      destruct (Hloop (dict_values (ms_materials st)) fs0 Hmats) as [fs2 ->]
  end.
  cbn [bind]. eauto.
Qed.

(** ** The sample scenes *)

Lemma sample_env_keeps_faces : keeps_faces (triangulate sample_env).
Proof. intros bm H. exact H. Qed.

Lemma two_meshes_consistent : db_consistent sample_env two_meshes.
Proof. intros obj m [<-|[<-|[]]] [= <-]; reflexivity. Qed.

Lemma child_first_consistent : db_consistent sample_env child_first.
Proof. intros obj m [<-|[<-|[]]] E; [injection E as <-; reflexivity|discriminate]. Qed.

Lemma plane_only_consistent : db_consistent sample_env plane_only.
Proof. intros obj m [<-|[]] [= <-]; reflexivity. Qed.

Lemma child_first_returns :
  child_first_run = Ok (run_document child_first_run, run_events child_first_run).
Proof. vm_compute. reflexivity. Qed.

Lemma two_meshes_returns :
  two_meshes_run = Ok (run_document two_meshes_run, run_events two_meshes_run).
Proof. vm_compute. reflexivity. Qed.

Lemma plane_only_returns :
  plane_only_run = Ok (run_document plane_only_run, run_events plane_only_run).
Proof. vm_compute. reflexivity. Qed.

(** C1 on the cube: two triangles, one per material. *)
Lemma separate_mesh_by_material_partition_witness :
  wf_bmesh (from_mesh Cube) = true
  /\ (forall f, In f (faces (from_mesh Cube)) ->
                material_index f < List.length (materials Cube))
  /\ let parts := sub_faces (separate_mesh_by_material (fun bm => bm) Cube [CubeObject]) in
     sum_list (map (@List.length BMFace) parts) = List.length (faces (from_mesh Cube))
     /\ Permutation (List.concat parts) (faces (from_mesh Cube))
     /\ (forall i j a b f g,
            nth_error parts i = Some a -> nth_error parts j = Some b ->
            In f a -> In g b -> face_index f = face_index g -> i = j).
Proof.
  assert (forall f, In f (faces (from_mesh Cube)) ->
                    material_index f < List.length (materials Cube)) as Hrange.
  { intros f [<-|[<-|[]]]; simpl; lia. }
  split; [reflexivity|]. split; [exact Hrange|].
  apply (@separate_mesh_by_material_partition
           (fun bm => bm) (list Object)
           (fun bm H => H)
           (fun bm f H => ex_intro _ f (conj H eq_refl))
           Cube [CubeObject]).
  - reflexivity.
  - exact Hrange.
Defined.

(** C10 on the mesh without materials. *)
Lemma separate_mesh_by_material_no_materials_witness :
  materials Bare = []
  /\ exists sub,
      separate_mesh_by_material (fun bm => bm) Bare [Child] = [sub]
      /\ sub_name sub = mesh_name Bare
      /\ faces (sub_bmesh sub) = faces (from_mesh Bare)
      /\ verts (sub_bmesh sub) = verts (from_mesh Bare)
      /\ sub_instances sub = [Child].
Proof.
  split; [reflexivity|].
  apply (@separate_mesh_by_material_no_materials (fun bm => bm) (list Object) Bare [Child]).
  reflexivity.
Defined.

(** C2 on the square with one UV layer. *)
Lemma MeshParser_buffers_witness :
  (forall f, In f (faces (square 0 1 ["UVMap"%string])) -> List.length (loops f) = 3)
  /\ (forall u, In u (uv_layers (square 0 1 ["UVMap"%string])) -> In u ["UVMap"%string])
  /\ exists mp,
      MeshParser_init (square 0 1 ["UVMap"%string]) 0 ["UVMap"%string] = Ok mp
      /\ List.length (indices mp) = 3 * 2
      /\ count mp = List.length (indices mp)
      /\ indices mp = seq 0 (List.length (indices mp)).
Proof.
  assert (forall f, In f (faces (square 0 1 ["UVMap"%string])) ->
                    List.length (loops f) = 3) as Htri.
  { intros f [<-|[<-|[]]]; reflexivity. }
  assert (forall u, In u (uv_layers (square 0 1 ["UVMap"%string])) ->
                    In u ["UVMap"%string]) as Hreg.
  { intros u Hu. exact Hu. }
  split; [exact Htri|]. split; [exact Hreg|].
  destruct (@MeshParser_buffers (square 0 1 ["UVMap"%string]) 0 ["UVMap"%string]
                                Htri Hreg)
    as (mp & E & L & C & I & _).
  exists mp. repeat split; assumption.
Defined.

(** C9 on the empty with a mesh child: three nodes, two slots, and the
    empty in a slot of the placeholder. *)
Lemma node_ids_lockstep_witness :
  child_first_run = Ok (run_document child_first_run, run_events child_first_run)
  /\ (forall i r, nth_error (meshInstances (run_document child_first_run)) i = Some r ->
                  inst_node r = i + 1)
  /\ List.length (nodes (run_document child_first_run))
     = List.length (parents (run_document child_first_run))
  /\ List.length (nodes (run_document child_first_run))
     = List.length (meshInstances (run_document child_first_run)) + 1.
Proof.
  split; [exact child_first_returns|].
  destruct (@node_ids_lockstep sample_env child_first sample_paths []
                              (run_document child_first_run)
                              (run_events child_first_run) child_first_returns)
    as (H1 & H2 & H3 & _).
  repeat split; assumption.
Defined.

(** C3, amended, on the same scene. *)
Lemma parents_refer_to_nodes_witness :
  child_first_run = Ok (run_document child_first_run, run_events child_first_run)
  /\ nth_error (parents (run_document child_first_run)) 0 = Some (-1)%Z.
Proof.
  split; [exact child_first_returns|].
  exact (proj1 (@parents_refer_to_nodes sample_env child_first sample_paths []
                  (run_document child_first_run) (run_events child_first_run)
                  child_first_returns)).
Defined.

(** C3 as stated fails: the child is node 1 and its parent is node 2. *)
Lemma parent_after_child :
  exists doc fs' p,
    HeirachyExporter sample_env child_first sample_paths [] = Ok (doc, fs')
    /\ nth_error (parents doc) 1 = Some p
    /\ p <> 0%Z
    /\ ~ (p < 1)%Z.
Proof.
  exists (run_document child_first_run), (run_events child_first_run), 2%Z.
  split; [exact child_first_returns|].
  split; [reflexivity|]. split; [discriminate|]. intros H. discriminate H.
Qed.

(** The mapping document of the two mesh objects. *)
Lemma mapping_index_aligned_witness :
  two_meshes_run = Ok (run_document two_meshes_run, run_events two_meshes_run)
  /\ exists mapping,
      In (FileWrite (os_path_join (path_mesh sample_paths)
                                  (heirachy_name two_meshes ++ ".mapping.json")%string)
                    (MappingDocument mapping)) (run_events two_meshes_run)
      /\ List.length mapping = List.length (meshInstances (run_document two_meshes_run)).
Proof.
  split; [exact two_meshes_returns|].
  destruct (@mapping_index_aligned sample_env two_meshes sample_paths []
              (run_document two_meshes_run) (run_events two_meshes_run)
              two_meshes_returns)
    as (mapping & H1 & H2 & _).
  exists mapping. split; assumption.
Defined.

(** The hierarchy of the two mesh objects: [Red] and [Blue], once each. *)
Lemma used_materials_written_once_witness :
  db_consistent sample_env two_meshes
  /\ keeps_faces (triangulate sample_env)
  /\ two_meshes_run = Ok (run_document two_meshes_run, run_events two_meshes_run)
  /\ exists names,
      written_material_names (run_events two_meshes_run)
      = written_material_names [] ++ names
      /\ NoDup names.
Proof.
  split; [exact two_meshes_consistent|]. split; [exact sample_env_keeps_faces|].
  split; [exact two_meshes_returns|].
  destruct (@used_materials_written_once sample_env two_meshes sample_paths []
              (run_document two_meshes_run) (run_events two_meshes_run)
              two_meshes_consistent sample_env_keeps_faces two_meshes_returns)
    as (names & H1 & H2 & _).
  exists names. split; assumption.
Defined.

(** C5 as stated fails: [Blue] belongs to the mesh of the exported object,
    no face uses it, and no descriptor is written for it. *)
Lemma unused_material_not_written :
  exists doc fs',
    HeirachyExporter sample_env plane_only sample_paths [] = Ok (doc, fs')
    /\ In PlaneObject (objects plane_only)
    /\ obj_data PlaneObject = DataMesh Plane
    /\ In Blue (materials Plane)
    /\ count_occ string_dec (written_material_names fs') (mat_name Blue) = 0
    /\ written_material_names fs' = ["Red"%string].
Proof.
  exists (run_document plane_only_run), (run_events plane_only_run).
  split; [exact plane_only_returns|].
  split; [now left|]. split; [reflexivity|]. split; [right; now left|].
  split; vm_compute; reflexivity.
Qed.

(** C7, amended, on the two mesh objects. *)
Lemma uv_registry_positions_witness :
  two_meshes_run = Ok (run_document two_meshes_run, run_events two_meshes_run)
  /\ generate_uv_list two_meshes
     = List.concat (map object_uv_layers (objects two_meshes)).
Proof.
  split; [exact two_meshes_returns|].
  exact (proj1 (@uv_registry_positions sample_env two_meshes sample_paths []
                  (run_document two_meshes_run) (run_events two_meshes_run)
                  two_meshes_returns)).
Defined.

(** The assumptions of [HeirachyExporter_returns] hold of the sample
    environment and of the scene of two mesh objects. *)
Lemma sample_triangulation_ok : triangulation_ok (triangulate sample_env).
Proof.
  split; [reflexivity|]. split; [|exact sample_env_keeps_faces].
  intros bm f Hf. exists f. now split.
Qed.

Lemma two_meshes_export_returns :
  exists doc fs', HeirachyExporter sample_env two_meshes sample_paths [] = Ok (doc, fs').
Proof.
  apply HeirachyExporter_returns.
  - exact two_meshes_consistent.
  - exact sample_triangulation_ok.
  - intros obj mat [<-|[<-|[]]] [<-|[<-|[]]] tex_id tex Hslot;
      destruct tex_id; discriminate Hslot.
Qed.

(** * Further properties of the exporter *)

(** ** Geometry splitter: what a sub-mesh holds *)

Lemma pruned_faces_incl (old_mesh : BMesh) (mat_id : nat) (f : BMFace) :
  In f (faces (pruned old_mesh mat_id)) -> In f (faces old_mesh).
Proof.
  unfold pruned. rewrite fold_verts_remove. simpl.
  rewrite fold_faces_remove. simpl. intros H.
  apply filter_In in H as [H _]. apply filter_In in H as [H _]. exact H.
Qed.

Lemma distinct_map_filter {A : Type} (f : A -> nat) (p : A -> bool) (l : list A) :
  distinct (map f l) = true -> distinct (map f (filter p l)) = true.
Proof.
  induction l as [|a l IH]; simpl; [auto|]. intros H.
  apply andb_true_iff in H as [Hn Hd].
  destruct (p a); simpl; [|auto]. apply andb_true_iff. split; [|auto].
  apply negb_true_iff. apply negb_true_iff in Hn.
  destruct (existsb (Nat.eqb (f a)) (map f (filter p l))) eqn:E; [|reflexivity].
  apply existsb_exists in E as (x & Hx & Ex).
  apply in_map_iff in Hx as (b & <- & Hb). apply filter_In in Hb as [Hb _].
  assert (existsb (Nat.eqb (f a)) (map f l) = true) as C; [|congruence].
  apply existsb_exists. exists (f b). split; [now apply in_map|exact Ex].
Qed.

Lemma face_ok_iff (bm : BMesh) (f : BMFace) :
  face_ok bm f = true
  <-> loops f <> [] /\ forall v, In v (face_verts f) -> vert_in v (verts bm) = true.
Proof.
  unfold face_ok, face_verts. destruct (loops f) as [|l ls].
  - split; [discriminate|]. intros [H _]. now contradiction H.
  - rewrite forallb_forall. split.
    + intros H. split; [discriminate|exact H].
    + intros [_ H]. exact H.
Qed.

Lemma vert_in_self (v : BMVert) (vs : list BMVert) : In v vs -> vert_in v vs = true.
Proof.
  intros H. unfold vert_in. apply existsb_exists. exists v.
  split; [exact H|apply Nat.eqb_refl].
Qed.

(** The mesh kept for one material of a well-formed mesh: its faces are
    the bucket of the material, it is well formed, and none of its vertices
    is isolated. *)
Lemma pruned_wf (old_mesh : BMesh) (mat_id : nat) :
  wf_bmesh old_mesh = true ->
  wf_bmesh (pruned old_mesh mat_id) = true
  /\ forall v, In v (verts (pruned old_mesh mat_id)) ->
               in_no_face (pruned old_mesh mat_id) v = false.
Proof.
  intros Hwf.
  pose proof (pruned_faces old_mesh mat_id Hwf) as Hf.
  pose proof (pruned_verts old_mesh mat_id) as Hv.
  set (nm := fold_left faces_remove
               (filter (fun face => negb (material_index face =? mat_id))
                       (faces old_mesh)) old_mesh) in *.
  unfold wf_bmesh in Hwf.
  apply andb_true_iff in Hwf as [Hwf D3]. apply andb_true_iff in Hwf as [D1 D2].
  assert (faces nm = filter (fun f => material_index f =? mat_id) (faces old_mesh))
    as Hnm.
  { unfold nm. rewrite fold_faces_remove. simpl.
    apply faces_of_material. now apply distinct_NoDup. }
  assert (forall v, in_no_face (pruned old_mesh mat_id) v = in_no_face nm v) as Hiso.
  { intros v. unfold in_no_face. now rewrite Hf, Hnm. }
  split.
  - unfold wf_bmesh. rewrite Hf, Hv.
    rewrite (distinct_map_filter _ _ _ D1), (distinct_map_filter _ _ _ D2). simpl.
    apply forallb_forall. intros f Hin.
    pose proof Hin as Hin'. apply filter_In in Hin' as [Hfo _].
    rewrite forallb_forall in D3. specialize (D3 f Hfo).
    apply face_ok_iff in D3 as [Hl Hvs]. apply face_ok_iff. split; [exact Hl|].
    intros v Hvf. rewrite Hv. specialize (Hvs v Hvf).
    unfold vert_in in Hvs. apply existsb_exists in Hvs as (w & Hw & Ew).
    apply Nat.eqb_eq in Ew.
    unfold vert_in. apply existsb_exists. exists w. split; [|now apply Nat.eqb_eq].
    apply filter_In. split; [exact Hw|]. apply negb_true_iff.
    rewrite (in_no_face_index nm _ _ Ew).
    unfold in_no_face. apply negb_false_iff. apply existsb_exists.
    exists f. split; [now rewrite Hnm|now apply vert_in_self].
  - intros v Hin. rewrite Hv in Hin. apply filter_In in Hin as [_ Hin].
    rewrite Hiso. now apply negb_true_iff in Hin.
Qed.

(** X1: every sub-mesh of a mesh with materials belongs to one material of
    the mesh: all its faces are faces of the triangulated mesh with that
    material's index, there is at least one, the instance list is handed
    through, and the name is the mesh's name when the mesh has exactly one
    material and [mesh.name + "." + material.name] otherwise.  A face whose
    index names no material is therefore in no sub-mesh. *)
Theorem sub_mesh_single_material (tri : BMesh -> BMesh) (Inst : Type)
        (mesh : Mesh) (obj : Inst) (sub : SubMesh Inst) :
  materials mesh <> [] ->
  In sub (separate_mesh_by_material tri mesh obj) ->
  exists k mat,
    nth_error (materials mesh) k = Some mat
    /\ sub_name sub
       = (if List.length (materials mesh) =? 1 then mesh_name mesh
          else (mesh_name mesh ++ "." ++ mat_name mat)%string)
    /\ sub_instances sub = obj
    /\ faces (sub_bmesh sub) <> []
    /\ forall f, In f (faces (sub_bmesh sub)) ->
                 In f (faces (tri (from_mesh mesh))) /\ material_index f = k.
Proof.
  intros Hm H. unfold separate_mesh_by_material in H.
  destruct (materials mesh) as [|m ms] eqn:Em; [contradiction|]. rewrite <- Em in *.
  apply in_flat_map in H as ([k mat] & Hk & H).
  rewrite split_material_pruned in H.
  destruct (verts (pruned (tri (from_mesh mesh)) k)) as [|v vs] eqn:Ev; [contradiction|].
  destruct H as [<-|[]].
  unfold enumerate in Hk. apply enumerate_from_In in Hk as [_ Hk].
  rewrite Nat.sub_0_r in Hk.
  exists k, mat. split; [exact Hk|]. split; [reflexivity|]. split; [reflexivity|].
  cbn [sub_bmesh fst snd]. split.
  - apply pruned_verts_faces. rewrite Ev. discriminate.
  - intros f Hf. split; [eapply pruned_faces_incl; eauto|eapply pruned_faces_index; eauto].
Qed.

Lemma sub_mesh_single_material_witness :
  exists k mat,
    nth_error (materials Cube) k = Some mat
    /\ sub_name ("Cube.Blue"%string, pruned (from_mesh Cube) 1, tt)
       = (if List.length (materials Cube) =? 1 then mesh_name Cube
          else (mesh_name Cube ++ "." ++ mat_name mat)%string)
    /\ sub_instances ("Cube.Blue"%string, pruned (from_mesh Cube) 1, tt) = tt
    /\ faces (sub_bmesh ("Cube.Blue"%string, pruned (from_mesh Cube) 1, tt)) <> []
    /\ forall f,
        In f (faces (sub_bmesh ("Cube.Blue"%string, pruned (from_mesh Cube) 1, tt))) ->
        In f (faces (from_mesh Cube)) /\ material_index f = k.
Proof.
  apply (@sub_mesh_single_material (fun bm => bm) unit Cube tt
           ("Cube.Blue"%string, pruned (from_mesh Cube) 1, tt)).
  - discriminate.
  - vm_compute. right. left. reflexivity.
Defined.

(** X2: the pruning keeps a mesh well formed and leaves no loose vertex:
    when the triangulated mesh is well formed, so is every sub-mesh made for
    a material (distinct face and vertex indices, every corner's vertex
    among the sub-mesh's vertices), and each of its vertices is used by one
    of its faces. *)
Theorem sub_mesh_well_formed (tri : BMesh -> BMesh) (Inst : Type)
        (mesh : Mesh) (obj : Inst) (sub : SubMesh Inst) :
  materials mesh <> [] ->
  wf_bmesh (tri (from_mesh mesh)) = true ->
  In sub (separate_mesh_by_material tri mesh obj) ->
  wf_bmesh (sub_bmesh sub) = true
  /\ forall v, In v (verts (sub_bmesh sub)) -> in_no_face (sub_bmesh sub) v = false.
Proof.
  intros Hm Hwf H.
  apply separate_bmesh in H as [[Hm' _]|(k & _ & ->)]; [contradiction|].
  now apply pruned_wf.
Qed.

Lemma sub_mesh_well_formed_witness :
  wf_bmesh (sub_bmesh ("Cube.Red"%string, pruned (from_mesh Cube) 0, tt)) = true
  /\ forall v,
      In v (verts (sub_bmesh ("Cube.Red"%string, pruned (from_mesh Cube) 0, tt))) ->
      in_no_face (sub_bmesh ("Cube.Red"%string, pruned (from_mesh Cube) 0, tt)) v
      = false.
Proof.
  apply (@sub_mesh_well_formed (fun bm => bm) unit Cube tt
           ("Cube.Red"%string, pruned (from_mesh Cube) 0, tt)).
  - discriminate.
  - reflexivity.
  - vm_compute. left. reflexivity.
Defined.

Lemma split_material_bucket (mesh : Mesh) (old_mesh : BMesh) (Inst : Type)
      (obj : Inst) (mat_id : nat) (mat : Material) :
  wf_bmesh old_mesh = true ->
  sub_faces (split_material mesh old_mesh obj mat_id mat)
  = filter nonempty [material_bucket (faces old_mesh) mat_id].
Proof.
  intros Hwf. rewrite split_material_pruned. unfold material_bucket.
  destruct (verts (pruned old_mesh mat_id)) as [|v vs] eqn:Ev.
  - rewrite (pruned_faces_verts old_mesh mat_id Hwf Ev). reflexivity.
  - assert (faces (pruned old_mesh mat_id) <> []) as Hne
        by (apply pruned_verts_faces; rewrite Ev; discriminate).
    rewrite pruned_faces in Hne by exact Hwf.
    unfold sub_faces. cbn [map sub_bmesh fst snd].
    rewrite pruned_faces by exact Hwf.
    destruct (filter _ (faces old_mesh)); [contradiction|reflexivity].
Qed.

(** X3: on a well-formed triangulated mesh with materials, the sub-meshes
    are, in material order, the non-empty buckets of faces by material
    index: a material that no face uses yields no sub-mesh, a used one
    yields exactly one, holding all its faces in their order. *)
Theorem sub_meshes_follow_materials (tri : BMesh -> BMesh) (Inst : Type)
        (mesh : Mesh) (obj : Inst) :
  materials mesh <> [] ->
  wf_bmesh (tri (from_mesh mesh)) = true ->
  sub_faces (separate_mesh_by_material tri mesh obj)
  = filter nonempty
           (map (material_bucket (faces (tri (from_mesh mesh))))
                (seq 0 (List.length (materials mesh)))).
Proof.
  intros Hm Hwf. unfold separate_mesh_by_material.
  destruct (materials mesh) as [|m ms] eqn:Em; [contradiction|]. rewrite <- Em.
  clear Em Hm m ms. unfold enumerate. generalize 0 as s.
  induction (materials mesh) as [|mat mats IH]; intros s; [reflexivity|].
  cbn [enumerate_from flat_map List.length seq map].
  unfold sub_faces in *. rewrite map_app, IH.
  change (map (fun s0 : SubMesh Inst => faces (sub_bmesh s0))
              (split_material mesh (tri (from_mesh mesh)) obj s mat))
    with (sub_faces (split_material mesh (tri (from_mesh mesh)) obj s mat)).
  rewrite split_material_bucket by exact Hwf.
  cbn [filter]. destruct (nonempty _); reflexivity.
Qed.

Lemma sub_meshes_follow_materials_witness :
  sub_faces (separate_mesh_by_material (fun bm => bm) Plane tt)
  = filter nonempty
           (map (material_bucket (faces (from_mesh Plane)))
                (seq 0 (List.length (materials Plane)))).
Proof.
  apply (@sub_meshes_follow_materials (fun bm => bm) unit Plane tt).
  - discriminate.
  - reflexivity.
Defined.

(** ** Attribute flattener: what the arrays hold *)

Lemma attr_key_eqb_refl (k : attr_key) : attr_key_eqb k k = true.
Proof. destruct k; simpl; try reflexivity. apply Nat.eqb_refl. Qed.

Lemma attr_key_eqb_sym (a b : attr_key) : attr_key_eqb a b = attr_key_eqb b a.
Proof. destruct a, b; simpl; try reflexivity. apply Nat.eqb_sym. Qed.

Lemma dict_get_set_attr {V : Type} (d : list (attr_key * V)) (k u : attr_key) (v : V) :
  dict_get attr_key_eqb (dict_set attr_key_eqb d k v) u
  = if attr_key_eqb k u then Some v else dict_get attr_key_eqb d u.
Proof.
  induction d as [|[k' v'] d IH]; simpl.
  - reflexivity.
  - destruct (attr_key_eqb k' k) eqn:E; simpl.
    + apply attr_key_eqb_eq in E. subst k'. now destruct (attr_key_eqb k u).
    + destruct (attr_key_eqb k' u) eqn:E'.
      * apply attr_key_eqb_eq in E'. subst k'. rewrite attr_key_eqb_sym in E.
        now rewrite E.
      * exact IH.
Qed.

Lemma corners_weaken (comp : nat) (g : BMLoop -> list scalar) (L : list BMLoop)
      (s s' : nat) (arr : list scalar) :
  s' <= s -> corners comp g L s arr -> corners comp g L s' arr.
Proof. intros Hs H i l j x Hi. apply H. lia. Qed.

Lemma corners_two (g : BMLoop -> list scalar) (L : list BMLoop) (s : nat)
      (l : BMLoop) (a0 a1 a2 : list scalar) (v0 v1 : scalar) :
  (forall l', List.length (g l') = 2) -> g l = [v0; v1] ->
  nth_error L s = Some l -> corners 2 g L s a0 ->
  list_set a0 (2 * s) v0 = Ok a1 -> list_set a1 (2 * s + 1) v1 = Ok a2 ->
  corners 2 g L (S s) a2.
Proof.
  intros Hg Hgl Hl H0 S0 S1 i l' j x Hi Hl' Hx.
  assert (j < 2) as Hj by (rewrite <- (Hg l'); apply nth_error_Some; congruence).
  rewrite (list_set_nth_error _ _ _ S1), (list_set_nth_error _ _ _ S0).
  destruct (Nat.eq_dec i s) as [->|Hne].
  - rewrite Hl in Hl'. injection Hl' as <-. rewrite Hgl in Hx.
    destruct j as [|[|j]]; [| |lia]; simpl in Hx; injection Hx as <-;
      repeat match goal with
             | |- context [?a =? ?b] => destruct (Nat.eqb_spec a b); try lia
             end; reflexivity.
  - repeat match goal with
           | |- context [?a =? ?b] => destruct (Nat.eqb_spec a b); try lia
           end.
    apply (H0 i l' j x); [lia|assumption|assumption].
Qed.

Lemma corners_three (g : BMLoop -> list scalar) (L : list BMLoop) (s : nat)
      (l : BMLoop) (a0 a1 a2 a3 : list scalar) (v0 v1 v2 : scalar) :
  (forall l', List.length (g l') = 3) -> g l = [v0; v1; v2] ->
  nth_error L s = Some l -> corners 3 g L s a0 ->
  list_set a0 (3 * s) v0 = Ok a1 -> list_set a1 (3 * s + 1) v1 = Ok a2 ->
  list_set a2 (3 * s + 2) v2 = Ok a3 ->
  corners 3 g L (S s) a3.
Proof.
  intros Hg Hgl Hl H0 S0 S1 S2 i l' j x Hi Hl' Hx.
  assert (j < 3) as Hj by (rewrite <- (Hg l'); apply nth_error_Some; congruence).
  rewrite (list_set_nth_error _ _ _ S2), (list_set_nth_error _ _ _ S1),
    (list_set_nth_error _ _ _ S0).
  destruct (Nat.eq_dec i s) as [->|Hne].
  - rewrite Hl in Hl'. injection Hl' as <-. rewrite Hgl in Hx.
    destruct j as [|[|[|j]]]; [| | |lia]; simpl in Hx; injection Hx as <-;
      repeat match goal with
             | |- context [?a =? ?b] => destruct (Nat.eqb_spec a b); try lia
             end; reflexivity.
  - repeat match goal with
           | |- context [?a =? ?b] => destruct (Nat.eqb_spec a b); try lia
           end.
    apply (H0 i l' j x); [lia|assumption|assumption].
Qed.

Lemma corners_four (g : BMLoop -> list scalar) (L : list BMLoop) (s : nat)
      (l : BMLoop) (a0 a1 a2 a3 a4 : list scalar) (v0 v1 v2 v3 : scalar) :
  (forall l', List.length (g l') = 4) -> g l = [v0; v1; v2; v3] ->
  nth_error L s = Some l -> corners 4 g L s a0 ->
  list_set a0 (4 * s) v0 = Ok a1 -> list_set a1 (4 * s + 1) v1 = Ok a2 ->
  list_set a2 (4 * s + 2) v2 = Ok a3 -> list_set a3 (4 * s + 3) v3 = Ok a4 ->
  corners 4 g L (S s) a4.
Proof.
  intros Hg Hgl Hl H0 S0 S1 S2 S3 i l' j x Hi Hl' Hx.
  assert (j < 4) as Hj by (rewrite <- (Hg l'); apply nth_error_Some; congruence).
  rewrite (list_set_nth_error _ _ _ S3), (list_set_nth_error _ _ _ S2),
    (list_set_nth_error _ _ _ S1), (list_set_nth_error _ _ _ S0).
  destruct (Nat.eq_dec i s) as [->|Hne].
  - rewrite Hl in Hl'. injection Hl' as <-. rewrite Hgl in Hx.
    destruct j as [|[|[|[|j]]]]; [| | | |lia]; simpl in Hx; injection Hx as <-;
      repeat match goal with
             | |- context [?a =? ?b] => destruct (Nat.eqb_spec a b); try lia
             end; reflexivity.
  - repeat match goal with
           | |- context [?a =? ?b] => destruct (Nat.eqb_spec a b); try lia
           end.
    apply (H0 i l' j x); [lia|assumption|assumption].
Qed.

Lemma write_uvs_corners (keys : list string) (L : list BMLoop) (s : nat)
      (loop : BMLoop) :
  nth_error L s = Some loop ->
  forall (done : list string) (uvd uvd' : list (string * list scalar)),
    NoDup (dict_keys uvd) ->
    (forall u arr, In (u, arr) uvd ->
                   corners 2 (corner_uv u) L s arr
                   /\ (In u done -> corners 2 (corner_uv u) L (S s) arr)) ->
    write_uvs s loop keys uvd = Ok uvd' ->
    NoDup (dict_keys uvd')
    /\ (forall u, In u (dict_keys uvd') -> In u (dict_keys uvd) \/ In u keys)
    /\ forall u arr, In (u, arr) uvd' ->
                     corners 2 (corner_uv u) L s arr
                     /\ (In u (done ++ keys) -> corners 2 (corner_uv u) L (S s) arr).
Proof.
  intros Hl. unfold write_uvs.
  induction keys as [|k keys IH]; intros done uvd uvd' Hnd Hf; cbn [for_each].
  - intros [= <-]. rewrite app_nil_r. split; [exact Hnd|]. split; [auto|exact Hf].
  - destruct (dict_get String.eqb uvd k) as [arr|] eqn:Eg; [|discriminate].
    intros H. cbn [bind] in H.
    do 2 invert_list_set H.
    apply dict_get_In in Eg as (k' & Hin & Ek). apply String.eqb_eq in Ek. subst k'.
    destruct (Hf _ _ Hin) as [Harr _].
    assert (corners 2 (corner_uv k) L (S s) ys0) as F2.
    { exact (@corners_two (corner_uv k) L s loop arr ys ys0 _ _
               (fun _ => eq_refl) eq_refl Hl Harr E E0). }
    replace (done ++ k :: keys) with ((done ++ [k]) ++ keys)
      by (rewrite <- app_assoc; reflexivity).
    assert (forall u a,
               In (u, a) (dict_set String.eqb uvd k ys0) ->
               corners 2 (corner_uv u) L s a
               /\ (In u (done ++ [k]) -> corners 2 (corner_uv u) L (S s) a)) as Hf'.
    { intros u a Hua.
      apply dict_set_In_other in Hua; [|exact Hnd].
      destruct Hua as [[= -> ->]|[Hua Hne]].
      - split; [|intros _; exact F2]. eapply corners_weaken; [|exact F2]. lia.
      - destruct (Hf _ _ Hua) as [Ha Hd]. split; [exact Ha|].
        intros Hu. apply in_app_or in Hu as [Hu|[->|[]]]; [now apply Hd|congruence]. }
    destruct (IH (done ++ [k]) _ _ (dict_set_NoDup uvd k ys0 Hnd) Hf' H)
      as (R1 & R2 & R3).
    split; [exact R1|]. split; [|exact R3].
    intros u Hu. destruct (R2 u Hu) as [Hu'|Hu']; [|right; now right].
    apply dict_set_keys in Hu' as [->|Hu']; [right; now left|now left].
Qed.

Lemma flatten_loop_flattened (keys : list string) (L : list BMLoop) (s : nat)
      (loop : BMLoop) (st st' : FlatArrays) :
  nth_error L s = Some loop ->
  flattened keys L s st ->
  flatten_loop keys st (s, loop) = Ok st' ->
  flattened keys L (S s) st'.
Proof.
  intros Hl (Hp & Hn & Hnd & Hk & Hu & Hc). unfold flatten_loop.
  destruct (write_uvs s loop keys (uvdata st)) as [uvd|] eqn:Eu; [|discriminate].
  cbn [bind]. intros H. do 6 invert_list_set H.
  apply (@write_uvs_corners keys L s loop Hl [] (uvdata st) uvd Hnd) in Eu.
  2:{ intros u arr Hin. split; [now apply (Hu u)|intros []]. }
  destruct Eu as (Und & Ukeys & Uf).
  assert (corners 3 corner_position L (S s) ys1) as Fp.
  { exact (@corners_three corner_position L s loop (vertposlist st) ys ys0 ys1
             _ _ _ (fun _ => eq_refl) eq_refl Hl Hp E E0 E1). }
  assert (corners 3 corner_normal L (S s) ys4) as Fn.
  { exact (@corners_three corner_normal L s loop (vertnormallist st) ys2 ys3 ys4
             _ _ _ (fun _ => eq_refl) eq_refl Hl Hn E2 E3 E4). }
  assert (forall u, In u (dict_keys uvd) -> In u keys) as Uk.
  { intros u Hin. destruct (Ukeys u Hin); auto. }
  assert (forall u arr, In (u, arr) uvd -> corners 2 (corner_uv u) L (S s) arr) as Uc.
  { intros u arr Hin. apply (Uf u arr Hin). simpl. apply Uk.
    change u with (fst (u, arr)). now apply in_map. }
  destruct (vertcollist st) as [c|] eqn:Ec.
  - do 4 invert_list_set H. injection H as <-.
    unfold flattened. cbn [vertposlist vertnormallist uvdata vertcollist].
    split; [exact Fp|]. split; [exact Fn|]. split; [exact Und|].
    split; [exact Uk|]. split; [exact Uc|].
    intros c' [= <-].
    exact (@corners_four corner_color L s loop c ys5 ys6 ys7 ys8 _ _ _ _
             (fun _ => eq_refl) eq_refl Hl (Hc c eq_refl) E5 E6 E7 E8).
  - injection H as <-.
    unfold flattened. cbn [vertposlist vertnormallist uvdata vertcollist].
    split; [exact Fp|]. split; [exact Fn|]. split; [exact Und|].
    split; [exact Uk|]. split; [exact Uc|discriminate].
Qed.

Lemma for_each_flattened (keys : list string) (L : list BMLoop)
      (rest : list BMLoop) :
  forall (s : nat) (st st' : FlatArrays),
    (forall i l, nth_error rest i = Some l -> nth_error L (s + i) = Some l) ->
    flattened keys L s st ->
    for_each (flatten_loop keys) (enumerate_from s rest) st = Ok st' ->
    flattened keys L (s + List.length rest) st'.
Proof.
  induction rest as [|l rest IH]; intros s st st' Hrest Hw;
    cbn [enumerate_from for_each].
  - intros [= <-]. now rewrite Nat.add_0_r.
  - destruct (flatten_loop keys st (s, l)) as [st1|] eqn:E; [|discriminate].
    cbn [bind]. intros H.
    apply flatten_loop_flattened with (L := L) in E; [|now rewrite <- (Hrest 0 l), Nat.add_0_r|exact Hw].
    apply IH in H; [|intros i l' Hi; rewrite <- (Hrest (S i) l' Hi); f_equal; lia|exact E].
    simpl. now rewrite <- Nat.add_succ_comm.
Qed.

Lemma uvdata0_keys (n : nat) (ks : list string) :
  forall d : list (string * list scalar),
    NoDup (dict_keys d) ->
    let r := fold_left (fun d i => dict_set String.eqb d i (repeat SNone (n * 2)))
                       ks d in
    NoDup (dict_keys r)
    /\ forall u, In u (dict_keys r) -> In u (dict_keys d) \/ In u ks.
Proof.
  induction ks as [|k ks IHk]; intros d Hd; simpl; [auto|].
  destruct (IHk _ (dict_set_NoDup d k (repeat SNone (n * 2)) Hd)) as [N1 N2].
  split; [exact N1|]. intros u Hu. destruct (N2 u Hu) as [Hu'|Hu']; [|auto].
  apply dict_set_keys in Hu' as [->|Hu']; auto.
Qed.

Lemma flatten_arrays_flattened (mesh : BMesh) (fa : FlatArrays) :
  flatten_arrays mesh = Ok fa ->
  flattened (uv_layers mesh) (flat_map loops (faces mesh))
            (List.length (flat_map loops (faces mesh))) fa.
Proof.
  unfold flatten_arrays, mesh_loops, enumerate. rewrite enumerate_from_length.
  intros H.
  apply for_each_flattened with (L := flat_map loops (faces mesh)) in H;
    [exact H|auto|].
  unfold flattened. cbn [vertposlist vertnormallist uvdata vertcollist].
  split; [intros i l j x Hi; lia|]. split; [intros i l j x Hi; lia|].
  destruct (@uvdata0_keys (List.length (flat_map loops (faces mesh)))
                          (uv_layers mesh) []) as [N1 N2]; [constructor|].
  split; [exact N1|]. split.
  { intros u Hu. destruct (N2 u Hu) as [[]|Hu']. exact Hu'. }
  split; [intros u arr _ i l j x Hi; lia|intros c _ i l j x Hi; lia].
Qed.

Lemma nth_error_flat_map_uniform {A B : Type} (g : A -> list B) (comp : nat)
      (L : list A) :
  (forall l, List.length (g l) = comp) ->
  forall i l j, nth_error L i = Some l -> j < comp ->
                nth_error (flat_map g L) (comp * i + j) = nth_error (g l) j.
Proof.
  intros Hg. induction L as [|a L IH]; intros i l j Hi Hj.
  - destruct i; discriminate.
  - destruct i as [|i]; simpl in Hi.
    + injection Hi as ->. simpl. rewrite Nat.mul_0_r. simpl.
      apply nth_error_app1. now rewrite Hg.
    + simpl. rewrite nth_error_app2 by (rewrite Hg; nia).
      rewrite Hg. replace (comp * S i + j - comp) with (comp * i + j) by nia.
      now apply IH.
Qed.

Lemma length_flat_map_uniform {A B : Type} (g : A -> list B) (comp : nat)
      (L : list A) :
  (forall l, List.length (g l) = comp) ->
  List.length (flat_map g L) = List.length L * comp.
Proof.
  intros Hg. induction L as [|a L IH]; simpl; [reflexivity|].
  now rewrite length_app, Hg, IH.
Qed.

(** When every corner has been written, the array is the corners' data one
    after the other. *)
Lemma corners_all (comp : nat) (g : BMLoop -> list scalar) (L : list BMLoop)
      (arr : list scalar) :
  0 < comp -> (forall l, List.length (g l) = comp) ->
  List.length arr = List.length L * comp ->
  corners comp g L (List.length L) arr ->
  arr = flat_map g L.
Proof.
  intros Hc Hg Hlen H. apply nth_error_ext. intros k.
  destruct (Nat.lt_ge_cases k (List.length arr)) as [Hk|Hk].
  - pose proof (Nat.div_mod_eq k comp) as Hdm.
    assert (k mod comp < comp) as Hj by (apply Nat.mod_upper_bound; lia).
    assert (k / comp < List.length L) as Hi by nia.
    destruct (nth_error L (k / comp)) as [l|] eqn:El;
      [|apply nth_error_None in El; lia].
    destruct (nth_error (g l) (k mod comp)) as [x|] eqn:Ex;
      [|apply nth_error_None in Ex; rewrite Hg in Ex; lia].
    rewrite Hdm.
    generalize dependent (k mod comp). generalize dependent (k / comp).
    intros i Hi El j _ Hj Ex.
    rewrite (H i l j x Hi El Ex).
    rewrite (@nth_error_flat_map_uniform _ _ g comp L Hg i l j El Hj).
    now rewrite Ex.
  - assert (nth_error arr k = None) as -> by now apply nth_error_None.
    symmetry. apply nth_error_None.
    rewrite (@length_flat_map_uniform _ _ g comp L Hg). lia.
Qed.

(** [file_uvs] only touches the [texCoord] keys of its entries. *)
Lemma file_uvs_untouched (uv_list : list string)
      (entries : list (string * list scalar)) :
  forall (vd vd' : vert_data_t) (k : attr_key),
    file_uvs uv_list entries vd = Ok vd' ->
    (forall u arr N, In (u, arr) entries -> list_index uv_list u = Ok N ->
                     k <> TexCoord N) ->
    dict_get attr_key_eqb vd' k = dict_get attr_key_eqb vd k.
Proof.
  unfold file_uvs.
  induction entries as [|[u arr] entries IH]; intros vd vd' k; cbn [for_each].
  - now intros [= <-].
  - destruct (list_index uv_list u) as [N|e] eqn:EN; [|discriminate].
    cbn [bind]. intros H Hk.
    rewrite (IH _ _ k H) by (intros u' arr' N' Hin; apply (Hk u' arr' N'); now right).
    rewrite dict_get_set_attr.
    destruct (attr_key_eqb (TexCoord N) k) eqn:E; [|reflexivity].
    apply attr_key_eqb_eq in E. exfalso. apply (Hk u arr N); [now left|exact EN|].
    now symmetry.
Qed.

Lemma list_index_inj (xs : list string) (u u' : string) (N : nat) :
  list_index xs u = Ok N -> list_index xs u' = Ok N -> u = u'.
Proof.
  unfold list_index. intros H H'.
  apply index_from_first in H as (_ & H & _).
  apply index_from_first in H' as (_ & H' & _). congruence.
Qed.

Lemma file_uvs_get (uv_list : list string)
      (entries : list (string * list scalar)) :
  forall (vd vd' : vert_data_t) (u : string) (arr : list scalar) (N : nat),
    NoDup (dict_keys entries) ->
    file_uvs uv_list entries vd = Ok vd' ->
    In (u, arr) entries -> list_index uv_list u = Ok N ->
    dict_get attr_key_eqb vd' (TexCoord N) = Some (mkAttribute "float32" 2 arr).
Proof.
  induction entries as [|[u0 arr0] entries IH]; intros vd vd' u arr N Hnd H Hin HN.
  - contradiction.
  - unfold dict_keys in Hnd. simpl in Hnd.
    inversion Hnd as [|? ? Hnotin Hnd']; subst.
    unfold file_uvs in H. cbn [for_each] in H.
    destruct (list_index uv_list u0) as [N0|e] eqn:EN; [|discriminate].
    cbn [bind] in H.
    destruct Hin as [[= -> ->]|Hin].
    + rewrite (@file_uvs_untouched uv_list entries _ vd' (TexCoord N) H).
      * rewrite EN in HN. injection HN as ->.
        now rewrite dict_get_set_attr, attr_key_eqb_refl.
      * intros u' arr' N' Hin' HN' [= E]. subst N'.
        apply Hnotin. rewrite (list_index_inj _ _ _ HN HN').
        change u' with (fst (u', arr')). now apply in_map.
    + eapply IH; eauto.
Qed.

(** What a successful [MeshParser] has computed, piece by piece. *)
Lemma MeshParser_init_inv (mesh : BMesh) (id_num : nat) (uv_list : list string)
      (mp : MeshParser) :
  MeshParser_init mesh id_num uv_list = Ok mp ->
  exists fa,
    flatten_arrays mesh = Ok fa
    /\ file_uvs uv_list (uvdata fa)
         (match vertcollist fa with
          | Some c =>
              dict_set attr_key_eqb
                [(Position, mkAttribute "float32" 3 (vertposlist fa));
                 (Normal, mkAttribute "float32" 3 (vertnormallist fa))]
                ColorAttr (mkAttribute "uint8" 4 c)
          | None =>
              [(Position, mkAttribute "float32" 3 (vertposlist fa));
               (Normal, mkAttribute "float32" 3 (vertnormallist fa))]
          end) = Ok (vert_data mp)
    /\ indices mp = fa_indices fa
    /\ count mp = List.length (fa_indices fa)
    /\ mp_vertices mp = id_num
    /\ aabb mp = calculate_bounding_box mesh.
Proof.
  unfold MeshParser_init, update_mesh_data. intros H.
  destruct (flatten_arrays mesh) as [fa|e] eqn:Efa; [|discriminate].
  cbn [bind] in H.
  destruct (file_uvs uv_list (uvdata fa) _) as [vd|e] eqn:Evd; [|discriminate].
  cbn [bind] in H. injection H as <-.
  exists fa. split; [reflexivity|]. split; [exact Evd|]. repeat split.
Qed.

(** X4: the position, normal and colour arrays of a parsed mesh hold the
    data of its corners one after the other, face by face: per corner the
    three coordinates of its vertex, the three of its normal and, when the
    mesh has an active colour layer, the colour as [int(c * 255)] for red,
    green and blue followed by 255.  Nothing is shared between corners, and
    there is no colour attribute without an active colour layer. *)
Theorem MeshParser_corner_data (mesh : BMesh) (id_num : nat)
        (uv_list : list string) (mp : MeshParser) :
  MeshParser_init mesh id_num uv_list = Ok mp ->
  dict_get attr_key_eqb (vert_data mp) Position
  = Some (mkAttribute "float32" 3
            (flat_map corner_position (flat_map loops (faces mesh))))
  /\ dict_get attr_key_eqb (vert_data mp) Normal
     = Some (mkAttribute "float32" 3
               (flat_map corner_normal (flat_map loops (faces mesh))))
  /\ dict_get attr_key_eqb (vert_data mp) ColorAttr
     = (if Z.eqb (vertex_colors_active_index mesh) (-1) then None
        else Some (mkAttribute "uint8" 4
                     (flat_map corner_color (flat_map loops (faces mesh))))).
Proof.
  intros H. apply MeshParser_init_inv in H as (fa & Efa & Evd & _).
  destruct (flatten_arrays_ok mesh) as (fa' & Efa' & Hsized & _ & Hcol).
  rewrite Efa in Efa'. injection Efa' as <-.
  set (L := flat_map loops (faces mesh)) in *.
  destruct Hsized as (Lp & Ln & _ & _ & Lc).
  destruct (flatten_arrays_flattened mesh Efa) as (Fp & Fn & _ & _ & _ & Fc).
  fold L in Fp, Fn, Fc.
  assert (vertposlist fa = flat_map corner_position L) as Ep
      by (apply (@corners_all 3); auto; lia).
  assert (vertnormallist fa = flat_map corner_normal L) as En
      by (apply (@corners_all 3); auto; lia).
  assert (forall k, (forall N, k <> TexCoord N) ->
                    dict_get attr_key_eqb (vert_data mp) k
                    = dict_get attr_key_eqb
                        (match vertcollist fa with
                         | Some c =>
                             dict_set attr_key_eqb
                               [(Position, mkAttribute "float32" 3 (vertposlist fa));
                                (Normal, mkAttribute "float32" 3 (vertnormallist fa))]
                               ColorAttr (mkAttribute "uint8" 4 c)
                         | None =>
                             [(Position, mkAttribute "float32" 3 (vertposlist fa));
                              (Normal, mkAttribute "float32" 3 (vertnormallist fa))]
                         end) k) as Hget.
  { intros k Hk. apply (@file_uvs_untouched uv_list (uvdata fa) _ _ k Evd).
    intros u arr N _ _. apply Hk. }
  rewrite !Hget by discriminate.
  destruct (vertcollist fa) as [c|] eqn:Ec.
  - assert (c = flat_map corner_color L) as Ecol
        by (apply (@corners_all 4); auto; lia).
    destruct (Z.eqb_spec (vertex_colors_active_index mesh) (-1)) as [Hz|Hz].
    + apply Hcol in Hz. discriminate.
    + simpl. rewrite Ep, En, Ecol. auto.
  - destruct (Z.eqb_spec (vertex_colors_active_index mesh) (-1)) as [Hz|Hz].
    + simpl. rewrite Ep, En. auto.
    + exfalso. apply Hz. now apply Hcol.
Qed.

Lemma MeshParser_corner_data_witness :
  exists mp,
    MeshParser_init one_triangle 0 [] = Ok mp
    /\ dict_get attr_key_eqb (vert_data mp) Position
       = Some (mkAttribute "float32" 3
                 (flat_map corner_position (flat_map loops (faces one_triangle)))).
Proof.
  eexists. split; [vm_compute; reflexivity|].
  refine (proj1 (@MeshParser_corner_data one_triangle 0 [] _ _)).
  vm_compute. reflexivity.
Defined.

(** X5: for every UV layer of the mesh, the attribute filed under
    [texCoord<N>], where [N] is the layer's first position in the registry,
    holds the layer's coordinates of the corners, two per corner, face by
    face. *)
Theorem MeshParser_uv_data (mesh : BMesh) (id_num : nat)
        (uv_list : list string) (mp : MeshParser) (u : string) (N : nat) :
  MeshParser_init mesh id_num uv_list = Ok mp ->
  In u (uv_layers mesh) ->
  list_index uv_list u = Ok N ->
  dict_get attr_key_eqb (vert_data mp) (TexCoord N)
  = Some (mkAttribute "float32" 2
            (flat_map (corner_uv u) (flat_map loops (faces mesh)))).
Proof.
  intros H Hu HN. apply MeshParser_init_inv in H as (fa & Efa & Evd & _).
  destruct (flatten_arrays_ok mesh) as (fa' & Efa' & Hsized & _ & _).
  rewrite Efa in Efa'. injection Efa' as <-.
  set (L := flat_map loops (faces mesh)) in *.
  destruct Hsized as (_ & _ & Lu & Hu2 & _).
  destruct (flatten_arrays_flattened mesh Efa) as (_ & _ & Hnd & _ & Fu & _).
  fold L in Fu.
  specialize (Hu2 u Hu).
  destruct (dict_get String.eqb (uvdata fa) u) as [arr|] eqn:Eg; [|contradiction].
  apply dict_get_In in Eg as (u' & Hin & Eu). apply String.eqb_eq in Eu. subst u'.
  rewrite (@file_uvs_get uv_list (uvdata fa) _ _ u arr N Hnd Evd Hin HN).
  do 2 f_equal.
  apply (@corners_all 2);
    [lia|reflexivity|exact (proj2 (Lu u arr Hin))|exact (Fu u arr Hin)].
Qed.

Lemma MeshParser_uv_data_witness :
  exists mp,
    MeshParser_init (sub_bmesh ("Cube.Red"%string, pruned (from_mesh Cube) 0, tt)) 0
                    ["Other"; "UVMap"]%string = Ok mp
    /\ dict_get attr_key_eqb (vert_data mp) (TexCoord 1)
       = Some (mkAttribute "float32" 2
                 (flat_map (corner_uv "UVMap")
                    (flat_map loops (faces (pruned (from_mesh Cube) 0))))).
Proof.
  eexists. split; [vm_compute; reflexivity|].
  apply (@MeshParser_uv_data
           (sub_bmesh ("Cube.Red"%string, pruned (from_mesh Cube) 0, tt)) 0
           ["Other"; "UVMap"]%string _ "UVMap"%string 1).
  - vm_compute. reflexivity.
  - vm_compute. left. reflexivity.
  - reflexivity.
Defined.

Lemma index_from_raises (u : string) (xs : list string) (s : nat) (e : exn) :
  index_from s u xs = Raise e -> e = ValueError /\ ~ In u xs.
Proof.
  revert s. induction xs as [|x xs IH]; intros s; simpl.
  - intros [= <-]. split; [reflexivity|intros []].
  - destruct (String.eqb x u) eqn:E; [discriminate|].
    intros H. destruct (IH _ H) as [He Hn]. split; [exact He|].
    intros [->|Hin]; [|contradiction].
    rewrite String.eqb_refl in E. discriminate.
Qed.

Lemma file_uvs_raises (uv_list : list string)
      (entries : list (string * list scalar)) :
  forall (vd : vert_data_t) (e : exn),
    file_uvs uv_list entries vd = Raise e ->
    e = ValueError /\ exists u arr, In (u, arr) entries /\ ~ In u uv_list.
Proof.
  unfold file_uvs.
  induction entries as [|[u arr] entries IH]; intros vd e; cbn [for_each].
  - discriminate.
  - destruct (list_index uv_list u) as [N|e'] eqn:EN; cbn [bind].
    + intros H. destruct (IH _ _ H) as (He & u' & arr' & Hin & Hn).
      split; [exact He|]. exists u', arr'. split; [now right|exact Hn].
    + intros [= <-]. apply index_from_raises in EN as [He Hn].
      split; [exact He|]. exists u, arr. split; [now left|exact Hn].
Qed.

Lemma file_uvs_unregistered (uv_list : list string)
      (entries : list (string * list scalar)) :
  forall vd : vert_data_t,
    (exists u arr, In (u, arr) entries /\ ~ In u uv_list) ->
    file_uvs uv_list entries vd = Raise ValueError.
Proof.
  unfold file_uvs.
  induction entries as [|[u arr] entries IH]; intros vd (u' & arr' & Hin & Hn);
    cbn [for_each]; [contradiction|].
  destruct (list_index uv_list u) as [N|e] eqn:EN; cbn [bind].
  - apply IH. exists u', arr'. split; [|exact Hn].
    destruct Hin as [[= <- <-]|Hin]; [|exact Hin].
    exfalso. apply Hn. unfold list_index in EN.
    apply index_from_first in EN as (_ & EN & _). eapply nth_error_In; eauto.
  - apply index_from_raises in EN as [-> _]. reflexivity.
Qed.

(** X6: [MeshParser] raises exactly when the mesh has a UV layer that the
    registry does not list, and what it raises is the [ValueError] of
    [uv_list.index]; it raises nothing else. *)
Theorem MeshParser_unregistered_layer (mesh : BMesh) (id_num : nat)
        (uv_list : list string) :
  (MeshParser_init mesh id_num uv_list = Raise ValueError
   <-> exists u, In u (uv_layers mesh) /\ ~ In u uv_list)
  /\ forall e, MeshParser_init mesh id_num uv_list = Raise e -> e = ValueError.
Proof.
  destruct (flatten_arrays_ok mesh) as (fa & Efa & Hsized & _ & _).
  destruct Hsized as (_ & _ & Lu & Hu2 & _).
  assert (forall e, MeshParser_init mesh id_num uv_list = Raise e ->
                    e = ValueError
                    /\ exists u, In u (uv_layers mesh) /\ ~ In u uv_list) as Hraise.
  { intros e. unfold MeshParser_init, update_mesh_data. rewrite Efa. cbn [bind].
    destruct (file_uvs uv_list (uvdata fa) _) as [vd|e'] eqn:Evd; [discriminate|].
    cbn [bind]. intros [= <-].
    apply file_uvs_raises in Evd as (He & u & arr & Hin & Hn).
    split; [exact He|]. exists u. split; [exact (proj1 (Lu u arr Hin))|exact Hn]. }
  split; [split|].
  - intros H. exact (proj2 (Hraise _ H)).
  - intros (u & Hu & Hn). unfold MeshParser_init, update_mesh_data.
    rewrite Efa. cbn [bind]. rewrite file_uvs_unregistered; [reflexivity|].
    specialize (Hu2 u Hu).
    destruct (dict_get String.eqb (uvdata fa) u) as [arr|] eqn:Eg; [|contradiction].
    apply dict_get_In in Eg as (u' & Hin & Eu). apply String.eqb_eq in Eu. subst u'.
    exists u, arr. now split.
  - intros e H. exact (proj1 (Hraise _ H)).
Qed.

(** ** Bounding box: what is reported *)

(** X7: on a mesh with a corner, the bounding box that [MeshParser] stores
    has as minimum, per axis, the least coordinate of the corners' vertices,
    and as maximum the position of the vertex of the last corner of the last
    face. *)
Theorem calculate_bounding_box_extents (mesh : BMesh) (ls : list BMLoop)
        (l : BMLoop) :
  flat_map loops (faces mesh) = ls ++ [l] ->
  bb_max (calculate_bounding_box mesh)
  = [Finite (vx (co (vert l))); Finite (vy (co (vert l))); Finite (vz (co (vert l)))]
  /\ exists mx my mz,
      bb_min (calculate_bounding_box mesh) = [Finite mx; Finite my; Finite mz]
      /\ (exists c, In c (ls ++ [l]) /\ mx = vx (co (vert c)))
      /\ (exists c, In c (ls ++ [l]) /\ my = vy (co (vert c)))
      /\ (exists c, In c (ls ++ [l]) /\ mz = vz (co (vert c)))
      /\ forall c, In c (ls ++ [l]) ->
                   (mx <= vx (co (vert c)) /\ my <= vy (co (vert c))
                    /\ mz <= vz (co (vert c)))%Q.
Proof.
  intros H. split; [now apply (@bounding_box_max_last_corner mesh ls l)|].
  rewrite <- H. apply (@bounding_box_min_correct mesh l).
  rewrite H. apply in_or_app. right. now left.
Qed.

Lemma calculate_bounding_box_extents_witness :
  bb_max (calculate_bounding_box one_triangle)
  = [Finite (vx (co (vert (corner vert_c)))); Finite (vy (co (vert (corner vert_c))));
     Finite (vz (co (vert (corner vert_c))))]
  /\ exists mx my mz,
      bb_min (calculate_bounding_box one_triangle) = [Finite mx; Finite my; Finite mz]
      /\ (exists c, In c ([corner vert_a; corner vert_b] ++ [corner vert_c])
                    /\ mx = vx (co (vert c)))
      /\ (exists c, In c ([corner vert_a; corner vert_b] ++ [corner vert_c])
                    /\ my = vy (co (vert c)))
      /\ (exists c, In c ([corner vert_a; corner vert_b] ++ [corner vert_c])
                    /\ mz = vz (co (vert c)))
      /\ forall c, In c ([corner vert_a; corner vert_b] ++ [corner vert_c]) ->
                   (mx <= vx (co (vert c)) /\ my <= vy (co (vert c))
                    /\ mz <= vz (co (vert c)))%Q.
Proof.
  apply (@calculate_bounding_box_extents one_triangle
           [corner vert_a; corner vert_b] (corner vert_c)).
  reflexivity.
Defined.

(** ** Scene traversal: [children_recursive] and [ObjectHeirachy] *)

Lemma SceneObject_induction (P : SceneObject -> Prop) :
  (forall ob cs, Forall P cs -> P (mkSceneObject ob cs)) ->
  forall o, P o.
Proof.
  intros H. fix IH 1. intros [ob cs]. apply H.
  induction cs as [|c cs IHcs]; constructor; [apply IH|exact IHcs].
Qed.

Lemma children_recursive_flat_map (ob : Object) (cs : list SceneObject) :
  children_recursive (mkSceneObject ob cs)
  = flat_map (fun c => children_recursive c ++ [c]) cs.
Proof.
  cbn [children_recursive].
  assert (forall acc,
             fold_left (fun child_list child =>
                          (child_list ++ children_recursive child) ++ [child])
                       cs acc
             = acc ++ flat_map (fun c => children_recursive c ++ [c]) cs) as H.
  { induction cs as [|c cs IH]; intros acc; simpl.
    - now rewrite app_nil_r.
    - rewrite IH. now rewrite <- !app_assoc. }
  apply (H []).
Qed.

Lemma children_recursive_perm (root : SceneObject) :
  Permutation (children_recursive root ++ [root]) (subtree root).
Proof.
  induction root as [ob cs IH] using SceneObject_induction.
  rewrite children_recursive_flat_map. cbn [subtree].
  apply Permutation_sym, Permutation_cons_app. rewrite app_nil_r.
  apply Permutation_sym.
  induction IH as [|c cs Hc _ IHcs]; simpl; [constructor|].
  now apply Permutation_app.
Qed.

Lemma children_recursive_block (root n : SceneObject) :
  In n (subtree root) ->
  exists before after,
    children_recursive root ++ [root]
    = before ++ (children_recursive n ++ [n]) ++ after.
Proof.
  induction root as [ob cs IH] using SceneObject_induction.
  cbn [subtree]. intros [<-|Hin].
  - exists [], []. now rewrite app_nil_r.
  - apply in_flat_map in Hin as (c & Hc & Hn).
    rewrite Forall_forall in IH. destruct (IH c Hc Hn) as (b & a & E).
    apply in_split in Hc as (l1 & l2 & ->).
    rewrite children_recursive_flat_map, flat_map_app. cbn [flat_map].
    rewrite E.
    exists (flat_map (fun c0 => children_recursive c0 ++ [c0]) l1 ++ b),
      (a ++ flat_map (fun c0 => children_recursive c0 ++ [c0]) l2
         ++ [mkSceneObject ob (l1 ++ c :: l2)]).
    now rewrite <- !app_assoc.
Qed.

(** X8: the hierarchy made for a root object lists every object of the
    tree under the root exactly once, whether selected or not; each object
    comes directly after the block of all its descendants, so children
    precede their parents and the root is last. *)
Theorem ObjectHeirachy_postorder (name : string) (root : SceneObject) :
  Permutation (objects (ObjectHeirachy_init name (Some root)))
              (map so_object (subtree root))
  /\ forall n,
      In n (subtree root) ->
      exists before after,
        objects (ObjectHeirachy_init name (Some root))
        = before ++ map so_object (children_recursive n ++ [n]) ++ after.
Proof.
  cbn [ObjectHeirachy_init objects]. split.
  - apply Permutation_map, children_recursive_perm.
  - intros n Hn. destruct (children_recursive_block root n Hn) as (b & a & E).
    exists (map so_object b), (map so_object a). now rewrite E, !map_app.
Qed.

(** ** The files of an export *)

Lemma main_document_paths_app (xs ys : list fs_event) :
  main_document_paths (xs ++ ys) = main_document_paths xs ++ main_document_paths ys.
Proof. unfold main_document_paths. apply flat_map_app. Qed.

Lemma material_events_no_main (ext : list fs_event) :
  Forall material_event ext -> main_document_paths ext = [].
Proof.
  induction 1 as [|e ext He _ IH]; [reflexivity|].
  cbn. destruct e as [p [m|ps|d]|src dst]; simpl in *; try contradiction; exact IH.
Qed.

Lemma map_mesh_events (path_data : PathData) (rel : string)
      (st st' : MappingState) (sub : InstSubMesh) :
  map_mesh path_data rel st sub = Ok st' ->
  ms_fs st' = ms_fs st ++ (if has_materials sub then []
                           else [dummy_material_write path_data]).
Proof.
  unfold map_mesh, has_materials.
  destruct (sub_instances sub) as [|first rest]; [discriminate|]. cbn [bind].
  destruct (data_materials (obj_data first)) as [|m0 ms0] eqn:Em.
  - intros [= <-]. reflexivity.
  - destruct (match faces (sub_bmesh sub) with
              | [] => ms_mat_id st
              | face :: _ => Some (material_index face)
              end) as [i|]; [|discriminate].
    cbn [bind]. destruct (list_get (m0 :: ms0) i) as [mat|e]; [|discriminate].
    cbn [bind]. intros [= <-]. cbn. now rewrite app_nil_r.
Qed.

Lemma for_each_map_mesh_events (path_data : PathData) (rel : string)
      (subs : list InstSubMesh) :
  forall st st' : MappingState,
    for_each (map_mesh path_data rel) subs st = Ok st' ->
    ms_fs st'
    = ms_fs st ++ map (fun _ => dummy_material_write path_data)
                      (filter (fun sub => negb (has_materials sub)) subs).
Proof.
  induction subs as [|sub subs IH]; intros st st'; cbn [for_each].
  - intros [= <-]. now rewrite app_nil_r.
  - destruct (map_mesh path_data rel st sub) as [st1|e] eqn:E; [|discriminate].
    cbn [bind]. intros H. rewrite (IH _ _ H), (map_mesh_events _ _ _ _ E).
    rewrite <- app_assoc. f_equal. cbn [filter].
    now destruct (has_materials sub).
Qed.

(** X15: between the files that were there and the mapping document,
    [export_mappings] writes the dummy descriptor [None.json] once for every
    mesh instance of a sub-mesh that it reads as having no materials, and
    nothing else.  The test is made on the data of the sub-mesh's first
    instance ([mesh_map[2][0].data]), so the instances of a sub-mesh are
    treated alike; the same file is rewritten for each of them, and no
    material descriptor is written at this stage. *)
Theorem export_mappings_dummy_writes (env : Blender) (heirachy : ObjectHeirachy)
        (mesh_list : list InstSubMesh) (path_data : PathData)
        (fs fs1 : list fs_event) (mats : list Material) (mapping : list string) :
  export_mappings env heirachy mesh_list path_data fs = Ok (mats, mapping, fs1) ->
  fs1 = fs
        ++ map (fun _ => dummy_material_write path_data)
               (filter (fun mi => negb (has_materials (fst mi)))
                       (mesh_instances mesh_list))
        ++ [FileWrite (os_path_join (path_mesh path_data)
                         (heirachy_name heirachy ++ ".mapping.json")%string)
                      (MappingDocument mapping)].
Proof.
  unfold export_mappings.
  destruct (for_each _ (map fst (mesh_instances mesh_list)) _) as [st|e] eqn:E;
    [|discriminate].
  cbn [bind]. intros [= <- <- <-].
  apply for_each_map_mesh_events in E. rewrite E. cbn [ms_fs].
  rewrite <- app_assoc. do 2 f_equal. clear E.
  induction (mesh_instances mesh_list) as [|mi l IH]; [reflexivity|].
  cbn [map filter]. destruct (has_materials (fst mi)); cbn [negb map]; now rewrite IH.
Qed.

Lemma export_mappings_dummy_writes_witness :
  exists mats mapping fs1,
    export_mappings sample_env child_first
                    (generate_mesh_list sample_env child_first) sample_paths []
    = Ok (mats, mapping, fs1)
    /\ fs1 = []
             ++ map (fun _ => dummy_material_write sample_paths)
                    (filter (fun mi => negb (has_materials (fst mi)))
                            (mesh_instances (generate_mesh_list sample_env child_first)))
             ++ [FileWrite (os_path_join (path_mesh sample_paths)
                              (heirachy_name child_first ++ ".mapping.json")%string)
                           (MappingDocument mapping)].
Proof.
  do 3 eexists. split; [vm_compute; reflexivity|].
  eapply (@export_mappings_dummy_writes sample_env child_first
            (generate_mesh_list sample_env child_first) sample_paths []).
  vm_compute. reflexivity.
Defined.

(** ** Material serializer: files and keys *)

(** What one slot adds: the copy of its image when it is an enabled image
    texture, and only texture-map keys. *)
Lemma parse_image_events (mat : Material) (uv_list : list string)
      (path_data : PathData) (dir : string) (self self' : jdict)
      (fs fs' : list fs_event) (slot : nat * option TextureSlot) :
  parse_image mat uv_list path_data dir (self, fs) slot = Ok (self', fs') ->
  fs' = fs ++ map (fun tex => snd (copy_image tex (path_img path_data)))
                  (enabled_image mat slot)
  /\ forall k, str_in k image_keys = false ->
               dict_get String.eqb self' k = dict_get String.eqb self k.
Proof.
  unfold parse_image, enabled_image. destruct slot as [tex_id [tex|]]; cbn [fst snd].
  2:{ intros [= <- <-]. split; [now rewrite app_nil_r|auto]. }
  destruct (String.eqb (texture_type tex) "IMAGE"); cbn [negb].
  2:{ intros [= <- <-]. split; [now rewrite app_nil_r|auto]. }
  unfold list_get.
  destruct (nth_error (use_textures mat) tex_id) as [used|]; [|discriminate].
  cbn [bind]. destruct used; cbn [negb].
  2:{ intros [= <- <-]. split; [now rewrite app_nil_r|auto]. }
  unfold copy_image.
  destruct (if String.eqb (uv_layer tex) "" then Ok 0
            else list_index uv_list (uv_layer tex)) as [uv|e]; [|discriminate].
  cbn [bind]. cbv zeta. intros [= <- <-]. split; [reflexivity|].
  intros k Hk. unfold str_in, image_keys in Hk. cbn [existsb] in Hk.
  repeat (apply orb_false_iff in Hk as [? Hk]).
  repeat match goal with
         | H : String.eqb k _ = false |- _ => rewrite String.eqb_sym in H
         end.
  repeat match goal with
         | |- context [if ?b then _ else _] => destruct b
         end;
    unfold jset; rewrite ?dict_get_set_str;
    repeat match goal with
           | H : String.eqb _ k = false |- _ => rewrite H; clear H
           end;
    reflexivity.
Qed.

Lemma for_each_parse_image_events (mat : Material) (uv_list : list string)
      (path_data : PathData) (dir : string)
      (slots : list (nat * option TextureSlot)) :
  forall (self self' : jdict) (fs fs' : list fs_event),
    for_each (parse_image mat uv_list path_data dir) slots (self, fs)
    = Ok (self', fs') ->
    fs' = fs ++ map (fun tex => snd (copy_image tex (path_img path_data)))
                    (flat_map (enabled_image mat) slots)
    /\ forall k, str_in k image_keys = false ->
                 dict_get String.eqb self' k = dict_get String.eqb self k.
Proof.
  induction slots as [|slot slots IH]; intros self self' fs fs'; cbn [for_each].
  - intros [= <- <-]. split; [now rewrite app_nil_r|auto].
  - destruct (parse_image mat uv_list path_data dir (self, fs) slot)
      as [[self1 fs1]|e] eqn:E; [|discriminate].
    cbn [bind]. intros H.
    apply parse_image_events in E as [-> K1]. apply IH in H as [-> K2].
    split.
    + cbn [flat_map]. now rewrite map_app, <- app_assoc.
    + intros k Hk. now rewrite K2, K1.
Qed.

Lemma MaterialExporter_events (env : Blender) (mat : Material)
      (uv_list : list string) (path_data : PathData) (fs fs' : list fs_event) :
  MaterialExporter env mat uv_list path_data fs = Ok fs' ->
  exists d,
    fs' = fs
          ++ map (fun tex => snd (copy_image tex (path_img path_data)))
                 (enabled_images mat)
          ++ [FileWrite (os_path_join (path_mat path_data)
                                      (mat_name mat ++ ".json")%string)
                        (MaterialDocument d)]
    /\ forall k, str_in k image_keys = false ->
                 dict_get String.eqb d k
                 = dict_get String.eqb
                     (parse_basic_properties mat
                        (jset (jset [] "mapping_format" (JString "path"))
                              "name" (JString (mat_name mat)))) k.
Proof.
  unfold MaterialExporter. cbv zeta.
  destruct (for_each _ (enumerate (texture_slots mat)) _) as [[self fs1]|e] eqn:E;
    [|discriminate].
  cbn [bind]. intros [= <-].
  apply for_each_parse_image_events in E as [-> K].
  exists self. split; [now rewrite <- app_assoc|exact K].
Qed.

(** X19: a material export that returns has copied one image for every
    enabled image texture slot, in slot order and whether or not the slot
    maps to a channel, and then written exactly one descriptor,
    [<material name>.json] in the material directory.  The slots only
    assign texture-map keys: on every other key the descriptor is what
    [_parse_basic_properties] made it, so it carries the material's name,
    [mapping_format] "path", the diffuse colour, [opacity] exactly when
    alpha is not 1 and [cull] 0 exactly when backface culling is off. *)
Theorem MaterialExporter_files (env : Blender) (mat : Material)
        (uv_list : list string) (path_data : PathData) (fs fs' : list fs_event) :
  MaterialExporter env mat uv_list path_data fs = Ok fs' ->
  exists d,
    fs' = fs
          ++ map (fun tex => snd (copy_image tex (path_img path_data)))
                 (enabled_images mat)
          ++ [FileWrite (os_path_join (path_mat path_data)
                                      (mat_name mat ++ ".json")%string)
                        (MaterialDocument d)]
    /\ (forall k, str_in k image_keys = false ->
                  dict_get String.eqb d k
                  = dict_get String.eqb
                      (parse_basic_properties mat
                         (jset (jset [] "mapping_format" (JString "path"))
                               "name" (JString (mat_name mat)))) k)
    /\ dict_get String.eqb d "name"%string = Some (JString (mat_name mat))
    /\ dict_get String.eqb d "mapping_format"%string = Some (JString "path")
    /\ dict_get String.eqb d "diffuse"%string
       = Some (JFloats (color_list (diffuse_color mat)))
    /\ dict_get String.eqb d "opacity"%string
       = (if Qeq_bool (alpha mat) 1 then None else Some (JFloat (alpha mat)))
    /\ dict_get String.eqb d "cull"%string
       = (if use_backface_culling mat then None else Some (JInt 0)).
Proof.
  intros H. apply MaterialExporter_events in H as (d & Hfs & K).
  exists d. split; [exact Hfs|]. split; [exact K|].
  rewrite !K by reflexivity.
  unfold parse_basic_properties. cbv zeta.
  destruct (String.eqb (alpha_blend mat) "ADD"), (use_vertex_color_paint mat),
    (use_vertex_color_light mat), (Qeq_bool (alpha mat) 1),
    (use_backface_culling mat); repeat split.
Qed.

Lemma MaterialExporter_files_witness :
  exists fs' d,
    MaterialExporter sample_env Textured ["Detail"%string] sample_paths [] = Ok fs'
    /\ fs' = []
             ++ map (fun tex => snd (copy_image tex (path_img sample_paths)))
                    (enabled_images Textured)
             ++ [FileWrite (os_path_join (path_mat sample_paths)
                                         (mat_name Textured ++ ".json")%string)
                           (MaterialDocument d)]
    /\ dict_get String.eqb d "opacity"%string = Some (JFloat (alpha Textured)).
Proof.
  destruct (@MaterialExporter_files sample_env Textured ["Detail"%string]
              sample_paths []
              (run_files (MaterialExporter sample_env Textured ["Detail"%string]
                                              sample_paths []))
              eq_refl) as (d & Hfs & _ & _ & _ & _ & Hop & _).
  eexists. exists d. split; [reflexivity|]. split; [exact Hfs|exact Hop].
Defined.

Lemma parse_image_unregistered (mat : Material) (uv_list : list string)
      (path_data : PathData) (dir : string) (st : jdict * list fs_event)
      (slot : nat * option TextureSlot) (tex : TextureSlot) :
  In tex (enabled_image mat slot) ->
  uv_layer tex <> ""%string -> ~ In (uv_layer tex) uv_list ->
  parse_image mat uv_list path_data dir st slot = Raise ValueError.
Proof.
  unfold parse_image, enabled_image. destruct st as [self fs].
  destruct slot as [tex_id [tex'|]]; cbn [fst snd]; [|contradiction].
  destruct (String.eqb (texture_type tex') "IMAGE"); cbn [negb]; [|contradiction].
  unfold list_get.
  destruct (nth_error (use_textures mat) tex_id) as [[|]|]; try contradiction.
  intros [<-|[]] Hne Hn. cbn [bind negb]. unfold copy_image.
  destruct (String.eqb_spec (uv_layer tex') ""); [contradiction|].
  unfold list_index.
  destruct (index_from 0 (uv_layer tex') uv_list) as [uv|e] eqn:Ei.
  - exfalso. apply Hn. apply index_from_first in Ei as (_ & Ei & _).
    eapply nth_error_In; eauto.
  - apply index_from_raises in Ei as [-> _]. reflexivity.
Qed.

Lemma for_each_parse_image_fails (mat : Material) (uv_list : list string)
      (path_data : PathData) (dir : string)
      (slots : list (nat * option TextureSlot)) (tex : TextureSlot) :
  In tex (flat_map (enabled_image mat) slots) ->
  uv_layer tex <> ""%string -> ~ In (uv_layer tex) uv_list ->
  forall st : jdict * list fs_event,
  exists e, for_each (parse_image mat uv_list path_data dir) slots st = Raise e.
Proof.
  intros Hin Hne Hn.
  induction slots as [|slot slots IH]; intros st; cbn [for_each flat_map] in *.
  - contradiction.
  - destruct (parse_image mat uv_list path_data dir st slot) as [st1|e1] eqn:E;
      cbn [bind]; [|eauto].
    apply in_app_or in Hin as [Hin|Hin]; [|now apply IH].
    rewrite (@parse_image_unregistered mat uv_list path_data dir st slot tex
               Hin Hne Hn) in E. discriminate.
Qed.

(** X18: a material that has an enabled image texture naming a UV layer
    that is not in the registry (and not the unset layer, which counts as
    layer 0) cannot be exported: the material export raises, so its
    descriptor is not written and the export does not go on. *)
Theorem MaterialExporter_unregistered_uv_layer (env : Blender) (mat : Material)
        (uv_list : list string) (path_data : PathData) (fs : list fs_event)
        (tex : TextureSlot) :
  In tex (enabled_images mat) ->
  uv_layer tex <> ""%string ->
  ~ In (uv_layer tex) uv_list ->
  (exists e, MaterialExporter env mat uv_list path_data fs = Raise e)
  /\ forall fs', MaterialExporter env mat uv_list path_data fs <> Ok fs'.
Proof.
  intros Hin Hne Hn. unfold MaterialExporter, enabled_images in *. cbv zeta.
  match goal with
  | |- context [for_each ?body (enumerate (texture_slots mat)) ?st0] =>
      destruct (@for_each_parse_image_fails mat uv_list path_data
                  (os_path_relpath env (path_img path_data) (path_mat path_data))
                  (enumerate (texture_slots mat)) tex Hin Hne Hn st0) as [e ->]
  end.
  cbn [bind]. split; [eauto|discriminate].
Qed.

Lemma MaterialExporter_unregistered_uv_layer_witness :
  (exists e, MaterialExporter sample_env Textured ["UVMap"%string] sample_paths []
             = Raise e)
  /\ forall fs', MaterialExporter sample_env Textured ["UVMap"%string] sample_paths []
                 <> Ok fs'.
Proof.
  apply (@MaterialExporter_unregistered_uv_layer
           sample_env Textured ["UVMap"%string] sample_paths [] wood_texture).
  - now left.
  - discriminate.
  - intros [H|[]]. discriminate H.
Defined.

(** ** Hierarchy and scene exporters: the order of the files *)

Lemma for_each_MaterialExporter_events (env : Blender) (uv_list : list string)
      (path_data : PathData) (mats : list Material) :
  forall fs fs' : list fs_event,
    for_each (fun fs mat => MaterialExporter env mat uv_list path_data fs) mats fs
    = Ok fs' ->
    exists ext, fs' = fs ++ ext /\ Forall material_event ext.
Proof.
  induction mats as [|mat mats IH]; intros fs fs'; cbn [for_each].
  - intros [= <-]. exists []. split; [now rewrite app_nil_r|constructor].
  - destruct (MaterialExporter env mat uv_list path_data fs) as [fs1|e] eqn:E;
      [|discriminate].
    cbn [bind]. intros H.
    apply MaterialExporter_events in E as (d & -> & _).
    apply IH in H as (ext & -> & Hext).
    exists (map (fun tex => snd (copy_image tex (path_img path_data)))
                (enabled_images mat)
            ++ [FileWrite (os_path_join (path_mat path_data)
                                        (mat_name mat ++ ".json")%string)
                          (MaterialDocument d)]
            ++ ext).
    split; [now rewrite <- !app_assoc|].
    apply Forall_app. split; [|apply Forall_app; split; [|exact Hext]].
    + apply Forall_forall. intros e Hin. apply in_map_iff in Hin as (tex & <- & _).
      exact I.
    + constructor; [exact I|constructor].
Qed.

Lemma HeirachyExporter_events (env : Blender) (heirachy : ObjectHeirachy)
      (path_data : PathData) (fs : list fs_event) (doc : Model)
      (fs' : list fs_event) :
  HeirachyExporter env heirachy path_data fs = Ok (doc, fs') ->
  exists dummies mapping material_files,
    fs' = fs ++ dummies
             ++ [FileWrite (os_path_join (path_mesh path_data)
                              (heirachy_name heirachy ++ ".mapping.json")%string)
                           (MappingDocument mapping)]
             ++ material_files
             ++ [FileWrite (os_path_join (path_mesh path_data)
                              (heirachy_name heirachy ++ ".json")%string)
                           (MainDocument doc)]
    /\ Forall material_event dummies
    /\ Forall material_event material_files.
Proof.
  intros H.
  apply HeirachyExporter_inv in H
    as (mdl & nd & pl & mats & mapping & fs1 & fs2 & _ & _ & Hem & Hmat & _ & ->).
  unfold export_mappings in Hem.
  destruct (for_each _ (map fst (mesh_instances (generate_mesh_list env heirachy))) _)
    as [st|e] eqn:E; [|discriminate].
  cbn [bind] in Hem. injection Hem as <- <- <-.
  apply for_each_map_mesh_events in E. cbn [ms_fs] in E.
  apply for_each_MaterialExporter_events in Hmat as (ext & -> & Hext).
  rewrite E.
  exists (map (fun _ => dummy_material_write path_data)
              (filter (fun sub => negb (has_materials sub))
                      (map fst (mesh_instances (generate_mesh_list env heirachy))))),
    (ms_mapping st), ext.
  split; [now rewrite <- !app_assoc|]. split; [|exact Hext].
  apply Forall_forall. intros e Hin. apply in_map_iff in Hin as (sub & <- & _).
  exact I.
Qed.

Lemma HeirachyExporter_main_path (env : Blender) (heirachy : ObjectHeirachy)
      (path_data : PathData) (fs : list fs_event) (doc : Model)
      (fs' : list fs_event) :
  HeirachyExporter env heirachy path_data fs = Ok (doc, fs') ->
  main_document_paths fs'
  = main_document_paths fs
    ++ [os_path_join (path_mesh path_data) (heirachy_name heirachy ++ ".json")%string].
Proof.
  intros H.
  apply HeirachyExporter_events in H as (dummies & mapping & mf & Hfs & Hd & Hm).
  rewrite Hfs, !main_document_paths_app.
  rewrite (material_events_no_main Hd), (material_events_no_main Hm). reflexivity.
Qed.

Lemma for_each_MaterialExporter_blocks (env : Blender) (uv_list : list string)
      (path_data : PathData) (mats : list Material) :
  forall fs fs' : list fs_event,
    for_each (fun fs mat => MaterialExporter env mat uv_list path_data fs) mats fs
    = Ok fs' ->
    exists blocks,
      fs' = fs ++ List.concat blocks
      /\ Forall2 (material_block path_data) mats blocks.
Proof.
  induction mats as [|mat mats IH]; intros fs fs'; cbn [for_each].
  - intros [= <-]. exists []. split; [now rewrite app_nil_r|constructor].
  - destruct (MaterialExporter env mat uv_list path_data fs) as [fs1|e] eqn:E;
      [|discriminate].
    cbn [bind]. intros H.
    apply MaterialExporter_events in E as (d & -> & K).
    apply IH in H as (blocks & -> & HF).
    exists ((map (fun tex => snd (copy_image tex (path_img path_data)))
                 (enabled_images mat)
             ++ [FileWrite (os_path_join (path_mat path_data)
                                         (mat_name mat ++ ".json")%string)
                           (MaterialDocument d)]) :: blocks).
    split; [cbn [List.concat]; now rewrite <- !app_assoc|].
    constructor; [|exact HF]. exists d. split; [reflexivity|].
    unfold named. rewrite K by reflexivity.
    apply parse_basic_properties_named. unfold named, jset.
    rewrite dict_get_set_str. now rewrite String.eqb_refl.
Qed.

(** X16: one hierarchy export only appends to the files that were there,
    in a fixed order.  First come the writes of the dummy descriptor
    [None.json], and nothing else; then the mapping document
    [<name>.mapping.json]; then, for each material that [export_mappings]
    returned, in its order, the copies of the material's images followed by
    its descriptor [<material>.json], which carries the material's name;
    and last the main document [<name>.json], which holds the document that
    the exporter built and is the only main document written. *)
Theorem HeirachyExporter_file_order (env : Blender) (heirachy : ObjectHeirachy)
        (path_data : PathData) (fs : list fs_event) (doc : Model)
        (fs' : list fs_event) :
  HeirachyExporter env heirachy path_data fs = Ok (doc, fs') ->
  exists dummies mats mapping blocks,
    export_mappings env heirachy (generate_mesh_list env heirachy) path_data fs
    = Ok (mats, mapping,
          fs ++ dummies
             ++ [FileWrite (os_path_join (path_mesh path_data)
                              (heirachy_name heirachy ++ ".mapping.json")%string)
                           (MappingDocument mapping)])
    /\ fs' = fs ++ dummies
               ++ [FileWrite (os_path_join (path_mesh path_data)
                                (heirachy_name heirachy ++ ".mapping.json")%string)
                             (MappingDocument mapping)]
               ++ List.concat blocks
               ++ [FileWrite (os_path_join (path_mesh path_data)
                                (heirachy_name heirachy ++ ".json")%string)
                             (MainDocument doc)]
    /\ Forall (fun e => e = dummy_material_write path_data) dummies
    /\ Forall2 (material_block path_data) mats blocks
    /\ main_document_paths fs'
       = main_document_paths fs
         ++ [os_path_join (path_mesh path_data) (heirachy_name heirachy ++ ".json")%string].
Proof.
  intros H. pose proof (HeirachyExporter_main_path _ _ _ _ H) as Hmain.
  apply HeirachyExporter_inv in H
    as (mdl & nd & pl & mats & mapping & fs1 & fs2 & _ & _ & Hem & Hmat & _ & Hfs).
  pose proof Hem as Hem'. unfold export_mappings in Hem'.
  destruct (for_each _ (map fst (mesh_instances (generate_mesh_list env heirachy))) _)
    as [st|e] eqn:E; [|discriminate].
  cbn [bind] in Hem'. injection Hem' as Hmats Hmapping Hfs1.
  apply for_each_map_mesh_events in E. cbn [ms_fs] in E.
  apply for_each_MaterialExporter_blocks in Hmat as (blocks & Hfs2 & HF).
  exists (map (fun _ => dummy_material_write path_data)
              (filter (fun sub => negb (has_materials sub))
                      (map fst (mesh_instances (generate_mesh_list env heirachy))))),
    mats, mapping, blocks.
  assert (fs1 = fs ++ map (fun _ => dummy_material_write path_data)
                          (filter (fun sub => negb (has_materials sub))
                                  (map fst (mesh_instances
                                              (generate_mesh_list env heirachy))))
                   ++ [FileWrite (os_path_join (path_mesh path_data)
                                    (heirachy_name heirachy ++ ".mapping.json")%string)
                                 (MappingDocument mapping)]) as Efs1.
  { rewrite <- Hfs1, <- Hmapping, E. now rewrite <- app_assoc. }
  split; [now rewrite Hem, Efs1|].
  split; [rewrite Hfs, Hfs2, Efs1; now rewrite <- !app_assoc|].
  split; [|split; [exact HF|exact Hmain]].
  apply Forall_forall. intros e0 Hin. apply in_map_iff in Hin as (sub & <- & _).
  reflexivity.
Qed.

Lemma HeirachyExporter_file_order_witness :
  exists dummies mats mapping blocks,
    export_mappings sample_env two_meshes (generate_mesh_list sample_env two_meshes)
                    sample_paths []
    = Ok (mats, mapping,
          [] ++ dummies
             ++ [FileWrite (os_path_join (path_mesh sample_paths)
                              (heirachy_name two_meshes ++ ".mapping.json")%string)
                           (MappingDocument mapping)])
    /\ run_events two_meshes_run
       = [] ++ dummies
            ++ [FileWrite (os_path_join (path_mesh sample_paths)
                             (heirachy_name two_meshes ++ ".mapping.json")%string)
                          (MappingDocument mapping)]
            ++ List.concat blocks
            ++ [FileWrite (os_path_join (path_mesh sample_paths)
                             (heirachy_name two_meshes ++ ".json")%string)
                          (MainDocument (run_document two_meshes_run))]
    /\ Forall (fun e => e = dummy_material_write sample_paths) dummies
    /\ Forall2 (material_block sample_paths) mats blocks
    /\ main_document_paths (run_events two_meshes_run)
       = main_document_paths []
         ++ [os_path_join (path_mesh sample_paths)
                          (heirachy_name two_meshes ++ ".json")%string].
Proof.
  exact (@HeirachyExporter_file_order sample_env two_meshes sample_paths []
           (run_document two_meshes_run) (run_events two_meshes_run)
           two_meshes_returns).
Defined.

Lemma for_each_HeirachyExporter_main_paths (envs : nat -> Blender)
      (path_data : PathData) (hs : list ObjectHeirachy) :
  forall (s : nat) (fs fs' : list fs_event),
    for_each (fun fs (ch : nat * ObjectHeirachy) =>
                r <- HeirachyExporter (envs (fst ch)) (snd ch) path_data fs ;;
                Ok (snd r))
             (enumerate_from s hs) fs = Ok fs' ->
    main_document_paths fs'
    = main_document_paths fs
      ++ map (fun h => os_path_join (path_mesh path_data)
                                    (heirachy_name h ++ ".json")%string) hs.
Proof.
  induction hs as [|h hs IH]; intros s fs fs'; cbn [enumerate_from for_each].
  - intros [= <-]. now rewrite app_nil_r.
  - cbn [fst snd].
    destruct (HeirachyExporter (envs s) h path_data fs) as [[doc fs1]|e] eqn:E;
      [|discriminate].
    cbn [bind snd]. intros H.
    rewrite (IH _ _ _ H), (HeirachyExporter_main_path _ _ _ _ E).
    now rewrite <- app_assoc.
Qed.

(** X9: a scene export that returns has written one main document per
    hierarchy, in order, besides those that were there: in joint mode the
    single document [<path_data name>.json]; in separate mode one document
    [<object name>.json] for every listed object without parent, and none
    for a listed object that has a parent. *)
Theorem SceneExporter_main_documents (envs : nat -> Blender)
        (context : option (list SceneObject))
        (bpy_data_objects : list SceneObject) (path_data : PathData)
        (separate_objects : bool) (fs fs' : list fs_event) :
  SceneExporter envs context bpy_data_objects path_data separate_objects fs
  = Ok fs' ->
  main_document_paths fs'
  = main_document_paths fs
    ++ map (fun name => os_path_join (path_mesh path_data) (name ++ ".json")%string)
           (if separate_objects
            then map (fun o => obj_name (so_object o))
                     (filter parentless
                             (match context with
                              | Some selected_objects => selected_objects
                              | None => bpy_data_objects
                              end))
            else [path_name path_data]).
Proof.
  unfold SceneExporter, enumerate. intros H.
  apply for_each_HeirachyExporter_main_paths in H. rewrite H. f_equal.
  unfold SceneExporter_obj_list.
  destruct separate_objects; cbn [negb]; [|reflexivity].
  clear H.
  induction (match context with
             | Some selected_objects => selected_objects
             | None => bpy_data_objects
             end) as [|o l IH]; [reflexivity|].
  cbn [flat_map filter]. unfold parentless at 1.
  destruct (parent (so_object o));
    cbn [map app ObjectHeirachy_init heirachy_name];
    [exact IH|f_equal; exact IH].
Qed.

Lemma SceneExporter_main_documents_witness :
  main_document_paths
    (run_files (SceneExporter (fun _ => sample_env) (Some sample_selection) []
                                 sample_paths true []))
  = main_document_paths []
    ++ map (fun name => os_path_join (path_mesh sample_paths) (name ++ ".json")%string)
           (map (fun o => obj_name (so_object o))
                (filter parentless sample_selection)).
Proof.
  apply (@SceneExporter_main_documents (fun _ => sample_env)
           (Some sample_selection) [] sample_paths true []).
  vm_compute. reflexivity.
Defined.

(** ** Hierarchy exporter: meshes, instances and parents *)

Lemma enumerate_from_nth {A : Type} (xs : list A) (s k i : nat) (x : A) :
  nth_error (enumerate_from s xs) k = Some (i, x) ->
  i = s + k /\ nth_error xs k = Some x.
Proof.
  revert s k. induction xs as [|a xs IH]; intros s k; cbn [enumerate_from].
  - destruct k; discriminate.
  - destruct k as [|k]; simpl.
    + intros [= <- <-]. split; [lia|reflexivity].
    + intros H. apply IH in H as [-> H]. split; [lia|exact H].
Qed.

(** X12: in every emitted main document the cross references resolve:
    there is one mesh and one vertex buffer per sub-mesh of the mesh list,
    mesh [k] names vertex buffer [k], which holds its attributes, and
    describes sub-mesh [k] (its bounding box, one index per corner), and
    every mesh instance names a mesh of the document. *)
Theorem mesh_references_resolve (env : Blender) (heirachy : ObjectHeirachy)
        (path_data : PathData) (fs : list fs_event) (doc : Model)
        (fs' : list fs_event) :
  HeirachyExporter env heirachy path_data fs = Ok (doc, fs') ->
  List.length (meshes doc) = List.length (generate_mesh_list env heirachy)
  /\ vertices doc = map vert_data (meshes doc)
  /\ (forall k mp,
         nth_error (meshes doc) k = Some mp ->
         mp_vertices mp = k
         /\ exists sub,
             nth_error (generate_mesh_list env heirachy) k = Some sub
             /\ aabb mp = calculate_bounding_box (sub_bmesh sub)
             /\ count mp = List.length (flat_map loops (faces (sub_bmesh sub)))
             /\ indices mp = seq 0 (count mp))
  /\ forall r, In r (meshInstances doc) -> inst_mesh r < List.length (meshes doc).
Proof.
  intros H.
  apply HeirachyExporter_inv in H
    as (mdl & nd & pl & mats & mapping & fs1 & fs2 & Hmdl & _ & _ & _ & -> & _).
  cbn [meshes vertices meshInstances].
  set (ml := generate_mesh_list env heirachy) in *.
  assert (List.length mdl = List.length ml) as Hlen.
  { apply map_result_length in Hmdl. rewrite Hmdl. unfold enumerate.
    apply enumerate_from_length. }
  split; [exact Hlen|]. split; [reflexivity|]. split.
  - intros k mp Hk.
    destruct (map_result_nth _ _ _ Hmdl Hk) as ([i sub] & Hi & Hmp).
    unfold enumerate in Hi. apply enumerate_from_nth in Hi as [-> Hsub].
    cbn [fst snd] in Hmp.
    apply MeshParser_init_inv in Hmp as (fa & Efa & _ & Hidx & Hcnt & Hid & Hbox).
    split; [exact Hid|]. exists sub. split; [exact Hsub|]. split; [exact Hbox|].
    destruct (flatten_arrays_ok (sub_bmesh sub)) as (fa' & Efa' & _ & Hseq & _).
    rewrite Efa in Efa'. injection Efa' as <-.
    rewrite Hcnt, Hidx, Hseq, length_seq. split; reflexivity.
  - intros r Hr. rewrite Hlen.
    destruct (generate_instance_data_spec ml) as [_ Hmesh].
    assert (In (inst_mesh r) (instance_mesh_ids_from 0 ml)) as Hin
        by (rewrite <- Hmesh; now apply in_map).
    apply In_nth_error in Hin as [i Hi].
    apply instance_mesh_ids_nth in Hi as (_ & mi & _ & Hnth).
    rewrite Nat.sub_0_r in Hnth. apply nth_error_Some. congruence.
Qed.

Lemma mesh_references_resolve_witness :
  List.length (meshes (run_document two_meshes_run))
  = List.length (generate_mesh_list sample_env two_meshes)
  /\ vertices (run_document two_meshes_run)
     = map vert_data (meshes (run_document two_meshes_run))
  /\ (forall k mp,
         nth_error (meshes (run_document two_meshes_run)) k = Some mp ->
         mp_vertices mp = k
         /\ exists sub,
             nth_error (generate_mesh_list sample_env two_meshes) k = Some sub
             /\ aabb mp = calculate_bounding_box (sub_bmesh sub)
             /\ count mp = List.length (flat_map loops (faces (sub_bmesh sub)))
             /\ indices mp = seq 0 (count mp))
  /\ forall r, In r (meshInstances (run_document two_meshes_run)) ->
               inst_mesh r < List.length (meshes (run_document two_meshes_run)).
Proof.
  exact (@mesh_references_resolve sample_env two_meshes sample_paths []
           (run_document two_meshes_run) (run_events two_meshes_run)
           two_meshes_returns).
Defined.

Lemma separate_sub_has_face (tri : BMesh -> BMesh) (Inst : Type) (mesh : Mesh)
      (obj : Inst) (sub : SubMesh Inst) :
  materials mesh <> [] ->
  In sub (separate_mesh_by_material tri mesh obj) ->
  exists f, In f (faces (sub_bmesh sub)) /\ In f (faces (tri (from_mesh mesh))).
Proof.
  intros Hm H. unfold separate_mesh_by_material in H.
  destruct (materials mesh) as [|m ms] eqn:Em; [contradiction|].
  apply in_flat_map in H as ([k mat] & _ & H).
  rewrite split_material_pruned in H.
  destruct (verts (pruned (tri (from_mesh mesh)) k)) as [|v vs] eqn:Ev; [contradiction|].
  destruct H as [<-|[]]. cbn [sub_bmesh fst snd].
  assert (faces (pruned (tri (from_mesh mesh)) k) <> []) as Hne
      by (apply pruned_verts_faces; rewrite Ev; discriminate).
  destruct (faces (pruned (tri (from_mesh mesh)) k)) as [|f fs] eqn:Ef; [contradiction|].
  exists f. split; [now left|]. apply (@pruned_faces_incl _ k). rewrite Ef. now left.
Qed.

(** X13: a mesh object whose mesh lists materials but has no face after
    triangulation is left out of the export altogether: it is an instance
    of no sub-mesh, so it gets no node and no mesh instance (an object
    without mesh data, by contrast, is kept with the placeholder). *)
Theorem faceless_mesh_object_dropped (env : Blender) (heirachy : ObjectHeirachy)
        (obj : Object) (m : Mesh) :
  db_consistent env heirachy ->
  In obj (objects heirachy) ->
  obj_data obj = DataMesh m ->
  materials m <> [] ->
  faces (triangulate env (from_mesh m)) = [] ->
  ~ In obj (map snd (mesh_instances (generate_mesh_list env heirachy))).
Proof.
  intros Hdb Hobj Hdata Hm Hfaces Hin.
  apply in_map_iff in Hin as ([sub o] & Ho & Hin). cbn [snd] in Ho. subst o.
  unfold mesh_instances in Hin. apply in_flat_map in Hin as (sub' & Hsub & Hin).
  apply in_map_iff in Hin as (o & Heq & Hinst). injection Heq as Hs Ho. subst o.
  destruct (mesh_list_origin env heirachy sub' Hsub) as (first & rest & Ei & Hall & Hsep).
  rewrite Ei in Hinst. destruct (Hall obj Hinst) as [_ Hname].
  assert (grouping_mesh env obj = m) as Eg by (unfold grouping_mesh; now rewrite Hdata).
  rewrite Eg in Hname. rewrite <- Hname, (Hdb obj m Hobj Hdata) in Hsep.
  destruct (separate_sub_has_face _ _ _ _ Hm Hsep) as (f & _ & Hf).
  rewrite Hfaces in Hf. exact Hf.
Qed.

Lemma faceless_mesh_object_dropped_witness :
  ~ In LooseObject (map snd (mesh_instances (generate_mesh_list loose_env loose_only))).
Proof.
  apply (@faceless_mesh_object_dropped loose_env loose_only LooseObject Loose).
  - intros obj m [<-|[]] [= <-]. reflexivity.
  - now left.
  - reflexivity.
  - discriminate.
  - reflexivity.
Defined.

Lemma str_in_false (s : string) (xs : list string) :
  str_in s xs = false -> ~ In s xs.
Proof.
  unfold str_in. intros H Hin.
  assert (existsb (String.eqb s) xs = true) as C; [|congruence].
  apply existsb_exists. exists s. split; [exact Hin|apply String.eqb_refl].
Qed.

(** X14: the parent index of an instance is 0, the root, exactly when the
    instance has no parent or its parent's name is the name of no exported
    node: an object whose parent is not part of the export is attached to
    the root. *)
Theorem parent_index_root (env : Blender) (heirachy : ObjectHeirachy)
        (path_data : PathData) (fs : list fs_event) (doc : Model)
        (fs' : list fs_event) (i : nat) (p : Z) (mi : InstSubMesh * Object) :
  HeirachyExporter env heirachy path_data fs = Ok (doc, fs') ->
  nth_error (parents doc) (S i) = Some p ->
  nth_error (mesh_instances (generate_mesh_list env heirachy)) i = Some mi ->
  (p = 0%Z
   <-> match parent (snd mi) with
       | None => True
       | Some par => ~ In (obj_name par) (map node_name (tl (nodes doc)))
       end).
Proof.
  intros H Hp Hmi.
  apply HeirachyExporter_inv in H
    as (mdl & nd & pl & mats & mapping & fs1 & fs2 & _ & Hnd & _ & _ & -> & _).
  apply generate_node_data_inv in Hnd as [Hnodes Hpl].
  cbn [parents nodes tl] in *. simpl in Hp. rewrite nth_error_map in Hp.
  destruct (nth_error pl i) as [q|] eqn:Eq; [|discriminate].
  injection Hp as <-.
  destruct (map_result_nth _ _ _ Hpl Eq) as (mi' & Hmi' & Hq).
  rewrite Hmi in Hmi'. injection Hmi' as <-.
  unfold parent_id in Hq. destruct (parent (snd mi)) as [par|].
  - destruct (str_in (obj_name par) (map node_name nd)) eqn:Es.
    + unfold list_index in Hq.
      destruct (index_from 0 (obj_name par) (map node_name nd)) as [j|e];
        [|discriminate].
      cbn [bind] in Hq. injection Hq as <-. split; [lia|].
      intros Hn. exfalso. apply Hn. now apply str_in_In.
    + injection Hq as <-. split; [|reflexivity]. intros _. now apply str_in_false.
  - injection Hq as <-. split; auto.
Qed.

Lemma parent_index_root_witness :
  (0%Z = 0%Z
   <-> match parent (snd (("Bare"%string, from_mesh Bare, [Child]), Child)) with
       | None => True
       | Some par =>
           ~ In (obj_name par) (map node_name (tl (nodes (run_document child_only_run))))
       end).
Proof.
  apply (@parent_index_root sample_env child_only sample_paths []
           (run_document child_only_run) (run_events child_only_run) 0 0%Z
           (("Bare"%string, from_mesh Bare, [Child]), Child)).
  - vm_compute. reflexivity.
  - vm_compute. reflexivity.
  - vm_compute. reflexivity.
Defined.

Lemma raw_meshes_NoDup (env : Blender) (objs : list Object) :
  forall d : list (string * list Object),
    NoDup (dict_keys d) ->
    NoDup (dict_keys (fold_left (group_object env) objs d)).
Proof.
  induction objs as [|obj objs IH]; intros d Hd; simpl; [exact Hd|].
  apply IH. unfold group_object.
  destruct (dict_get String.eqb d _); now apply dict_set_NoDup.
Qed.

Lemma dict_get_of_In {V : Type} (d : list (string * V)) (k : string) (v : V) :
  NoDup (dict_keys d) -> In (k, v) d -> dict_get String.eqb d k = Some v.
Proof.
  unfold dict_keys. induction d as [|[k0 v0] d IH]; simpl; intros Hnd; [intros []|].
  inversion Hnd as [|? ? Hnotin Hnd']; subst.
  intros [[= -> ->]|Hin].
  - now rewrite String.eqb_refl.
  - destruct (String.eqb_spec k0 k) as [->|_]; [|now apply IH].
    exfalso. apply Hnotin. change k with (fst (k, v)). now apply in_map.
Qed.

(** X17: objects are grouped by the name of their mesh data, and the
    geometry of a group is exported once: two objects of the hierarchy whose
    data carry the same name (or that both have no mesh data) are instances
    of the same sub-meshes. *)
Theorem shared_mesh_shared_sub_meshes (env : Blender) (heirachy : ObjectHeirachy)
        (o1 o2 : Object) (sub : InstSubMesh) :
  In o1 (objects heirachy) -> In o2 (objects heirachy) ->
  mesh_name (grouping_mesh env o1) = mesh_name (grouping_mesh env o2) ->
  In sub (generate_mesh_list env heirachy) ->
  In o1 (sub_instances sub) -> In o2 (sub_instances sub).
Proof.
  intros H1 H2 Hname Hsub Hin. unfold generate_mesh_list in Hsub.
  apply in_flat_map in Hsub as ([key l] & Hkey & Hsub).
  apply separate_instances in Hsub. rewrite Hsub in Hin |- *.
  destruct (@raw_meshes_entries env (objects heirachy) []) with (key := key) (l := l)
    as [_ Hall]; [intros ? ? []|exact Hkey|].
  destruct (Hall o1 Hin) as [Hk _].
  destruct (@raw_meshes_groups env (objects heirachy) [] o2 (or_introl H2))
    as (l2 & Hget & Hin2).
  rewrite <- Hname, Hk in Hget.
  rewrite (@dict_get_of_In _ _ key l) in Hget; [|apply raw_meshes_NoDup; constructor|exact Hkey].
  now injection Hget as ->.
Qed.

Lemma shared_mesh_shared_sub_meshes_witness :
  In CubeTwin (sub_instances ("Cube.Blue"%string, pruned (from_mesh Cube) 1,
                              [CubeObject; CubeTwin])).
Proof.
  apply (@shared_mesh_shared_sub_meshes sample_env two_cubes CubeObject CubeTwin
           ("Cube.Blue"%string, pruned (from_mesh Cube) 1, [CubeObject; CubeTwin])).
  - now left.
  - right. now left.
  - reflexivity.
  - vm_compute. right. left. reflexivity.
  - now left.
Defined.

(** ** Paths: the copied image and the export name *)

Lemma free_of_app (sep : ascii) (a b : string) :
  free_of sep a -> free_of sep b -> free_of sep (a ++ b).
Proof.
  induction a as [|c a IH]; simpl; [auto|]. intros [Hc Ha] Hb. split; auto.
Qed.

Lemma string_app_assoc (a b c : string) : ((a ++ b) ++ c = a ++ (b ++ c))%string.
Proof. induction a as [|x a IH]; simpl; [reflexivity|]. now rewrite IH. Qed.

Lemma last_segment_from_free (sep : ascii) (s acc : string) :
  free_of sep s -> last_segment_from sep s acc = acc.
Proof.
  revert acc. induction s as [|c s IH]; intros acc; simpl; [reflexivity|].
  intros [Hc Hs]. destruct (Ascii.eqb_spec c sep); [contradiction|]. now apply IH.
Qed.

Lemma last_segment_from_after (sep : ascii) (x b : string) :
  free_of sep b ->
  forall acc, last_segment_from sep (x ++ String sep b) acc = b.
Proof.
  intros Hb. induction x as [|c x IH]; intros acc; simpl.
  - rewrite Ascii.eqb_refl. now apply last_segment_from_free.
  - destruct (Ascii.eqb c sep); apply IH.
Qed.

Lemma ends_with_slash_split (a : string) :
  ends_with_slash a = true -> exists a', a = (a' ++ "/")%string.
Proof.
  induction a as [|c a IH]; [discriminate|].
  destruct a as [|c' a'].
  - simpl. destruct (Ascii.eqb_spec c "/"%char) as [->|]; [|discriminate].
    intros _. now exists ""%string.
  - intros H. change (ends_with_slash (String c' a') = true) in H.
    destruct (IH H) as [a0 E]. exists (String c a0). simpl. now rewrite <- E.
Qed.

(** The last segment of a joined path is the part that was joined on, when
    that part holds no separator. *)
Lemma last_segment_join (a b : string) :
  free_of "/"%char b -> last_segment "/"%char (os_path_join a b) = b.
Proof.
  intros Hb. unfold os_path_join, last_segment.
  assert (starts_with_slash b = false) as ->.
  { destruct b as [|c b']; simpl; [reflexivity|]. destruct Hb as [Hc _].
    now destruct (Ascii.eqb_spec c "/"%char). }
  destruct (String.eqb_spec a "") as [->|Ha]; cbn [orb].
  - simpl. now apply last_segment_from_free.
  - destruct (ends_with_slash a) eqn:Ee.
    + destruct (ends_with_slash_split a Ee) as [a' ->].
      rewrite string_app_assoc. simpl. now apply last_segment_from_after.
    + change (a ++ "/" ++ b)%string with (a ++ String "/"%char b)%string.
      now apply last_segment_from_after.
Qed.

Lemma last_segment_from_spec (sep : ascii) (s : string) :
  forall acc,
    (last_segment_from sep s acc = acc /\ free_of sep s)
    \/ free_of sep (last_segment_from sep s acc).
Proof.
  induction s as [|c s IH]; intros acc; simpl.
  - left. now split.
  - destruct (Ascii.eqb_spec c sep) as [->|Hc].
    + right. destruct (IH s) as [[-> Hs]|Hr]; assumption.
    + destruct (IH acc) as [[-> Hs]|Hr]; [left; now split|now right].
Qed.

Lemma last_segment_free (sep : ascii) (s : string) :
  free_of sep (last_segment sep s).
Proof.
  unfold last_segment. destruct (last_segment_from_spec sep s s) as [[-> Hs]|Hr];
    assumption.
Qed.

(** X20: the image of a texture is copied to [<img_path>/<name>.<ext>],
    where the extension, what follows the last dot of the image's file path,
    holds no dot; when neither the texture's name nor that extension holds
    a slash, the file name that the descriptor then records, the last
    segment of the new path, is [<name>.<ext>] again, the name of the
    copy. *)
Theorem copy_image_basename (tex : TextureSlot) (img_path : string) :
  free_of "/"%char (tex_name tex) ->
  free_of "/"%char (last_segment "."%char (image_filepath tex)) ->
  last_segment "/"%char (fst (copy_image tex img_path))
  = (tex_name tex ++ "." ++ last_segment "."%char (image_filepath tex))%string
  /\ free_of "."%char (last_segment "."%char (image_filepath tex))
  /\ snd (copy_image tex img_path)
     = FileCopy (image_filepath tex)
                (os_path_join img_path
                   (tex_name tex ++ "."
                             ++ last_segment "."%char (image_filepath tex))%string).
Proof.
  intros Hn He. unfold copy_image. cbn [fst snd].
  split; [|split; [apply last_segment_free|reflexivity]].
  apply last_segment_join. apply free_of_app; [exact Hn|].
  simpl. split; [discriminate|exact He].
Qed.

Lemma copy_image_basename_witness :
  last_segment "/"%char (fst (copy_image wood_texture (path_img sample_paths)))
  = "Wood.png"%string.
Proof.
  refine (proj1 (@copy_image_basename wood_texture (path_img sample_paths) _ _));
    simpl; repeat split; discriminate.
Defined.

Lemma first_segment_free (sep : ascii) (s : string) :
  free_of sep (first_segment sep s).
Proof.
  induction s as [|c s IH]; simpl; [exact I|].
  destruct (Ascii.eqb_spec c sep); simpl; [exact I|]. now split.
Qed.

Lemma first_segment_keeps_free (c sep : ascii) (s : string) :
  free_of c s -> free_of c (first_segment sep s).
Proof.
  induction s as [|x s IH]; simpl; [auto|]. intros [Hx Hs].
  destruct (Ascii.eqb x sep); simpl; [exact I|]. split; auto.
Qed.

Lemma first_segment_prefix (sep : ascii) (s : string) :
  exists rest,
    s = (first_segment sep s ++ rest)%string
    /\ (rest = ""%string \/ exists r, rest = String sep r).
Proof.
  induction s as [|c s (rest & E & Hr)]; simpl.
  - exists ""%string. split; [reflexivity|now left].
  - destruct (Ascii.eqb_spec c sep) as [->|Hc].
    + exists (String sep s). split; [reflexivity|right; eauto].
    + exists rest. split; [simpl; now rewrite <- E|exact Hr].
Qed.

(** X10: the export name that the operator derives from the chosen file
    path is the file name up to its first dot: it holds neither a dot nor a
    slash, and the file name is that name, followed by nothing or by a dot
    and the rest (so [scene.v2.json] exports as [scene], and a file name
    that starts with a dot gives the empty name).  The three directories
    are the operator's paths joined to the directory of the file. *)
Theorem execute_export_name (self : ExportPlaycanvas) :
  free_of "."%char (path_name (execute_path_data self))
  /\ free_of "/"%char (path_name (execute_path_data self))
  /\ (exists rest,
         snd (os_path_split (filepath self))
         = (path_name (execute_path_data self) ++ rest)%string
         /\ (rest = ""%string \/ exists r, rest = String "."%char r))
  /\ path_mesh (execute_path_data self)
     = os_path_join (fst (os_path_split (filepath self))) (mesh_path self)
  /\ path_mat (execute_path_data self)
     = os_path_join (fst (os_path_split (filepath self))) (mat_path self)
  /\ path_img (execute_path_data self)
     = os_path_join (fst (os_path_split (filepath self))) (image_path self).
Proof.
  unfold execute_path_data. cbn [path_name path_mesh path_mat path_img].
  split; [apply first_segment_free|].
  split; [apply first_segment_keeps_free; unfold os_path_split; cbn [snd];
          apply last_segment_free|].
  split; [apply first_segment_prefix|]. repeat split.
Qed.

(** ** Mapping and materials: what the first instance decides *)

(** C4, where the code departs from it: a curve that carries [Green] and an
    empty have no mesh data and share the placeholder sub-mesh, whose mesh
    has no materials.  [export_mappings] reads the materials of the data of
    the sub-mesh's first instance, the curve, so both mapping entries, the
    empty's too, are [Green.json], where the claim says the dummy [None];
    no dummy descriptor is written. *)
Theorem mapping_reads_first_instance :
  exists doc fs' sub,
    HeirachyExporter sample_env curve_and_empty sample_paths [] = Ok (doc, fs')
    /\ In (FileWrite "out/Meshes/scene.mapping.json"
                     (MappingDocument ["../Materials/Green.json";
                                       "../Materials/Green.json"]%string)) fs'
    /\ nth_error (meshInstances doc) 1 = Some (mkInstanceRecord 2 0)
    /\ nth_error (mesh_instances (generate_mesh_list sample_env curve_and_empty)) 1
       = Some (sub, EmptyObject)
    /\ nth_error (generate_mesh_list sample_env curve_and_empty) 0 = Some sub
    /\ sub_bmesh sub = triangulate sample_env (from_mesh (EMPTY_MESH sample_env))
    /\ materials (EMPTY_MESH sample_env) = []
    /\ obj_data EmptyObject = DataNone
    /\ os_path_join (os_path_relpath sample_env (path_mat sample_paths)
                                     (path_mesh sample_paths)) "None.json"
       = "../Materials/None.json"%string
    /\ ~ In (dummy_material_write sample_paths) fs'.
Proof.
  exists (run_document curve_and_empty_run), (run_events curve_and_empty_run),
    (new_mesh_name sample_env,
     triangulate sample_env (from_mesh (EMPTY_MESH sample_env)),
     [CurveObject; EmptyObject]).
  split; [vm_compute; reflexivity|].
  split; [vm_compute; left; reflexivity|].
  split; [vm_compute; reflexivity|].
  split; [vm_compute; reflexivity|].
  split; [vm_compute; reflexivity|].
  split; [reflexivity|]. split; [reflexivity|]. split; [reflexivity|].
  split; [reflexivity|].
  vm_compute. intros [H|[H|[H|[]]]]; discriminate H.
Qed.

Lemma for_each_HeirachyExporter_materials (envs : nat -> Blender)
      (path_data : PathData) (hs : list ObjectHeirachy) :
  forall (s : nat) (fs fs' : list fs_event),
    (forall i h, nth_error hs i = Some h ->
                 db_consistent (envs (s + i)) h
                 /\ keeps_faces (triangulate (envs (s + i)))) ->
    for_each (fun fs (ch : nat * ObjectHeirachy) =>
                r <- HeirachyExporter (envs (fst ch)) (snd ch) path_data fs ;;
                Ok (snd r))
             (enumerate_from s hs) fs = Ok fs' ->
    exists per_hierarchy,
      written_material_names fs'
      = written_material_names fs ++ List.concat per_hierarchy
      /\ Forall2 (hierarchy_materials envs) (enumerate_from s hs) per_hierarchy.
Proof.
  induction hs as [|h hs IH]; intros s fs fs' Hinv; cbn [enumerate_from for_each].
  - intros [= <-]. exists []. split; [now rewrite app_nil_r|constructor].
  - cbn [fst snd].
    destruct (HeirachyExporter (envs s) h path_data fs) as [[doc fs1]|e] eqn:E;
      [|discriminate].
    cbn [bind snd]. intros H.
    destruct (Hinv 0 h eq_refl) as [Hdb Hk]. rewrite Nat.add_0_r in Hdb, Hk.
    destruct (@used_materials_written_once (envs s) h path_data fs doc fs1 Hdb Hk E)
      as (names & Hw & Hnd & Hn).
    apply IH in H as (per & Hw' & HF).
    2:{ intros i h' Hi. specialize (Hinv (S i) h' Hi).
        now rewrite Nat.add_succ_r in Hinv. }
    exists (names :: per). split.
    + rewrite Hw', Hw. cbn [List.concat]. now rewrite <- app_assoc.
    + constructor; [|exact HF]. split; [exact Hnd|exact Hn].
Qed.

(** C5, as the code has it: in every export run, for each hierarchy
    exported (the listed objects as one hierarchy in joint mode, one
    hierarchy per listed object without parent in separate mode), one
    descriptor is written for each material that [export_mappings] selects
    for a surviving sub-mesh of that hierarchy, once however many sub-meshes
    use it, and none for a material that no surviving sub-mesh uses.  A
    joint-mode run exports one hierarchy, so there each such material is
    written exactly once in the run. *)
Theorem materials_written_once_per_hierarchy (envs : nat -> Blender)
        (context : option (list SceneObject))
        (bpy_data_objects : list SceneObject) (path_data : PathData)
        (separate_objects : bool) (fs fs' : list fs_event) :
  (forall counter h,
      nth_error (SceneExporter_obj_list
                   (match context with
                    | Some selected_objects => selected_objects
                    | None => bpy_data_objects
                    end) path_data separate_objects) counter = Some h ->
      db_consistent (envs counter) h /\ keeps_faces (triangulate (envs counter))) ->
  SceneExporter envs context bpy_data_objects path_data separate_objects fs
  = Ok fs' ->
  exists per_hierarchy,
    written_material_names fs'
    = written_material_names fs ++ List.concat per_hierarchy
    /\ Forall2 (hierarchy_materials envs)
               (enumerate (SceneExporter_obj_list
                             (match context with
                              | Some selected_objects => selected_objects
                              | None => bpy_data_objects
                              end) path_data separate_objects))
               per_hierarchy
    /\ (separate_objects = false ->
        exists names,
          per_hierarchy = [names]
          /\ NoDup names
          /\ written_material_names fs' = written_material_names fs ++ names).
Proof.
  intros Hinv H. unfold SceneExporter, enumerate in *.
  apply for_each_HeirachyExporter_materials in H as (per & Hw & HF); [|exact Hinv].
  exists per. split; [exact Hw|]. split; [exact HF|].
  intros ->. unfold SceneExporter_obj_list in HF. cbn [negb enumerate_from] in HF.
  inversion HF as [|ch names l per' Hm Hrest]; subst.
  inversion Hrest; subst. exists names.
  split; [reflexivity|]. split; [exact (proj1 Hm)|].
  rewrite Hw. cbn [List.concat]. now rewrite app_nil_r.
Qed.

(** C5, amended, on two root objects exported separately: [Red] and [Blue]
    for the first hierarchy, [Red] again for the second. *)
Lemma materials_written_once_per_hierarchy_witness :
  written_material_names (run_files two_roots_run) = ["Red"; "Blue"; "Red"]%string
  /\ exists per_hierarchy,
      written_material_names (run_files two_roots_run)
      = written_material_names [] ++ List.concat per_hierarchy
      /\ Forall2 (hierarchy_materials (fun _ => sample_env))
                 (enumerate (SceneExporter_obj_list two_roots sample_paths true))
                 per_hierarchy.
Proof.
  split; [vm_compute; reflexivity|].
  destruct (@materials_written_once_per_hierarchy
              (fun _ => sample_env) (Some two_roots) [] sample_paths true []
              (run_files two_roots_run)) as (per & Hw & HF & _).
  - intros counter h Hn.
    destruct counter as [|[|counter]]; cbn in Hn;
      [injection Hn as <-|injection Hn as <-|destruct counter; discriminate Hn];
      (split; [intros obj m [<-|[]] [= <-]; reflexivity
              |exact sample_env_keeps_faces]).
  - vm_compute. reflexivity.
  - exists per. split; assumption.
Defined.

(** ** Geometry and nodes: the stages that cannot fail *)

(** X11: whenever the mesh list of a hierarchy is built, every UV layer of
    every sub-mesh in it is in the registry built from the same hierarchy,
    so no [MeshParser] raises; and [generate_node_data] raises nothing,
    because [node_name_list.index] is only reached for a name that is in
    the list.  It is assumed that every mesh object's data is the datablock
    Blender has under its name and that triangulation keeps UV layers,
    material indices and a face of a mesh that has one. *)
Theorem geometry_and_nodes_return (env : Blender) (heirachy : ObjectHeirachy) :
  db_consistent env heirachy -> triangulation_ok (triangulate env) ->
  (forall sub u, In sub (generate_mesh_list env heirachy) ->
                 In u (uv_layers (sub_bmesh sub)) ->
                 In u (generate_uv_list heirachy))
  /\ (exists mesh_data_list,
         map_result (fun im : nat * InstSubMesh =>
                       MeshParser_init (sub_bmesh (snd im)) (fst im)
                                       (generate_uv_list heirachy))
                    (enumerate (generate_mesh_list env heirachy))
         = Ok mesh_data_list)
  /\ exists node_data parent_list,
      generate_node_data (generate_mesh_list env heirachy)
      = Ok (node_data, parent_list).
Proof.
  intros Hdb Htri. split; [|split].
  - intros sub u Hsub Hu.
    now apply (@mesh_list_uv_layers env heirachy sub u Hdb Htri).
  - apply map_result_total. intros [k sub] Hin. cbn [fst snd].
    apply MeshParser_total. intros u Hu.
    unfold enumerate in Hin. apply enumerate_from_In in Hin as [_ Hn].
    apply nth_error_In in Hn.
    now apply (@mesh_list_uv_layers env heirachy sub u Hdb Htri).
  - apply generate_node_data_total.
Qed.

Lemma geometry_and_nodes_return_witness :
  exists mesh_data_list,
    map_result (fun im : nat * InstSubMesh =>
                  MeshParser_init (sub_bmesh (snd im)) (fst im)
                                  (generate_uv_list two_meshes))
               (enumerate (generate_mesh_list sample_env two_meshes))
    = Ok mesh_data_list.
Proof.
  exact (proj1 (proj2 (@geometry_and_nodes_return sample_env two_meshes
                         two_meshes_consistent sample_triangulation_ok))).
Defined.
